(** * ectmap: the star map's projection, camera, spatial queries,
    clustering, collision layout and map-data endpoints

  A shallow embedding of [src/app/components/StarMap.tsx] (the map view
  [StarMap] and the local view [SystemDetail]), of
  [src/app/api/map/data/route.ts] and of the alliance-sovereignty
  route, with the properties the specification states about them.

  JavaScript numbers are modelled by rationals ([Q]): every finite
  double is a rational, and the properties below are the exact
  arithmetic ones.  [Math.sqrt] of a rational is carried by its
  radicand (see [Js.Bound]). *)

From Stdlib Require Import QArith Qminmax Qround Qabs Lqa ZArith Ascii String.
From Equations Require Import Equations.
From stdpp Require Import gmap strings list pretty.

Local Open Scope Q_scope.

(** ** JavaScript numeric helpers *)
Module Js.

(** [a < b] on numbers. *)
Definition ltb (a b : Q) : bool := negb (Qle_bool b a).

(** [a || b] on numbers: [b] when [a] is [0]. *)
Definition or_else (a b : Q) : Q := if Qeq_bool a 0 then b else a.

(** [Math.max(a, Math.min(b, v))]. *)
Definition clamp (lo hi v : Q) : Q := Qmax lo (Qmin hi v).

(** The right-hand side of a comparison [Math.sqrt(d2) < b]: a plain
    number, another square root (kept as its radicand) or [Infinity]. *)
Inductive Bound : Type :=
| Num (q : Q)
| Sqrt (d2 : Q)
| Infinity.

(** [Math.sqrt(d2) < b] for a radicand [d2 >= 0]:
    [sqrt d2 < q] iff [0 < q] and [d2 < q*q]; [sqrt d2 < sqrt e] iff
    [d2 < e]. *)
Definition sqrt_lt (d2 : Q) (b : Bound) : bool :=
  match b with
  | Num q => ltb 0 q && ltb d2 (q * q)
  | Sqrt e => ltb d2 e
  | Infinity => true
  end.

(** [Math.sqrt(d2) > 0]. *)
Definition sqrt_pos (d2 : Q) : bool := ltb 0 d2.

(** [dx * dx + dy * dy], the radicand of every distance of the program. *)
Definition dist2 (x1 y1 x2 y2 : Q) : Q :=
  let dx := x1 - x2 in
  let dy := y1 - y2 in
  dx * dx + dy * dy.

(** [Math.min(acc, x)] and [Math.max(acc, x)] where the accumulator
    starts at [Infinity] / [-Infinity], written [None]. *)
Definition accMin (acc : option Q) (x : Q) : option Q :=
  Some (match acc with None => x | Some m => Qmin m x end).

Definition accMax (acc : option Q) (x : Q) : option Q :=
  Some (match acc with None => x | Some m => Qmax m x end).

End Js.

(** ** Template strings used as keys *)
Module Template.

(** The character [c] occurs in [s]. *)
Fixpoint occurs (c : ascii) (s : string) : bool :=
  match s with
  | EmptyString => false
  | String d s' => Ascii.eqb c d || occurs c s'
  end.

(** [c] is not one of the characters a number is printed with. *)
Definition not_digit (c : ascii) : Prop := forall d : N, pretty_N_char d <> c.

End Template.

(** ** Nearest-candidate scans *)
Module Scan.

(** The body of a loop that keeps the candidate nearest to the cursor:
    [if (distance < nearestDistance) { nearestDistance = distance; ... }]
    (StarMap.tsx 745-748). *)
Definition step {A : Type} (d2 : A -> Q) : Js.Bound * option A -> A -> Js.Bound * option A :=
  fun '(nearestDistance, nearest) x =>
    if Js.sqrt_lt (d2 x) nearestDistance then (Js.Sqrt (d2 x), Some x)
    else (nearestDistance, nearest).

(** What such a loop, started from the radius [r], has established after
    the candidates [seen]. *)
Definition scanned {A : Type} (d2 : A -> Q) (r : Q) (seen : list A)
           (acc : Js.Bound * option A) : Prop :=
  match snd acc with
  | None =>
    fst acc = Js.Num r /\ forall t, t ∈ seen -> Js.sqrt_lt (d2 t) (Js.Num r) = false
  | Some s =>
    fst acc = Js.Sqrt (d2 s)
    /\ Js.sqrt_lt (d2 s) (Js.Num r) = true
    /\ exists before after,
        seen = before ++ s :: after
        /\ (forall t, t ∈ before -> d2 s < d2 t)
        /\ (forall t, t ∈ after -> d2 s <= d2 t)
  end.

End Scan.

(** ** Camera and viewport (shared by both views) *)

Record Camera : Type := mkCamera { cam_x : Q; cam_y : Q; cam_zoom : Q }.

Record Dimensions : Type := mkDimensions { width : Q; height : Q }.

(** The canvas' [getBoundingClientRect()]: only [left] and [top] are read. *)
Record Rect : Type := mkRect { rect_left : Q; rect_top : Q }.

Module Viewport.

(** The animation-frame callback of [handleWheelEvent]
    (StarMap.tsx 378-402 and 1244-1268, the same text in both views). *)
Definition wheelFrame (dimensions : Dimensions) (cam : Camera)
           (mouseX mouseY pendingZoomDelta : Q) : Camera :=
  let newZoom := Qmax 0.1 (Qmin 10 (cam_zoom cam * (1 + pendingZoomDelta))) in
  let worldX := (mouseX - width dimensions / 2 - cam_x cam) / cam_zoom cam in
  let worldY := (mouseY - height dimensions / 2 - cam_y cam) / cam_zoom cam in
  let newX := mouseX - width dimensions / 2 - worldX * newZoom in
  let newY := mouseY - height dimensions / 2 - worldY * newZoom in
  {| cam_x := newX; cam_y := newY; cam_zoom := newZoom |}.

(** Screen to pre-camera pixel space, as the hit tests compute it
    (StarMap.tsx 721-722, 810-811, 1618-1619). *)
Definition worldX (dimensions : Dimensions) (cam : Camera) (mouseX : Q) : Q :=
  (mouseX - width dimensions / 2 - cam_x cam) / cam_zoom cam + width dimensions / 2.

Definition worldY (dimensions : Dimensions) (cam : Camera) (mouseY : Q) : Q :=
  (mouseY - height dimensions / 2 - cam_y cam) / cam_zoom cam + height dimensions / 2.

(** Pre-camera pixel space to screen: the canvas transform
    [translate(w/2 + cam.x, h/2 + cam.y); scale(zoom); translate(-w/2, -h/2)]
    (StarMap.tsx 447-449, 1289-1291). *)
Definition screenX (dimensions : Dimensions) (cam : Camera) (px : Q) : Q :=
  width dimensions / 2 + cam_x cam + cam_zoom cam * (px - width dimensions / 2).

Definition screenY (dimensions : Dimensions) (cam : Camera) (py : Q) : Q :=
  height dimensions / 2 + cam_y cam + cam_zoom cam * (py - height dimensions / 2).

(** The camera invariant of the specification. *)
Definition zoom_ok (cam : Camera) : Prop := 0.1 <= cam_zoom cam <= 10.

End Viewport.

(** ** The map view ([StarMap]) *)
Module MapView.

(** The fields of a solar system record that the map view reads.
    [position2D] is optional, [position] is the 3D position (x, y). *)
Record SolarSystem : Type := mkSystem {
  _key : N;
  regionID : N;
  position2D : option (Q * Q);
  position : Q * Q;
}.

(** [system.position2D?.x || system.position.x] and the same for [y]. *)
Definition posX (s : SolarSystem) : Q :=
  match position2D s with
  | Some p => Js.or_else (fst p) (fst (position s))
  | None => fst (position s)
  end.

Definition posY (s : SolarSystem) : Q :=
  match position2D s with
  | Some p => Js.or_else (snd p) (snd (position s))
  | None => snd (position s)
  end.

Record Bounds : Type := mkBounds { minX : Q; minY : Q; maxX : Q; maxY : Q }.

(** [bounds] (StarMap.tsx 127-147). *)
Definition bounds (systems : list SolarSystem) : Bounds :=
  match systems with
  | [] => {| minX := 0; minY := 0; maxX := 0; maxY := 0 |}
  | _ =>
    let '(mnX, mxX, mnY, mxY) :=
      fold_left (fun '(mnX, mxX, mnY, mxY) system =>
                   (Js.accMin mnX (posX system), Js.accMax mxX (posX system),
                    Js.accMin mnY (posY system), Js.accMax mxY (posY system)))
                systems (None, None, None, None) in
    {| minX := default 0 mnX; minY := default 0 mnY;
       maxX := default 0 mxX; maxY := default 0 mxY |}
  end.

Record CoordinateData : Type := mkCoordinateData {
  cd_bounds : Bounds;
  scale : Q;
  padding : Q;
}.

(** The two divisors of [coordinateData]: [bounds.maxX - bounds.minX || 1]. *)
Definition extentX (b : Bounds) : Q := Js.or_else (maxX b - minX b) 1.
Definition extentY (b : Bounds) : Q := Js.or_else (maxY b - minY b) 1.

(** [coordinateData] (StarMap.tsx 149-160). *)
Definition coordinateData (b : Bounds) (dimensions : Dimensions) : CoordinateData :=
  let padding := 50 in
  let scaleX := (width dimensions - padding * 2) / extentX b in
  let scaleY := (height dimensions - padding * 2) / extentY b in
  let scale := Qmin scaleX scaleY in
  {| cd_bounds := b; scale := scale; padding := padding |}.

(** [toCanvasX], [toCanvasY] (StarMap.tsx 162-172). *)
Definition toCanvasX (cd : CoordinateData) (x : Q) : Q :=
  (x - minX (cd_bounds cd)) * scale cd + padding cd.

Definition toCanvasY (cd : CoordinateData) (dimensions : Dimensions) (y : Q) : Q :=
  height dimensions - ((y - minY (cd_bounds cd)) * scale cd + padding cd).

(** The initial camera (StarMap.tsx 409-434), for a non-empty system list. *)
Definition initialCamera (cd : CoordinateData) (dimensions : Dimensions) : Camera :=
  let b := cd_bounds cd in
  let renderedMinX := padding cd in
  let renderedMaxX := (maxX b - minX b) * scale cd + padding cd in
  let renderedMinY := height dimensions - ((maxY b - minY b) * scale cd + padding cd) in
  let renderedMaxY := height dimensions - padding cd in
  let mapCenterX := (renderedMinX + renderedMaxX) / 2 in
  let mapCenterY := (renderedMinY + renderedMaxY) / 2 in
  let zoom := 2 in
  let screenCenterX := width dimensions / 2 in
  let screenCenterY := height dimensions / 2 in
  {| cam_x := - (mapCenterX - screenCenterX) * zoom;
     cam_y := - (mapCenterY - screenCenterY) * zoom;
     cam_zoom := zoom |}.

(** A search result: a system or a region, with its id. *)
Inductive ResultType : Type := RSystem | RRegion.

(** The component state that the event handlers read and write.
    [camera] is the React state, [cameraRef] the mutable ref. *)
Record State : Type := mkState {
  camera : Camera;
  cameraRef : Camera;
  cameraInitialized : bool;
  isDragging : bool;
  dragStart : Q * Q;
  mouseDownPos : Q * Q;
  pendingZoomDelta : Q;
  lastWheelMouse : Q * Q;
  wheelRafId : bool;
  renderRequested : bool;
  dimensions : Dimensions;
}.

(** The state of a freshly mounted component (StarMap.tsx 16-36). *)
Definition mount (dims : Dimensions) : State :=
  {| camera := {| cam_x := 0; cam_y := 0; cam_zoom := 2 |};
     cameraRef := {| cam_x := 0; cam_y := 0; cam_zoom := 2 |};
     cameraInitialized := false;
     isDragging := false;
     dragStart := (0, 0);
     mouseDownPos := (0, 0);
     pendingZoomDelta := 0;
     lastWheelMouse := (0, 0);
     wheelRafId := false;
     renderRequested := false;
     dimensions := dims |}.

Definition set_camera (st : State) (c : Camera) : State :=
  {| camera := c; cameraRef := cameraRef st;
     cameraInitialized := cameraInitialized st; isDragging := isDragging st;
     dragStart := dragStart st; mouseDownPos := mouseDownPos st;
     pendingZoomDelta := pendingZoomDelta st; lastWheelMouse := lastWheelMouse st;
     wheelRafId := wheelRafId st; renderRequested := renderRequested st;
     dimensions := dimensions st |}.

Definition set_cameraRef (st : State) (c : Camera) : State :=
  {| camera := camera st; cameraRef := c;
     cameraInitialized := cameraInitialized st; isDragging := isDragging st;
     dragStart := dragStart st; mouseDownPos := mouseDownPos st;
     pendingZoomDelta := pendingZoomDelta st; lastWheelMouse := lastWheelMouse st;
     wheelRafId := wheelRafId st; renderRequested := renderRequested st;
     dimensions := dimensions st |}.

(** The camera-initialisation effect (StarMap.tsx 409-434); it also
    runs again whenever the surface size changes. *)
Definition initEffect (systems : list SolarSystem) (dims : Dimensions) (st : State) : State :=
  match systems with
  | [] => {| camera := camera st; cameraRef := cameraRef st;
             cameraInitialized := cameraInitialized st; isDragging := isDragging st;
             dragStart := dragStart st; mouseDownPos := mouseDownPos st;
             pendingZoomDelta := pendingZoomDelta st; lastWheelMouse := lastWheelMouse st;
             wheelRafId := wheelRafId st; renderRequested := renderRequested st;
             dimensions := dims |}
  | _ =>
    let c := initialCamera (coordinateData (bounds systems) dims) dims in
    {| camera := c; cameraRef := c;
       cameraInitialized := true; isDragging := isDragging st;
       dragStart := dragStart st; mouseDownPos := mouseDownPos st;
       pendingZoomDelta := pendingZoomDelta st; lastWheelMouse := lastWheelMouse st;
       wheelRafId := wheelRafId st; renderRequested := renderRequested st;
       dimensions := dims |}
  end.

(** [handleWheelEvent] up to the scheduling of the frame
    (StarMap.tsx 369-376): [deltaYpos] is [e.deltaY > 0]. *)
Definition handleWheelEvent (deltaYpos : bool) (clientX clientY : Q) (st : State) : State :=
  let delta := if deltaYpos then - 0.1 else 0.1 in
  {| camera := camera st; cameraRef := cameraRef st;
     cameraInitialized := cameraInitialized st; isDragging := isDragging st;
     dragStart := dragStart st; mouseDownPos := mouseDownPos st;
     pendingZoomDelta := pendingZoomDelta st + delta;
     lastWheelMouse := (clientX, clientY);
     wheelRafId := true; renderRequested := renderRequested st;
     dimensions := dimensions st |}.

(** The scheduled frame of [handleWheelEvent] (StarMap.tsx 378-402). *)
Definition wheelRaf (canvasRect : Rect) (st : State) : State :=
  if wheelRafId st then
    let mouseX := fst (lastWheelMouse st) - rect_left canvasRect in
    let mouseY := snd (lastWheelMouse st) - rect_top canvasRect in
    let c := Viewport.wheelFrame (dimensions st) (cameraRef st) mouseX mouseY
                                 (pendingZoomDelta st) in
    {| camera := c; cameraRef := c;
       cameraInitialized := cameraInitialized st; isDragging := isDragging st;
       dragStart := dragStart st; mouseDownPos := mouseDownPos st;
       pendingZoomDelta := 0; lastWheelMouse := lastWheelMouse st;
       wheelRafId := false; renderRequested := renderRequested st;
       dimensions := dimensions st |}
  else st.

(** [handleMouseDown] (StarMap.tsx 692-696). *)
Definition handleMouseDown (clientX clientY : Q) (st : State) : State :=
  {| camera := camera st; cameraRef := cameraRef st;
     cameraInitialized := cameraInitialized st; isDragging := true;
     dragStart := (clientX - cam_x (cameraRef st), clientY - cam_y (cameraRef st));
     mouseDownPos := (clientX, clientY);
     pendingZoomDelta := pendingZoomDelta st; lastWheelMouse := lastWheelMouse st;
     wheelRafId := wheelRafId st; renderRequested := renderRequested st;
     dimensions := dimensions st |}.

(** The dragging branch of [handleMouseMove] (StarMap.tsx 698-711); the
    hover branch does not write the state modelled here. *)
Definition handleMouseMove (clientX clientY : Q) (st : State) : State :=
  if isDragging st then
    let c := {| cam_x := clientX - fst (dragStart st);
                cam_y := clientY - snd (dragStart st);
                cam_zoom := cam_zoom (cameraRef st) |} in
    {| camera := camera st; cameraRef := c;
       cameraInitialized := cameraInitialized st; isDragging := isDragging st;
       dragStart := dragStart st; mouseDownPos := mouseDownPos st;
       pendingZoomDelta := pendingZoomDelta st; lastWheelMouse := lastWheelMouse st;
       wheelRafId := wheelRafId st; renderRequested := true;
       dimensions := dimensions st |}
  else st.

(** The frame scheduled by a drag move (StarMap.tsx 705-708). *)
Definition dragRaf (st : State) : State :=
  if renderRequested st then
    {| camera := cameraRef st; cameraRef := cameraRef st;
       cameraInitialized := cameraInitialized st; isDragging := isDragging st;
       dragStart := dragStart st; mouseDownPos := mouseDownPos st;
       pendingZoomDelta := pendingZoomDelta st; lastWheelMouse := lastWheelMouse st;
       wheelRafId := wheelRafId st; renderRequested := false;
       dimensions := dimensions st |}
  else st.

(** The camera part of [handleMouseUp] (StarMap.tsx 793-797, 830). *)
Definition handleMouseUp_camera (st : State) : State :=
  {| camera := if isDragging st then cameraRef st else camera st;
     cameraRef := cameraRef st;
     cameraInitialized := cameraInitialized st; isDragging := false;
     dragStart := dragStart st; mouseDownPos := mouseDownPos st;
     pendingZoomDelta := pendingZoomDelta st; lastWheelMouse := lastWheelMouse st;
     wheelRafId := wheelRafId st; renderRequested := renderRequested st;
     dimensions := dimensions st |}.

(** [handleMouseLeave] (StarMap.tsx 833-836). *)
Definition handleMouseLeave (st : State) : State :=
  {| camera := camera st; cameraRef := cameraRef st;
     cameraInitialized := cameraInitialized st; isDragging := false;
     dragStart := dragStart st; mouseDownPos := mouseDownPos st;
     pendingZoomDelta := pendingZoomDelta st; lastWheelMouse := lastWheelMouse st;
     wheelRafId := wheelRafId st; renderRequested := renderRequested st;
     dimensions := dimensions st |}.

(** [systemMap.get(id)] (StarMap.tsx 117-120): the map is built from the
    array in order, so the last system with a given key is the one kept. *)
Definition systemMap (systems : list SolarSystem) (id : N) : option SolarSystem :=
  List.find (fun s => N.eqb (_key s) id) (rev systems).

(** [sumX / regionSystems.length] of [handleSelectResult]. *)
Definition mean (f : SolarSystem -> Q) (l : list SolarSystem) : Q :=
  fold_left (fun sum system => sum + f system) l 0 / inject_Z (Z.of_nat (length l)).

(** [handleSelectResult] (StarMap.tsx 224-281): only [setCamera] is
    called, the ref keeps its value. *)
Definition handleSelectResult (systems : list SolarSystem)
           (type : ResultType) (id : N) (st : State) : State :=
  let dims := dimensions st in
  let cd := coordinateData (bounds systems) dims in
  let center (x y zoom : Q) : Camera :=
    let canvasX := toCanvasX cd x in
    let canvasY := toCanvasY cd dims y in
    let screenCenterX := width dims / 2 in
    let screenCenterY := height dims / 2 in
    {| cam_x := - (canvasX - screenCenterX) * zoom;
       cam_y := - (canvasY - screenCenterY) * zoom;
       cam_zoom := zoom |} in
  match type with
  | RSystem =>
    match systemMap systems id with
    | Some system => set_camera st (center (posX system) (posY system) 8)
    | None => st
    end
  | RRegion =>
    let regionSystems := List.filter (fun s => N.eqb (regionID s) id) systems in
    match regionSystems with
    | [] => st
    | _ => set_camera st (center (mean posX regionSystems) (mean posY regionSystems) 4)
    end
  end.

(** The input events of the map view that touch the camera. *)
Inductive Event : Type :=
| EInit (dims : Dimensions)
| EWheel (deltaYpos : bool) (clientX clientY : Q)
| EWheelFrame (canvasRect : Rect)
| EMouseDown (clientX clientY : Q)
| EMouseMove (clientX clientY : Q)
| EDragFrame
| EMouseUp
| EMouseLeave
| ESelect (type : ResultType) (id : N).

Definition step (systems : list SolarSystem) (st : State) (e : Event) : State :=
  match e with
  | EInit dims => initEffect systems dims st
  | EWheel d cx cy => handleWheelEvent d cx cy st
  | EWheelFrame r => wheelRaf r st
  | EMouseDown cx cy => handleMouseDown cx cy st
  | EMouseMove cx cy => handleMouseMove cx cy st
  | EDragFrame => dragRaf st
  | EMouseUp => handleMouseUp_camera st
  | EMouseLeave => handleMouseLeave st
  | ESelect t id => handleSelectResult systems t id st
  end.

Definition run (systems : list SolarSystem) (st : State) (es : list Event) : State :=
  fold_left (step systems) es st.

(** The events of a drag in progress: pointer moves and the frames they
    schedule. *)
Definition dragEvent (e : Event) : bool :=
  match e with
  | EMouseMove _ _ | EDragFrame => true
  | _ => false
  end.

(** The wheel ticks [(e.deltaY > 0, e.clientX, e.clientY)] as events. *)
Definition wheelEvents (ticks : list (bool * Q * Q)) : list Event :=
  List.map (fun tick : bool * Q * Q =>
              let '(deltaYpos, clientX, clientY) := tick in
              EWheel deltaYpos clientX clientY) ticks.

(** [pendingZoomDelta] after the ticks, starting from [pending]. *)
Definition accumulated (pending : Q) (ticks : list (bool * Q * Q)) : Q :=
  fold_left (fun (pending : Q) (tick : bool * Q * Q) =>
               let '(deltaYpos, _, _) := tick in
               pending + (if deltaYpos then - 0.1 else 0.1)) ticks pending.

(** *** Spatial queries of the map view *)

(** The scan of the hover branch of [handleMouseMove]
    (StarMap.tsx 720-749): the system nearest to the cursor among those
    closer than [hoverRadius]. *)
Definition hoverQuery (systems : list SolarSystem) (cd : CoordinateData)
           (dims : Dimensions) (cam : Camera) (mouseX mouseY : Q) : option SolarSystem :=
  let worldX := Viewport.worldX dims cam mouseX in
  let worldY := Viewport.worldY dims cam mouseY in
  let hoverRadius := 10 / cam_zoom cam in
  snd (fold_left
         (fun '(nearestDistance, nearestSystemData) system =>
            let systemX := toCanvasX cd (posX system) in
            let systemY := toCanvasY cd dims (posY system) in
            let distance := Js.dist2 worldX worldY systemX systemY in
            if Js.sqrt_lt distance nearestDistance
            then (Js.Sqrt distance, Some system)
            else (nearestDistance, nearestSystemData))
         systems (Js.Num hoverRadius, None)).

(** The scan of [handleMouseUp] (StarMap.tsx 809-827): the loop pushes
    the route of the first system, in array order, that is closer than
    [clickRadius], and breaks. *)
Definition clickQuery (systems : list SolarSystem) (cd : CoordinateData)
           (dims : Dimensions) (cam : Camera) (mouseX mouseY : Q) : option SolarSystem :=
  let worldX := Viewport.worldX dims cam mouseX in
  let worldY := Viewport.worldY dims cam mouseY in
  let clickRadius := 10 / cam_zoom cam in
  List.find
    (fun system =>
       let systemX := toCanvasX cd (posX system) in
       let systemY := toCanvasY cd dims (posY system) in
       let distance := Js.dist2 worldX worldY systemX systemY in
       Js.sqrt_lt distance (Js.Num clickRadius))
    systems.

(** The navigation part of [handleMouseUp] (StarMap.tsx 799-828): the
    key handed to [router.push], if any. *)
Definition handleMouseUp (systems : list SolarSystem) (canvasRect : Rect)
           (st : State) (clientX clientY : Q) : option N :=
  let distance := Js.dist2 clientX clientY (fst (mouseDownPos st)) (snd (mouseDownPos st)) in
  if Js.sqrt_lt distance (Js.Num 5) then
    let mouseX := clientX - rect_left canvasRect in
    let mouseY := clientY - rect_top canvasRect in
    let cd := coordinateData (bounds systems) (dimensions st) in
    _key <$> clickQuery systems cd (dimensions st) (cameraRef st) mouseX mouseY
  else None.

(** *** Alliance labels: grouping and proximity clustering *)

(** An entry of the alliance overlay, as the client receives it. *)
Record AllianceInfo : Type := mkAllianceInfo {
  info_alliance_id : N;
  info_alliance_name : string;
}.

(** A member of an alliance group: its canvas position. *)
Record Point : Type := mkPoint { pt_x : Q; pt_y : Q }.

(** [if (!allianceInfo) continue] and the truthiness of an overlay
    entry: an object is always truthy. *)
Definition allianceInfoOf (allianceData : gmap N AllianceInfo) (system : SolarSystem)
  : option AllianceInfo := allianceData !! _key system.

(** [allianceSystems.get(id)!.push(p)] on the insertion-ordered [Map]. *)
Fixpoint pushMember (id : N) (p : Point) (groups : list (N * list Point))
  : option (list (N * list Point)) :=
  match groups with
  | [] => None
  | (k, members) :: rest =>
    if N.eqb k id then Some ((k, members ++ [p]) :: rest)
    else (fun rest' => (k, members) :: rest') <$> pushMember id p rest
  end.

(** The grouping loop (StarMap.tsx 541-558). *)
Definition allianceSystems (systems : list SolarSystem) (cd : CoordinateData)
           (dims : Dimensions) (allianceData : gmap N AllianceInfo)
  : list (N * list Point) :=
  fold_left
    (fun groups system =>
       match allianceInfoOf allianceData system with
       | None => groups
       | Some allianceInfo =>
         let p := {| pt_x := toCanvasX cd (posX system);
                     pt_y := toCanvasY cd dims (posY system) |} in
         match pushMember (info_alliance_id allianceInfo) p groups with
         | Some groups' => groups'
         | None => groups ++ [(info_alliance_id allianceInfo, [p])]
         end
       end)
    systems [].

Definition proximityThreshold : Q := 150.

(** The test of one cluster member against [systems[j]] (StarMap.tsx 577-580). *)
Definition closeTo (a b : Point) : bool :=
  Js.sqrt_lt (Js.dist2 (pt_x a) (pt_y a) (pt_x b) (pt_y b)) (Js.Num proximityThreshold).

(** [cluster.some(...)]: the cluster holds references to elements of
    [systems], kept here as their indices. *)
Definition isNearby (systems : list Point) (cluster : list nat) (j : nat) : bool :=
  existsb (fun c => match systems !! c, systems !! j with
                    | Some clusterSystem, Some sj => closeTo clusterSystem sj
                    | _, _ => false
                    end) cluster.

(** The number of indices not yet visited; it decreases at every absorption. *)
Definition pending (n : nat) (visited : gset nat) : nat :=
  size (list_to_set (seq 0 n) ∖ visited : gset nat).

(** The inner loop [for (let j = i + 1; j < systems.length; j++)]
    (StarMap.tsx 573-588), from the current value of [j]: an absorption
    sets [j = i], so that the scan resumes at [i + 1]. *)
Equations? absorb (systems : list Point) (i : nat) (cluster : list nat)
          (visited : gset nat) (j : nat) : list nat * gset nat
  by wf (pending (length systems) visited * S (length systems)
         + (length systems - j))%nat lt :=
absorb systems i cluster visited j with lt_dec j (length systems) := {
  | right _ => (cluster, visited)
  | left Hj with decide (j ∈ visited) := {
    | left _ => absorb systems i cluster visited (S j)
    | right Hv with isNearby systems cluster j := {
      | true => absorb systems i (cluster ++ [j]) (visited ∪ {[j]}) (S i)
      | false => absorb systems i cluster visited (S j) } } }.
Proof.
  - lia.
  - assert (pending (length systems) (visited ∪ {[j]})
            < pending (length systems) visited)%nat; [|nia].
    unfold pending. apply subset_size, strict_spec_alt. split.
    + intros k. rewrite !elem_of_difference, elem_of_union. tauto.
    + intros Heq.
      assert (Hin : j ∈ (list_to_set (seq 0 (length systems)) ∖ visited : gset nat)).
      { apply elem_of_difference. split; [|done].
        apply elem_of_list_to_set, elem_of_seq. lia. }
      rewrite <- Heq in Hin. apply elem_of_difference in Hin as [_ Hin].
      apply Hin, elem_of_union_r, elem_of_singleton. reflexivity.
  - lia.
Qed.

(** One turn of the outer loop [for (let i = 0; ...)] (StarMap.tsx 567-591). *)
Definition clusterFrom (systems : list Point)
           (acc : list (list nat) * gset nat) (i : nat) : list (list nat) * gset nat :=
  let '(clusters, visited) := acc in
  if decide (i ∈ visited) then (clusters, visited)
  else
    let '(cluster, visited') := absorb systems i [i] (visited ∪ {[i]}) (S i) in
    (clusters ++ [cluster], visited').

(** The clusters of one alliance, as lists of indices into [systems]. *)
Definition proximityClusters (systems : list Point) : list (list nat) :=
  fst (fold_left (clusterFrom systems) (seq 0 (length systems)) ([], ∅)).




(** *** Region labels *)





(** Marker colour in alliance mode (StarMap.tsx 488-495, 108-115); the
    hue is [(allianceId * 137.508) % 360]. *)
Inductive Color : Type :=
| Neutral                    (* 'hsl(0, 0%, 30%)' *)
| AllianceHue (allianceId : N).

Definition getAllianceColor (allianceId : N) : Color :=
  if N.eqb allianceId 0 then Neutral else AllianceHue allianceId.

Definition allianceModeColor (allianceData : option (gmap N AllianceInfo))
           (system : SolarSystem) : Color :=
  match allianceData with
  | Some data =>
    match allianceInfoOf data system with
    | Some allianceInfo => getAllianceColor (info_alliance_id allianceInfo)
    | None => Neutral
    end
  | None => Neutral
  end.

End MapView.

(** ** The local view ([SystemDetail]) *)
Module SystemView.

(** A celestial position; the view projects [x] and [z]. *)
Record Position : Type := mkPosition { pos_x : Q; pos_y : Q; pos_z : Q }.

Record Star : Type := mkStar {
  star_position : option Position;
  star_radius : option Q;
  star_typeID : option N;
}.

(** A planet, moon, stargate or station: the fields the view reads. *)
Record Body : Type := mkBody {
  body_position : option Position;
  body_typeID : option N;
}.

Record SystemData : Type := mkSystemData {
  star : option Star;
  planets : list Body;
  moons : list Body;
  stargates : list Body;
  stations : list Body;
}.

Record ObjectBounds : Type := mkObjectBounds { minA : Q; minB : Q; maxA : Q; maxB : Q }.

(** [processPosition] (StarMap.tsx 1174-1180) on the four running extrema. *)
Definition processPosition (acc : option Q * option Q * option Q * option Q)
           (pos : option Position) : option Q * option Q * option Q * option Q :=
  match pos with
  | None => acc
  | Some p =>
    let '(mnA, mxA, mnB, mxB) := acc in
    (Js.accMin mnA (pos_x p), Js.accMax mxA (pos_x p),
     Js.accMin mnB (pos_z p), Js.accMax mxB (pos_z p))
  end.

Definition origin : Position := {| pos_x := 0; pos_y := 0; pos_z := 0 |}.

(** [objectBounds] (StarMap.tsx 1164-1191). *)
Definition objectBounds (systemData : option SystemData) : ObjectBounds :=
  let zero := {| minA := 0; minB := 0; maxA := 0; maxB := 0 |} in
  match systemData with
  | None => zero
  | Some d =>
    let acc0 := (None, None, None, None) in
    let acc1 := match star d with
                | Some st => processPosition acc0 (Some (default origin (star_position st)))
                | None => acc0
                end in
    let acc2 := fold_left (fun acc p => processPosition acc (body_position p)) (planets d) acc1 in
    let acc3 := fold_left (fun acc m => processPosition acc (body_position m)) (moons d) acc2 in
    let acc4 := fold_left (fun acc g => processPosition acc (body_position g)) (stargates d) acc3 in
    let acc5 := fold_left (fun acc s => processPosition acc (body_position s)) (stations d) acc4 in
    match acc5 with
    | (Some mnA, Some mxA, Some mnB, Some mxB) =>
      {| minA := mnA; minB := mnB; maxA := mxA; maxB := mxB |}
    | _ => zero
    end
  end.

Record CoordinateData : Type := mkCoordinateData {
  cd_bounds : ObjectBounds;
  scale : Q;
  padding : Q;
}.

Definition extentA (b : ObjectBounds) : Q := Js.or_else (maxA b - minA b) 1.
Definition extentB (b : ObjectBounds) : Q := Js.or_else (maxB b - minB b) 1.

(** [coordinateData] (StarMap.tsx 1193-1204). *)
Definition coordinateData (b : ObjectBounds) (dimensions : Dimensions) : CoordinateData :=
  let padding := 100 in
  let scaleA := (width dimensions - padding * 2) / extentA b in
  let scaleB := (height dimensions - padding * 2) / extentB b in
  let scale := Qmin scaleA scaleB in
  {| cd_bounds := b; scale := scale; padding := padding |}.

(** [toCanvasCoords] (StarMap.tsx 1293-1298); the canvas height is the
    surface height. *)
Definition toCanvasCoords (cd : CoordinateData) (dimensions : Dimensions)
           (pos : Position) : Q * Q :=
  ((pos_x pos - minA (cd_bounds cd)) * scale cd + padding cd,
   height dimensions - ((pos_z pos - minB (cd_bounds cd)) * scale cd + padding cd)).

(** The initial camera (StarMap.tsx 1206-1226). *)
Definition initialCamera (cd : CoordinateData) (dimensions : Dimensions) : Camera :=
  let starCanvasX := (0 - minA (cd_bounds cd)) * scale cd + padding cd in
  let starCanvasY := height dimensions - ((0 - minB (cd_bounds cd)) * scale cd + padding cd) in
  let zoom := 1 in
  let screenCenterX := width dimensions / 2 in
  let screenCenterY := height dimensions / 2 in
  {| cam_x := - (starCanvasX - screenCenterX) * zoom;
     cam_y := - (starCanvasY - screenCenterY) * zoom;
     cam_zoom := zoom |}.

(** *** Camera events of the local view *)

Record State : Type := mkState {
  camera : Camera;
  cameraRef : Camera;
  cameraInitialized : bool;
  isDragging : bool;
  dragStart : Q * Q;
  mouseDownPos : Q * Q;
  pendingZoomDelta : Q;
  lastWheelMouse : Q * Q;
  wheelRafId : bool;
  renderRequested : bool;
  dimensions : Dimensions;
}.

(** StarMap.tsx 1037-1055. *)
Definition mount (dims : Dimensions) : State :=
  {| camera := {| cam_x := 0; cam_y := 0; cam_zoom := 1 |};
     cameraRef := {| cam_x := 0; cam_y := 0; cam_zoom := 1 |};
     cameraInitialized := false;
     isDragging := false;
     dragStart := (0, 0);
     mouseDownPos := (0, 0);
     pendingZoomDelta := 0;
     lastWheelMouse := (0, 0);
     wheelRafId := false;
     renderRequested := false;
     dimensions := dims |}.

Inductive Event : Type :=
| EInit (systemData : option SystemData) (dims : Dimensions)
| EWheel (deltaYpos : bool) (clientX clientY : Q)
| EWheelFrame (canvasRect : Rect)
| EMouseDown (clientX clientY : Q)
| EMouseMove (clientX clientY : Q)
| EDragFrame
| EMouseUp
| EMouseLeave.

(** The camera-initialisation effect (StarMap.tsx 1206-1226). *)
Definition initEffect (systemData : option SystemData) (dims : Dimensions)
           (st : State) : State :=
  match systemData with
  | None =>
    {| camera := camera st; cameraRef := cameraRef st;
       cameraInitialized := cameraInitialized st; isDragging := isDragging st;
       dragStart := dragStart st; mouseDownPos := mouseDownPos st;
       pendingZoomDelta := pendingZoomDelta st; lastWheelMouse := lastWheelMouse st;
       wheelRafId := wheelRafId st; renderRequested := renderRequested st;
       dimensions := dims |}
  | Some _ =>
    let c := initialCamera (coordinateData (objectBounds systemData) dims) dims in
    {| camera := c; cameraRef := c;
       cameraInitialized := true; isDragging := isDragging st;
       dragStart := dragStart st; mouseDownPos := mouseDownPos st;
       pendingZoomDelta := pendingZoomDelta st; lastWheelMouse := lastWheelMouse st;
       wheelRafId := wheelRafId st; renderRequested := renderRequested st;
       dimensions := dims |}
  end.

(** [handleWheelEvent] up to the scheduling of the frame (StarMap.tsx 1236-1242). *)
Definition handleWheelEvent (deltaYpos : bool) (clientX clientY : Q) (st : State) : State :=
  {| camera := camera st; cameraRef := cameraRef st;
     cameraInitialized := cameraInitialized st; isDragging := isDragging st;
     dragStart := dragStart st; mouseDownPos := mouseDownPos st;
     pendingZoomDelta := pendingZoomDelta st + (if deltaYpos then - 0.1 else 0.1);
     lastWheelMouse := (clientX, clientY);
     wheelRafId := true; renderRequested := renderRequested st;
     dimensions := dimensions st |}.

(** The scheduled frame of [handleWheelEvent] (StarMap.tsx 1244-1268). *)
Definition wheelRaf (canvasRect : Rect) (st : State) : State :=
  if wheelRafId st then
    let mouseX := fst (lastWheelMouse st) - rect_left canvasRect in
    let mouseY := snd (lastWheelMouse st) - rect_top canvasRect in
    let c := Viewport.wheelFrame (dimensions st) (cameraRef st) mouseX mouseY
                                 (pendingZoomDelta st) in
    {| camera := c; cameraRef := c;
       cameraInitialized := cameraInitialized st; isDragging := isDragging st;
       dragStart := dragStart st; mouseDownPos := mouseDownPos st;
       pendingZoomDelta := 0; lastWheelMouse := lastWheelMouse st;
       wheelRafId := false; renderRequested := renderRequested st;
       dimensions := dimensions st |}
  else st.

(** [handleMouseDown] (StarMap.tsx 1705-1709). *)
Definition handleMouseDown (clientX clientY : Q) (st : State) : State :=
  {| camera := camera st; cameraRef := cameraRef st;
     cameraInitialized := cameraInitialized st; isDragging := true;
     dragStart := (clientX - cam_x (cameraRef st), clientY - cam_y (cameraRef st));
     mouseDownPos := (clientX, clientY);
     pendingZoomDelta := pendingZoomDelta st; lastWheelMouse := lastWheelMouse st;
     wheelRafId := wheelRafId st; renderRequested := renderRequested st;
     dimensions := dimensions st |}.

(** The dragging branch of [handleMouseMove] (StarMap.tsx 1711-1724). *)
Definition handleMouseMove (clientX clientY : Q) (st : State) : State :=
  if isDragging st then
    {| camera := camera st;
       cameraRef := {| cam_x := clientX - fst (dragStart st);
                       cam_y := clientY - snd (dragStart st);
                       cam_zoom := cam_zoom (cameraRef st) |};
       cameraInitialized := cameraInitialized st; isDragging := isDragging st;
       dragStart := dragStart st; mouseDownPos := mouseDownPos st;
       pendingZoomDelta := pendingZoomDelta st; lastWheelMouse := lastWheelMouse st;
       wheelRafId := wheelRafId st; renderRequested := true;
       dimensions := dimensions st |}
  else st.

(** The frame scheduled by a drag move (StarMap.tsx 1718-1721). *)
Definition dragRaf (st : State) : State :=
  if renderRequested st then
    {| camera := cameraRef st; cameraRef := cameraRef st;
       cameraInitialized := cameraInitialized st; isDragging := isDragging st;
       dragStart := dragStart st; mouseDownPos := mouseDownPos st;
       pendingZoomDelta := pendingZoomDelta st; lastWheelMouse := lastWheelMouse st;
       wheelRafId := wheelRafId st; renderRequested := false;
       dimensions := dimensions st |}
  else st.

(** The camera part of [handleMouseUp] (StarMap.tsx 1776-1780). *)
Definition handleMouseUp_camera (st : State) : State :=
  {| camera := if isDragging st then cameraRef st else camera st;
     cameraRef := cameraRef st;
     cameraInitialized := cameraInitialized st; isDragging := false;
     dragStart := dragStart st; mouseDownPos := mouseDownPos st;
     pendingZoomDelta := pendingZoomDelta st; lastWheelMouse := lastWheelMouse st;
     wheelRafId := wheelRafId st; renderRequested := renderRequested st;
     dimensions := dimensions st |}.

(** [handleMouseLeave] (StarMap.tsx 1808-1811). *)
Definition handleMouseLeave (st : State) : State :=
  {| camera := camera st; cameraRef := cameraRef st;
     cameraInitialized := cameraInitialized st; isDragging := false;
     dragStart := dragStart st; mouseDownPos := mouseDownPos st;
     pendingZoomDelta := pendingZoomDelta st; lastWheelMouse := lastWheelMouse st;
     wheelRafId := wheelRafId st; renderRequested := renderRequested st;
     dimensions := dimensions st |}.

Definition step (st : State) (e : Event) : State :=
  match e with
  | EInit systemData dims => initEffect systemData dims st
  | EWheel deltaYpos clientX clientY => handleWheelEvent deltaYpos clientX clientY st
  | EWheelFrame canvasRect => wheelRaf canvasRect st
  | EMouseDown clientX clientY => handleMouseDown clientX clientY st
  | EMouseMove clientX clientY => handleMouseMove clientX clientY st
  | EDragFrame => dragRaf st
  | EMouseUp => handleMouseUp_camera st
  | EMouseLeave => handleMouseLeave st
  end.

Definition run (st : State) (es : list Event) : State := fold_left step es st.

(** The events of a drag in progress: pointer moves and the frames they
    schedule. *)
Definition dragEvent (e : Event) : bool :=
  match e with
  | EMouseMove _ _ | EDragFrame => true
  | _ => false
  end.

(** The wheel ticks [(e.deltaY > 0, e.clientX, e.clientY)] as events. *)
Definition wheelEvents (ticks : list (bool * Q * Q)) : list Event :=
  List.map (fun tick : bool * Q * Q =>
              let '(deltaYpos, clientX, clientY) := tick in
              EWheel deltaYpos clientX clientY) ticks.

(** [pendingZoomDelta] after the ticks, starting from [pending]. *)
Definition accumulated (pending : Q) (ticks : list (bool * Q * Q)) : Q :=
  fold_left (fun (pending : Q) (tick : bool * Q * Q) =>
               let '(deltaYpos, _, _) := tick in
               pending + (if deltaYpos then - 0.1 else 0.1)) ticks pending.

(** *** Markers and the collision-avoidance relaxation *)

Inductive Kind : Type := KStar | KPlanet | KStargate | KStation.

#[global] Instance Kind_eq_dec : EqDecision Kind.
Proof. solve_decision. Defined.

#[global] Instance Kind_countable : Countable Kind.
Proof.
  refine (inj_countable' (fun k => match k with
                                   | KStar => 0 | KPlanet => 1
                                   | KStargate => 2 | KStation => 3
                                   end%nat)
                         (fun n => match n with
                                   | 0 => KStar | 1 => KPlanet
                                   | 2 => KStargate | _ => KStation
                                   end%nat) _).
  intros []; reflexivity.
Defined.

(** A reference to a data object ([dataRef], the key of
    [adjustedPositions]): the array it lives in and its index there. *)
Definition Ref : Type := Kind * nat.

(** An element of [objectsToRender] (StarMap.tsx 1336-1345). *)
Record Marker : Type := mkMarker {
  m_x : Q;
  m_y : Q;
  m_type : Kind;
  m_radius : Q;
  m_typeID : option N;
  dataRef : Ref;
}.

(** Truthiness of an optional number. *)
Definition truthyQ (o : option Q) : bool :=
  match o with Some q => negb (Qeq_bool q 0) | None => false end.


(** [metersToSolarRadii]. *)
Definition metersToSolarRadii (meters : Q) : Q := meters / 696000000.

(** The star's drawn radius (StarMap.tsx 1355-1359). *)
Definition starRadius (st : Star) : Q :=
  if truthyQ (star_radius st) then
    let solarRadii := metersToSolarRadii (default 0 (star_radius st)) in
    Qmax 8 (Qmin 20 (8 + solarRadii * 4))
  else 12.

Definition bodyMarkers (cd : CoordinateData) (dims : Dimensions) (kind : Kind)
           (radius : Q) (withType : bool) (bodies : list Body) : list Marker :=
  omap (fun '(index, body) =>
          match body_position body with
          | Some pos =>
            let coords := toCanvasCoords cd dims pos in
            Some {| m_x := fst coords; m_y := snd coords; m_type := kind;
                    m_radius := radius;
                    m_typeID := if withType then body_typeID body else None;
                    dataRef := (kind, index) |}
          | None => None
          end)
       (imap (fun index body => (index, body)) bodies).

(** [objectsToRender] as filled by StarMap.tsx 1347-1420. *)
Definition objectsToRender (cd : CoordinateData) (dims : Dimensions)
           (d : SystemData) : list Marker :=
  match star d with
  | Some st =>
    let coords := toCanvasCoords cd dims (default origin (star_position st)) in
    [{| m_x := fst coords; m_y := snd coords; m_type := KStar;
        m_radius := starRadius st; m_typeID := star_typeID st;
        dataRef := (KStar, 0%nat) |}]
  | None => []
  end
  ++ bodyMarkers cd dims KPlanet 6 true (planets d)
  ++ bodyMarkers cd dims KStargate 5 false (stargates d)
  ++ bodyMarkers cd dims KStation 4 false (stations d).

Definition minSeparation : Q := 15.
Definition maxIterations : nat := 5.
Definition cellSize : Q := minSeparation * 2.

(** [Math.floor(v / cellSize)]. *)
Definition cell (v : Q) : Z := Qfloor (v / cellSize).

(** The template string [`${cellX},${cellY}`]. *)
Definition cellKey (cellX cellY : Z) : string :=
  pretty cellX +:+ "," +:+ pretty cellY.

Definition getCellKey (x y : Q) : string := cellKey (cell x) (cell y).

(** [i < j ? `${i},${j}` : `${j},${i}`]. *)
Definition pairKey (i j : nat) : string :=
  if (i <? j)%nat then pretty i +:+ "," +:+ pretty j
  else pretty j +:+ "," +:+ pretty i.

(** The hash grid of one iteration (StarMap.tsx 1430-1444); a cell
    lists the indices of its markers in insertion order. *)
Definition buildGrid (objs : list Marker) : gmap string (list nat) :=
  fold_left (fun grid '(index, obj) =>
               let key := getCellKey (m_x obj) (m_y obj) in
               <[key := default [] (grid !! key) ++ [index]]> grid)
            (imap (fun index obj => (index, obj)) objs) ∅.

Record RelaxState : Type := mkRelaxState {
  objs : list Marker;
  checkedPairs : gset string;
  hadCollision : bool;
}.

Definition moveTo (m : Marker) (x y : Q) : Marker :=
  {| m_x := x; m_y := y; m_type := m_type m; m_radius := m_radius m;
     m_typeID := m_typeID m; dataRef := dataRef m |}.

Section Relaxation.

(** [pushVector dx dy] stands for the pair
    [(Math.cos(angle) * pushStrength, Math.sin(angle) * pushStrength)]
    of StarMap.tsx 1473-1479, with [angle = Math.atan2(dy, dx)] and
    [pushStrength = (minSeparation - Math.sqrt(dx*dx + dy*dy)) / 2].
    It involves a square root, so it is not a rational function; the
    relaxation is studied for every such function. *)
Variable pushVector : Q -> Q -> Q * Q.

(** The body of the innermost loop (StarMap.tsx 1458-1481) for
    [obj1 = objectsToRender[i]] and the neighbour of index [j]. *)
Definition checkPair (i j : nat) (st : RelaxState) : RelaxState :=
  if (i =? j)%nat then st
  else
    let key := pairKey i j in
    if decide (key ∈ checkedPairs st) then st
    else
      let checked := checkedPairs st ∪ {[key]} in
      match objs st !! i, objs st !! j with
      | Some obj1, Some obj2 =>
        let dx := m_x obj2 - m_x obj1 in
        let dy := m_y obj2 - m_y obj1 in
        let distance := dx * dx + dy * dy in
        if Js.sqrt_lt distance (Js.Num minSeparation) && Js.sqrt_pos distance then
          let v := pushVector dx dy in
          let obj1' := moveTo obj1 (m_x obj1 - fst v) (m_y obj1 - snd v) in
          let obj2' := moveTo obj2 (m_x obj2 + fst v) (m_y obj2 + snd v) in
          {| objs := <[j := obj2']> (<[i := obj1']> (objs st));
             checkedPairs := checked;
             hadCollision := true |}
        else
          {| objs := objs st; checkedPairs := checked;
             hadCollision := hadCollision st |}
      | _, _ =>
        {| objs := objs st; checkedPairs := checked;
           hadCollision := hadCollision st |}
      end.

(** The neighbours of one cell (StarMap.tsx 1454-1482). *)
Definition visitCell (grid : gmap string (list nat)) (i : nat)
           (neighborKey : string) (st : RelaxState) : RelaxState :=
  match grid !! neighborKey with
  | None => st
  | Some neighbors => fold_left (fun st j => checkPair i j st) neighbors st
  end.

(** The 3 x 3 neighbourhood, in the order of the two [for] loops. *)
Definition offsets : list (Z * Z) :=
  dx ← [-1; 0; 1]%Z; dy ← [-1; 0; 1]%Z; [(dx, dy)].

(** The callback of the second [forEach] (StarMap.tsx 1448-1484). *)
Definition visitObject (grid : gmap string (list nat))
           (st : RelaxState) (i : nat) : RelaxState :=
  match objs st !! i with
  | Some obj1 =>
    let cellX := cell (m_x obj1) in
    let cellY := cell (m_y obj1) in
    fold_left (fun st '(dx, dy) =>
                 visitCell grid i (cellKey (cellX + dx) (cellY + dy)) st)
              offsets st
  | None => st
  end.

(** One iteration of the relaxation: the new positions and [hadCollision]. *)
Definition iteration (objs0 : list Marker) : list Marker * bool :=
  let grid := buildGrid objs0 in
  let st := fold_left (visitObject grid) (seq 0 (length objs0))
                      {| objs := objs0; checkedPairs := ∅; hadCollision := false |} in
  (objs st, hadCollision st).

(** The loop [for (iteration = 0; iteration < maxIterations; iteration++)]
    with its [break] (StarMap.tsx 1426-1487), for a remaining budget:
    the final positions and the number of iterations executed. *)
Fixpoint relax (budget : nat) (objs0 : list Marker) : list Marker * nat :=
  match budget with
  | O => (objs0, 0%nat)
  | S budget' =>
    let '(objs1, had) := iteration objs0 in
    if had then
      let '(objs2, n) := relax budget' objs1 in (objs2, S n)
    else (objs1, 1%nat)
  end.

Definition relaxation (objs0 : list Marker) : list Marker * nat :=
  relax maxIterations objs0.

End Relaxation.

(** The squared distance [dx * dx + dy * dy] between two markers. *)
Definition distance2 (obj1 obj2 : Marker) : Q :=
  let dx := m_x obj2 - m_x obj1 in
  let dy := m_y obj2 - m_y obj1 in
  dx * dx + dy * dy.

(** The collision test [distance < minSeparation && distance > 0]
    (StarMap.tsx 1470). *)
Definition collide (obj1 obj2 : Marker) : bool :=
  Js.sqrt_lt (distance2 obj1 obj2) (Js.Num minSeparation)
  && Js.sqrt_pos (distance2 obj1 obj2).

(** No two distinct markers of [objs] collide. *)
Definition settled (objs : list Marker) : Prop :=
  forall i j obj1 obj2,
    i <> j -> objs !! i = Some obj1 -> objs !! j = Some obj2 ->
    collide obj1 obj2 = false.

(** A state of an iteration that has seen no collision so far: the
    markers are where the iteration found them and every pair checked
    so far passed the test. *)
Record Quiet (objs0 : list Marker) (st : RelaxState) : Prop := {
  quiet_flag : hadCollision st = false;
  quiet_objs : objs st = objs0;
  quiet_checked : forall a b obj1 obj2,
      a <> b -> pairKey a b ∈ checkedPairs st ->
      objs0 !! a = Some obj1 -> objs0 !! b = Some obj2 ->
      collide obj1 obj2 = false;
}.

(** [j] is listed in one of the nine cells around marker [i]. *)
Definition neighbour (grid : gmap string (list nat)) (objs0 : list Marker)
           (i j : nat) : Prop :=
  exists obj1 off neighbors,
    objs0 !! i = Some obj1 /\ off ∈ offsets
    /\ grid !! cellKey (cell (m_x obj1) + fst off) (cell (m_y obj1) + snd off)
       = Some neighbors
    /\ j ∈ neighbors.

(** An entry of [adjustedPositions]. *)
Record Adjusted : Type := mkAdjusted { adj_x : Q; adj_y : Q; adj_radius : Q }.

(** The cache as written after the relaxation (StarMap.tsx 1334, 1489-1495). *)
Definition writeAdjusted (objs : list Marker) : gmap Ref Adjusted :=
  fold_left (fun cache obj =>
               <[dataRef obj := {| adj_x := m_x obj; adj_y := m_y obj;
                                   adj_radius := m_radius obj |}]> cache)
            objs ∅.

(** *** Hit testing in the local view *)

(** The result of [findObjectAtPosition]: the object found and its
    distance, which is the square root of [found_distance2]. *)
Record Found : Type := mkFound { found_ref : Ref; found_distance2 : Q }.

(** [actualSize + detectionBuffer] (StarMap.tsx 1635-1636 and the three copies). *)
Definition detectionRadius (adjusted : Adjusted) (cam : Camera) (detectionBuffer : Q) : Q :=
  let actualSize := adj_radius adjusted / cam_zoom cam in
  actualSize + detectionBuffer.

(** The test made for one object (StarMap.tsx 1633-1646 and the three copies). *)
Definition consider (adjustedPositions : gmap Ref Adjusted) (cam : Camera)
           (worldX worldY detectionBuffer : Q)
           (acc : Js.Bound * option Found) (ref : Ref) : Js.Bound * option Found :=
  match adjustedPositions !! ref with
  | Some adjusted =>
    let distance := Js.dist2 worldX worldY (adj_x adjusted) (adj_y adjusted) in
    if Js.sqrt_lt distance (Js.Num (detectionRadius adjusted cam detectionBuffer))
       && Js.sqrt_lt distance (fst acc)
    then (Js.Sqrt distance, Some {| found_ref := ref; found_distance2 := distance |})
    else acc
  | None => acc
  end.

Definition refsOf (kind : Kind) (bodies : list Body) : list Ref :=
  imap (fun index _ => (kind, index)) bodies.

(** [findObjectAtPosition] (StarMap.tsx 1603-1703). *)
Definition findObjectAtPosition (systemData : option SystemData)
           (adjustedPositions : gmap Ref Adjusted) (dims : Dimensions) (cam : Camera)
           (mouseX mouseY detectionBuffer : Q) : option Found :=
  match systemData with
  | None => None
  | Some d =>
    let worldX := Viewport.worldX dims cam mouseX in
    let worldY := Viewport.worldY dims cam mouseY in
    let test := consider adjustedPositions cam worldX worldY detectionBuffer in
    let acc0 := (Js.Infinity, None) in
    let acc1 := match star d with Some _ => test acc0 (KStar, 0%nat) | None => acc0 end in
    let acc2 := fold_left test (refsOf KPlanet (planets d)) acc1 in
    let acc3 := fold_left test (refsOf KStargate (stargates d)) acc2 in
    let acc4 := fold_left test (refsOf KStation (stations d)) acc3 in
    snd acc4
  end.

(** The buffers passed by [handleMouseMove] and [handleMouseUp]
    (StarMap.tsx 1733, 1792). *)
Definition hoverBuffer : Q := 3.
Definition clickBuffer : Q := 5.

Definition hoverQuery systemData adjustedPositions dims cam (mouseX mouseY : Q) :=
  findObjectAtPosition systemData adjustedPositions dims cam mouseX mouseY hoverBuffer.

Definition clickQuery systemData adjustedPositions dims cam (mouseX mouseY : Q) :=
  findObjectAtPosition systemData adjustedPositions dims cam mouseX mouseY clickBuffer.

(** *** Marker icons *)

(** The load state of an [HTMLImageElement]. *)
Inductive LoadStatus : Type := Loading | Loaded | Failed.

(** The refs and the state behind [loadImage] (StarMap.tsx 1081-1085).
    [loadImage] creates one element per type identifier and caches it in
    the same call, so an element is known by its type identifier and the
    cache maps it to the element's load state. *)
Record ImageStore : Type := mkImageStore {
  imageCache : gmap N LoadStatus;
  pendingImageUpdates : nat;
  imageLoadRafId : bool;
  imageLoadTrigger : nat;
}.

Definition emptyStore : ImageStore :=
  {| imageCache := ∅; pendingImageUpdates := 0; imageLoadRafId := false;
     imageLoadTrigger := 0 |}.

(** [loadImage] (StarMap.tsx 1089-1113): the element returned and the
    store after the call. *)
Definition loadImage (typeID : N) (st : ImageStore) : LoadStatus * ImageStore :=
  match imageCache st !! typeID with
  | Some img => (img, st)
  | None =>
    let img := Loading in
    (img, {| imageCache := <[typeID := img]> (imageCache st);
             pendingImageUpdates := pendingImageUpdates st;
             imageLoadRafId := imageLoadRafId st;
             imageLoadTrigger := imageLoadTrigger st |})
  end.

(** The element finished loading: the browser marks it complete and
    calls [img.onload] (StarMap.tsx 1098-1109). *)
Definition onload (typeID : N) (st : ImageStore) : ImageStore :=
  match imageCache st !! typeID with
  | Some Loading =>
    {| imageCache := <[typeID := Loaded]> (imageCache st);
       pendingImageUpdates := S (pendingImageUpdates st);
       imageLoadRafId := true;
       imageLoadTrigger := imageLoadTrigger st |}
  | _ => st
  end.

(** The load failed: no [onerror] handler is installed, only the
    element changes state. *)
Definition onerror (typeID : N) (st : ImageStore) : ImageStore :=
  match imageCache st !! typeID with
  | Some Loading =>
    {| imageCache := <[typeID := Failed]> (imageCache st);
       pendingImageUpdates := pendingImageUpdates st;
       imageLoadRafId := imageLoadRafId st;
       imageLoadTrigger := imageLoadTrigger st |}
  | _ => st
  end.

(** The updater handed to [setImageLoadTrigger] (StarMap.tsx 1104),
    [(prev) => prev + pendingImageUpdates.current]: it reads the ref at
    the time React calls it. *)
Definition triggerUpdater (st : ImageStore) (prev : nat) : nat :=
  (prev + pendingImageUpdates st)%nat.

(** The frame scheduled by [onload] (StarMap.tsx 1103-1107).  The
    callback queues the updater and then resets the two refs; React
    calls the updater when it processes the queue, after the callback has
    returned, so the updater reads the ref after its reset. *)
Definition imageFrame (st : ImageStore) : ImageStore :=
  if imageLoadRafId st then
    let returned :=
      {| imageCache := imageCache st;
         pendingImageUpdates := 0;
         imageLoadRafId := false;
         imageLoadTrigger := imageLoadTrigger st |} in
    {| imageCache := imageCache returned;
       pendingImageUpdates := pendingImageUpdates returned;
       imageLoadRafId := imageLoadRafId returned;
       imageLoadTrigger := triggerUpdater returned (imageLoadTrigger returned) |}
  else st.

Inductive ImageEvent : Type :=
| CallLoadImage (typeID : N)
| LoadSucceeded (typeID : N)
| LoadFailed (typeID : N)
| ImageFrame.

Definition imageStep (st : ImageStore) (e : ImageEvent) : ImageStore :=
  match e with
  | CallLoadImage typeID => snd (loadImage typeID st)
  | LoadSucceeded typeID => onload typeID st
  | LoadFailed typeID => onerror typeID st
  | ImageFrame => imageFrame st
  end.

Definition imageRun (st : ImageStore) (es : list ImageEvent) : ImageStore :=
  fold_left imageStep es st.


Section Drawing.

(** The value of [img.complete] for an element whose load failed; it
    is fixed by the browser, not by the program. *)
Variable brokenComplete : bool.



End Drawing.



(** *** The candidates of the hit test *)

(** The objects [findObjectAtPosition] looks at, in the order of its
    four loops (StarMap.tsx 1632-1698): the star, the planets, the
    stargates and the stations.  Moons are not among them. *)
Definition candidates (d : SystemData) : list Ref :=
  match star d with Some _ => [(KStar, 0%nat)] | None => [] end
  ++ refsOf KPlanet (planets d)
  ++ refsOf KStargate (stargates d)
  ++ refsOf KStation (stations d).

(** The squared distance from the point [(worldX, worldY)] to the cached
    position of an object. *)
Definition reach2 (worldX worldY : Q) (adjusted : Adjusted) : Q :=
  Js.dist2 worldX worldY (adj_x adjusted) (adj_y adjusted).

(** What the scan of [findObjectAtPosition] has established after the
    candidates [seen]. *)
Definition considered (adjustedPositions : gmap Ref Adjusted) (cam : Camera)
           (worldX worldY detectionBuffer : Q) (seen : list Ref)
           (acc : Js.Bound * option Found) : Prop :=
  match snd acc with
  | None =>
    fst acc = Js.Infinity
    /\ forall ref adjusted,
        ref ∈ seen -> adjustedPositions !! ref = Some adjusted ->
        Js.sqrt_lt (reach2 worldX worldY adjusted)
                   (Js.Num (detectionRadius adjusted cam detectionBuffer)) = false
  | Some f =>
    fst acc = Js.Sqrt (found_distance2 f)
    /\ found_ref f ∈ seen
    /\ (exists adjusted,
           adjustedPositions !! found_ref f = Some adjusted
           /\ found_distance2 f = reach2 worldX worldY adjusted
           /\ Js.sqrt_lt (reach2 worldX worldY adjusted)
                         (Js.Num (detectionRadius adjusted cam detectionBuffer)) = true)
    /\ forall ref adjusted,
        ref ∈ seen -> adjustedPositions !! ref = Some adjusted ->
        Js.sqrt_lt (reach2 worldX worldY adjusted)
                   (Js.Num (detectionRadius adjusted cam detectionBuffer)) = true ->
        found_distance2 f <= reach2 worldX worldY adjusted
  end.

End SystemView.

(** ** Reading the static data files *)
Module SdeLoader.

(** A line of a JSONL file as the loops read it: blank after
    [line.trim()], a record, or text on which [JSON.parse] throws. *)
Inductive Line (R : Type) : Type :=
| Blank
| Json (record : R)
| Malformed.

Arguments Blank {R}.
Arguments Json {R} record.
Arguments Malformed {R}.

(** [records.set(key, record)] on the insertion-ordered [Map]: a known
    key keeps its place and takes the new value. *)
Fixpoint jsMapSet {R : Type} (key : N) (record : R) (records : list (N * R))
  : list (N * R) :=
  match records with
  | [] => [(key, record)]
  | (k, r) :: rest =>
    if N.eqb k key then (k, record) :: rest
    else (k, r) :: jsMapSet key record rest
  end.

(** [records.get(key)]. *)
Definition jsMapGet {R : Type} (key : N) (records : list (N * R)) : option R :=
  snd <$> List.find (fun entry => N.eqb (fst entry) key) records.

(** [Array.from(records.values())]. *)
Definition values {R : Type} (records : list (N * R)) : list R := records.*2.

Section Loader.

Context {R : Type}.

(** [record._key]. *)
Variable _key : R -> N.

(** [loadAllRecords] (sde-loader.ts 25-47); [None] is a rejected promise. *)
Definition loadAllRecords (lines : list (Line R)) (filter : option (R -> bool))
  : option (list (N * R)) :=
  fold_left
    (fun acc line =>
       match acc with
       | None => None
       | Some records =>
         match line with
         | Blank => Some records
         | Malformed => None
         | Json record =>
           if match filter with None => true | Some f => f record end
           then Some (jsMapSet (_key record) record records)
           else Some records
         end
       end)
    lines (Some []).

(** [findRecords] (sde-loader.ts 53-75). *)
Definition findRecords (lines : list (Line R)) (predicate : R -> bool) : option (list R) :=
  fold_left
    (fun acc line =>
       match acc with
       | None => None
       | Some results =>
         match line with
         | Blank => Some results
         | Malformed => None
         | Json record =>
           if predicate record then Some (results ++ [record]) else Some results
         end
       end)
    lines (Some []).

(** [findRecordByKey] (sde-loader.ts 80-101): the loop returns at the
    first match and reads no further line. *)
Fixpoint findRecordByKey (lines : list (Line R)) (key : N) : option (option R) :=
  match lines with
  | [] => Some None
  | Blank :: rest => findRecordByKey rest key
  | Malformed :: _ => None
  | Json record :: rest =>
    if N.eqb (_key record) key then Some (Some record)
    else findRecordByKey rest key
  end.

End Loader.

(** The records of the well-formed lines, in file order. *)
Definition recordsOf {R : Type} (lines : list (Line R)) : list R :=
  omap (fun line => match line with Json record => Some record | _ => None end) lines.

End SdeLoader.

(** ** The map-data endpoint: stargate connections *)
Module MapData.

(** A stargate record: its own system and the system it leads to
    ([gate.destination.solarSystemID]). *)
Record Stargate : Type := mkStargate {
  _key : N;
  solarSystemID : N;
  destination_solarSystemID : N;
}.

Record Connection : Type := mkConnection { conn_from : N; conn_to : N }.

(** [from < to ? `${from}-${to}` : `${to}-${from}`]. *)
Definition connectionKey (from to : N) : string :=
  if (from <? to)%N then pretty from +:+ "-" +:+ pretty to
  else pretty to +:+ "-" +:+ pretty from.

(** The body of the loop over [stargates] (route.ts 125-139). *)
Definition addGate (allowedSystemIds : gset N)
           (acc : gset string * list Connection) (gate : Stargate)
  : gset string * list Connection :=
  let '(connectionSet, stargateConnections) := acc in
  let from := solarSystemID gate in
  let to := destination_solarSystemID gate in
  if negb (bool_decide (from ∈ allowedSystemIds)) || negb (bool_decide (to ∈ allowedSystemIds))
  then acc
  else
    let key := connectionKey from to in
    if bool_decide (key ∈ connectionSet) then acc
    else (connectionSet ∪ {[key]},
          stargateConnections ++ [{| conn_from := from; conn_to := to |}]).

(** [stargateConnections] as the endpoint returns it (route.ts 122-139). *)
Definition stargateConnections (allowedSystemIds : gset N) (stargates : list Stargate)
  : list Connection :=
  snd (fold_left (addGate allowedSystemIds) stargates (∅, [])).

(** The connection joins [a] and [b], in either direction. *)
Definition joins (a b : N) (c : Connection) : bool :=
  (N.eqb (conn_from c) a && N.eqb (conn_to c) b)
  || (N.eqb (conn_from c) b && N.eqb (conn_to c) a).

(** Some gate of the array links [a] and [b], in either direction. *)
Definition linked (stargates : list Stargate) (a b : N) : bool :=
  existsb (fun gate =>
             (N.eqb (solarSystemID gate) a && N.eqb (destination_solarSystemID gate) b)
             || (N.eqb (solarSystemID gate) b && N.eqb (destination_solarSystemID gate) a))
          stargates.

(** The key under which a stored connection was recorded. *)
Definition keyOf (c : Connection) : string :=
  connectionKey (conn_from c) (conn_to c).

(** The state of the loop after the gates [gates]: the key set mirrors
    the stored connections, no key is stored twice, every stored
    connection comes from a gate between allowed systems, and every such
    gate has its key in the set. *)
Record DedupInv (allowed : gset N) (gates : list Stargate)
       (acc : gset string * list Connection) : Prop := {
  inv_set : forall k, k ∈ fst acc <-> k ∈ map keyOf (snd acc);
  inv_nodup : NoDup (map keyOf (snd acc));
  inv_sound : forall c, c ∈ snd acc ->
      conn_from c ∈ allowed /\ conn_to c ∈ allowed
      /\ exists g, g ∈ gates /\ solarSystemID g = conn_from c
                   /\ destination_solarSystemID g = conn_to c;
  inv_complete : forall g, g ∈ gates ->
      solarSystemID g ∈ allowed ->
      destination_solarSystemID g ∈ allowed ->
      connectionKey (solarSystemID g) (destination_solarSystemID g) ∈ fst acc;
}.

(** *** The whole endpoint *)

(** The fields of the records that the endpoint reads. *)
Record Region : Type := mkRegion { region_key : N }.

Record Constellation : Type := mkConstellation {
  constellation_key : N;
  constellation_regionID : N;
}.

Record SolarSystem : Type := mkSolarSystem {
  system_key : N;
  constellationID : N;
}.

(** [ALLOWED_REGION_IDS] (route.ts 11-81). *)
Definition ALLOWED_REGION_IDS : gset N :=
  list_to_set [
    10000054; 10000069; 10000055; 10000007; 10000014; 10000051;
    10000053; 10000012; 10000035; 10000060; 10000001; 10000005;
    10000036; 10000043; 10000039; 10000064; 10000027; 10000037;
    10000046; 10000056; 10000058; 10000029; 10000067; 10000011;
    10000030; 10000025; 10000031; 10000009; 10000052; 10000049;
    10000065; 10000016; 10000013; 10000042; 10000028; 10000040;
    10000062; 10000021; 10000057; 10000059; 10000063; 10000066;
    10000048; 10000070; 10000047; 10000023; 10000050; 10000008;
    10000032; 10000044; 10000022; 10000041; 10000020; 10000045;
    10000061; 10000038; 10000033; 10000002; 10000034; 10000018;
    10000010; 10000003; 10000015; 10000068; 10000006; 10001000;
    10000004; 10000017; 10000019
  ]%N.

(** The four files under [public/sde], line by line. *)
Record Files : Type := mkFiles {
  mapRegions : list (SdeLoader.Line Region);
  mapConstellations : list (SdeLoader.Line Constellation);
  mapSolarSystems : list (SdeLoader.Line SolarSystem);
  mapStargates : list (SdeLoader.Line Stargate);
}.

Record MapDataResponse : Type := mkMapDataResponse {
  regions : list Region;
  constellations : list Constellation;
  systems : list SolarSystem;
  connections : list Connection;
}.

(** The body of [GET] after the cache test (route.ts 94-146); [None]
    is an exception, caught by the handler. *)
Definition build (files : Files) : option MapDataResponse :=
  regionsMap ← SdeLoader.loadAllRecords region_key (mapRegions files)
               (Some (fun r => bool_decide (region_key r ∈ ALLOWED_REGION_IDS)));
  constellationsMap ← SdeLoader.loadAllRecords constellation_key (mapConstellations files)
                      (Some (fun c => bool_decide
                                        (constellation_regionID c ∈ ALLOWED_REGION_IDS)));
  let allowedConstellationIds : gset N :=
    list_to_set (constellation_key <$> SdeLoader.values constellationsMap) in
  systemsMap ← SdeLoader.loadAllRecords system_key (mapSolarSystems files)
               (Some (fun s => bool_decide (constellationID s ∈ allowedConstellationIds)));
  let allowedSystemIds : gset N :=
    list_to_set (system_key <$> SdeLoader.values systemsMap) in
  stargatesMap ← SdeLoader.loadAllRecords _key (mapStargates files)
                 (Some (fun sg => bool_decide (solarSystemID sg ∈ allowedSystemIds)));
  Some {| regions := SdeLoader.values regionsMap;
          constellations := SdeLoader.values constellationsMap;
          systems := SdeLoader.values systemsMap;
          connections :=
            stargateConnections allowedSystemIds (SdeLoader.values stargatesMap) |}.

Inductive Response : Type :=
| Ok (data : MapDataResponse)
| Error500.

(** [GET] (route.ts 83-157) with the module variable [cachedMapData]. *)
Definition GET (cachedMapData : option MapDataResponse) (files : Files)
  : Response * option MapDataResponse :=
  match cachedMapData with
  | Some data => (Ok data, cachedMapData)
  | None =>
    match build files with
    | Some data => (Ok data, Some data)
    | None => (Error500, None)
    end
  end.

End MapData.

(** ** The alliance-sovereignty endpoint *)
Module AllianceSovereignty.

(** An entry of the remote sovereignty map ([ESIAgent.getSovereigntyMap]). *)
Record SovEntry : Type := mkSovEntry {
  alliance_id : option N;
  corporation_id : option N;
  faction_id : option N;
  system_id : N;
}.

(** An entry of the names lookup ([ESIAgent.getNames]). *)
Record NameEntry : Type := mkNameEntry {
  category : string;
  id : N;
  name : string;
}.

(** Truthiness of an optional number: present and not [0]. *)
Definition truthy (o : option N) : bool :=
  match o with Some n => negb (N.eqb n 0) | None => false end.

(** [sovMap.filter((entry) => entry.alliance_id && !entry.faction_id)]. *)
Definition allianceSystems (sovMap : list SovEntry) : list SovEntry :=
  List.filter (fun entry => truthy (alliance_id entry) && negb (truthy (faction_id entry)))
              sovMap.

(** [Array.from(new Set(xs))]: first occurrences, in order. *)
Definition uniq (xs : list N) : list N :=
  fold_left (fun acc x => if bool_decide (x ∈ acc) then acc else acc ++ [x]) xs [].

Definition allianceIds (sovMap : list SovEntry) : list N :=
  uniq (map (fun entry => default 0%N (alliance_id entry)) (allianceSystems sovMap)).

(** The loop filling [allianceNameMap] (route.ts 24-29). *)
Definition allianceNameMap (allianceNames : list NameEntry) : gmap N string :=
  fold_left (fun m alliance =>
               if String.eqb (category alliance) "alliance"
               then <[id alliance := name alliance]> m
               else m)
            allianceNames ∅.

(** [allianceNameMap[id] || `Alliance ${id}`]; the empty string is falsy. *)
Definition nameOf (names : gmap N string) (allianceId : N) : string :=
  match names !! allianceId with
  | Some n => if String.eqb n "" then "Alliance " +:+ pretty allianceId else n
  | None => "Alliance " +:+ pretty allianceId
  end.

(** The loop filling [result] (route.ts 31-39). *)
Definition result (sovMap : list SovEntry) (allianceNames : list NameEntry)
  : gmap N MapView.AllianceInfo :=
  let names := allianceNameMap allianceNames in
  fold_left (fun res entry =>
               if truthy (alliance_id entry) then
                 let aid := default 0%N (alliance_id entry) in
                 <[system_id entry :=
                     {| MapView.info_alliance_id := aid;
                        MapView.info_alliance_name := nameOf names aid |}]> res
               else res)
            (allianceSystems sovMap) ∅.

Definition CACHE_DURATION : Z := 60 * 60 * 1000.

Inductive Response : Type :=
| Ok (data : gmap N MapView.AllianceInfo)
| Error500.

(** [GET] (route.ts 10-54).  [getSovereigntyMap] and [getNames] are the
    two remote calls; [None] is a rejected request. *)
Definition GET (now : Z) (cachedData : option (gmap N MapView.AllianceInfo * Z))
           (getSovereigntyMap : option (list SovEntry))
           (getNames : list N -> option (list NameEntry))
  : Response * option (gmap N MapView.AllianceInfo * Z) :=
  let fetch :=
    match getSovereigntyMap with
    | None => (Error500, cachedData)
    | Some sovMap =>
      match getNames (allianceIds sovMap) with
      | None => (Error500, cachedData)
      | Some allianceNames =>
        let res := result sovMap allianceNames in
        (Ok res, Some (res, now))
      end
    end in
  match cachedData with
  | Some (data, timestamp) =>
    if (now - timestamp <? CACHE_DURATION)%Z then (Ok data, cachedData) else fetch
  | None => fetch
  end.

(** A request to the endpoint: the value of [Date.now()] while it is
    handled and what the two remote calls do during it. *)
Record Request : Type := mkRequest {
  req_now : Z;
  req_getSovereigntyMap : option (list SovEntry);
  req_getNames : list N -> option (list NameEntry);
}.

(** Successive requests against the module variable [cachedData]: the
    responses, in order, and the cache afterwards. *)
Definition serve (cachedData : option (gmap N MapView.AllianceInfo * Z))
           (requests : list Request)
  : list Response * option (gmap N MapView.AllianceInfo * Z) :=
  fold_left
    (fun (acc : list Response * option (gmap N MapView.AllianceInfo * Z)) request =>
       let '(response, cachedData') :=
         GET (req_now request) (snd acc)
             (req_getSovereigntyMap request) (req_getNames request) in
       (fst acc ++ [response], cachedData'))
    requests ([], cachedData).

(** The client side, [loadAllianceSovereignty] (StarMap.tsx 343-359):
    a failed request leaves an empty overlay. *)
Definition allianceData (r : Response) : gmap N MapView.AllianceInfo :=
  match r with
  | Ok data => data
  | Error500 => ∅
  end.

(** The remote map lists [s] with an alliance and without a faction. *)
Definition listedForAlliance (sovMap : list SovEntry) (s : N) : Prop :=
  ∃ entry, entry ∈ sovMap ∧ system_id entry = s
           ∧ is_Some (alliance_id entry) ∧ faction_id entry = None.

(** Identifiers of the remote service are never [0]. *)
Definition validEntry (entry : SovEntry) : Prop :=
  alliance_id entry ≠ Some 0%N ∧ faction_id entry ≠ Some 0%N.

(** The remote map lists [s] with an alliance identifier other than
    [0] and with no faction identifier other than [0]: the reading of
    [entry.alliance_id && !entry.faction_id] on optional numbers. *)
Definition claimedByAlliance (sovMap : list SovEntry) (s : N) : Prop :=
  ∃ entry, entry ∈ sovMap ∧ system_id entry = s
           ∧ (∃ allianceId, alliance_id entry = Some allianceId ∧ allianceId ≠ 0%N)
           ∧ (faction_id entry = None ∨ faction_id entry = Some 0%N).

End AllianceSovereignty.

(** ** The search box *)
Module Search.

(** An entry of the autocomplete list. *)
Record Result : Type := mkResult {
  res_type : MapView.ResultType;
  res_name : string;
  res_id : N;
}.

Section Search.

(** [String.prototype.toLowerCase] and [String.prototype.includes]
    (with the receiver first); the callback is studied for every such
    pair of functions. *)
Variable toLowerCase : string -> string.
Variable includes : string -> string -> bool.

(** One of the two loops of the callback (StarMap.tsx 193-202 and
    205-215): [name] and [key] read [name.en] and [_key]; the loop
    breaks once the list holds 10 results. *)
Fixpoint scan {A : Type} (name : A -> string) (key : A -> N) (type : MapView.ResultType)
         (lowerQuery : string) (xs : list A) (results : list Result) : list Result :=
  match xs with
  | [] => results
  | x :: rest =>
    if includes (toLowerCase (name x)) lowerQuery then
      let results' := results ++ [{| res_type := type; res_name := name x;
                                     res_id := key x |}] in
      if (10 <=? length results')%nat then results'
      else scan name key type lowerQuery rest results'
    else scan name key type lowerQuery rest results
  end.

(** The debounced callback of [handleSearchChange] (StarMap.tsx 189-219):
    the value handed to [setFilteredResults]. *)
Definition filteredResults {S R : Type} (systemName : S -> string) (systemKey : S -> N)
           (regionName : R -> string) (regionKey : R -> N)
           (query : string) (systems : list S) (regions : list R) : list Result :=
  let lowerQuery := toLowerCase query in
  let results := scan systemName systemKey MapView.RSystem lowerQuery systems [] in
  if (length results <? 10)%nat
  then scan regionName regionKey MapView.RRegion lowerQuery regions results
  else results.

End Search.

End Search.

(** ** Security status: rounding, colour and class *)
Module Security.

(** [systemSecurityRound] (StarMap.tsx 60-66 and, with the same text,
    1015-1021): [Math.round(v)] is [floor(v + 1/2)]. *)
Definition systemSecurityRound (security : Q) : Q :=
  if Qle_bool 0 security && Qle_bool security 0.05
  then inject_Z (Qceiling (security * 10)) / 10
  else inject_Z (Qfloor (security * 10 + (1 # 2))) / 10.

(** The three numbers of the string [`hsl(${hue}, ${saturation}%, ${lightness}%)`]. *)
Record Hsl : Type := mkHsl { hue : Q; saturation : Q; lightness : Q }.

(** [getSecurityColor] (StarMap.tsx 68-86). *)
Definition getSecurityColor (security : Q) : Hsl :=
  let rounded := systemSecurityRound security in
  if Qle_bool 0.5 rounded then
    let intensity := (rounded - 0.5) / 0.5 in
    {| hue := 60 + intensity * 180; saturation := 100; lightness := 50 - intensity * 20 |}
  else if Js.ltb 0 rounded then
    let intensity := (rounded - 0.1) / 0.3 in
    {| hue := 30; saturation := 60 + intensity * 40; lightness := 30 + intensity * 20 |}
  else {| hue := 0; saturation := 100; lightness := 40 |}.

Inductive SecurityClass : Type := HighSec | LowSec | NullSec.

(** [getSecurityClass] (StarMap.tsx 1023-1035). *)
Definition getSecurityClass (security : Q) : SecurityClass :=
  let rounded := systemSecurityRound security in
  if Qle_bool 0.5 rounded then HighSec
  else if Js.ltb 0 rounded then LowSec
  else NullSec.

End Security.

(** ** Sample scenes *)
Module Examples.

Definition surface : Dimensions := {| width := 800; height := 600 |}.

Definition noOffset : Rect := {| rect_left := 0; rect_top := 0 |}.

(** A map with a single system. *)
Definition lonely : MapView.SolarSystem :=
  {| MapView._key := 30000142; MapView.regionID := 10000002;
     MapView.position2D := Some (7, 3); MapView.position := (7, 3) |}.

(** Two systems 4 units apart on the canvas of a 1000 x 1000 surface:
    with the bounding box 900 wide, the scale is [1]. *)
Definition far_left : MapView.SolarSystem :=
  {| MapView._key := 1; MapView.regionID := 10000002;
     MapView.position2D := Some (446, 450); MapView.position := (446, 450) |}.

Definition near_centre : MapView.SolarSystem :=
  {| MapView._key := 2; MapView.regionID := 10000002;
     MapView.position2D := Some (450, 450); MapView.position := (450, 450) |}.

Definition corner : MapView.SolarSystem :=
  {| MapView._key := 3; MapView.regionID := 10000002;
     MapView.position2D := Some (900, 900); MapView.position := (900, 900) |}.

Definition origin_system : MapView.SolarSystem :=
  {| MapView._key := 4; MapView.regionID := 10000002;
     MapView.position2D := None; MapView.position := (0, 0) |}.

Definition square : Dimensions := {| width := 1000; height := 1000 |}.

Definition four_systems : list MapView.SolarSystem :=
  [far_left; near_centre; corner; origin_system].

Definition unit_camera : Camera := {| cam_x := 0; cam_y := 0; cam_zoom := 1 |}.

Definition idle (dims : Dimensions) (cam : Camera) (down : Q * Q) : MapView.State :=
  {| MapView.camera := cam; MapView.cameraRef := cam;
     MapView.cameraInitialized := true; MapView.isDragging := false;
     MapView.dragStart := (0, 0); MapView.mouseDownPos := down;
     MapView.pendingZoomDelta := 0; MapView.lastWheelMouse := (0, 0);
     MapView.wheelRafId := false; MapView.renderRequested := false;
     MapView.dimensions := dims |}.

(** The push vector of the relaxation for pairs aligned with an axis,
    where the distance is rational: [(cos * pushStrength, sin * pushStrength)]
    is [(sign dx * (15 - |dx|) / 2, 0)] or [(0, sign dy * (15 - |dy|) / 2)].
    Other pairs are not used in the sample scenes. *)
Definition axisPush (dx dy : Q) : Q * Q :=
  if Qeq_bool dy 0 then
    ((if Js.ltb dx 0 then -1 else 1) * (SystemView.minSeparation - Qabs dx) / 2, 0)
  else if Qeq_bool dx 0 then
    (0, (if Js.ltb dy 0 then -1 else 1) * (SystemView.minSeparation - Qabs dy) / 2)
  else (0, 0).

(** A local view with a star at the origin and one planet 10 units
    away along [x]: on the 800 x 600 surface the scale is 60, the star is
    drawn at (100, 500) and the planet at (700, 500). *)
Definition star_and_planet : SystemView.SystemData :=
  {| SystemView.star := Some {| SystemView.star_position := None;
                                SystemView.star_radius := None;
                                SystemView.star_typeID := Some 45041%N |};
     SystemView.planets :=
       [{| SystemView.body_position := Some {| SystemView.pos_x := 10;
                                               SystemView.pos_y := 0;
                                               SystemView.pos_z := 0 |};
           SystemView.body_typeID := Some 11%N |}];
     SystemView.moons := []; SystemView.stargates := [];
     SystemView.stations := [] |}.

(** A local view whose only entity is a planet 10 units from the
    origin: the bounding box is the point (10, 0). *)
Definition lone_planet : SystemView.SystemData :=
  {| SystemView.star := None;
     SystemView.planets :=
       [{| SystemView.body_position := Some {| SystemView.pos_x := 10;
                                               SystemView.pos_y := 0;
                                               SystemView.pos_z := 0 |};
           SystemView.body_typeID := Some 11%N |}];
     SystemView.moons := []; SystemView.stargates := [];
     SystemView.stations := [] |}.

(** The markers of a frame of the local view, before the relaxation. *)
Definition markersOf (d : SystemView.SystemData) : list SystemView.Marker :=
  SystemView.objectsToRender
    (SystemView.coordinateData (SystemView.objectBounds (Some d)) surface) surface d.

(** The adjusted-position cache after rendering [star_and_planet]. *)
Definition planet_cache : gmap SystemView.Ref SystemView.Adjusted :=
  SystemView.writeAdjusted
    (fst (SystemView.relaxation axisPush (markersOf star_and_planet))).

(** A camera at zoom 2 under which the cursor (400, 300) is over the
    pre-camera point (700, 495), 5 px above the planet's marker. *)
Definition zoom2_camera : Camera := {| cam_x := -600; cam_y := -390; cam_zoom := 2 |}.

(** The hover hit on the planet: its squared distance is 25. *)
Definition planet_hit : SystemView.Found :=
  {| SystemView.found_ref := (SystemView.KPlanet, 0%nat);
     SystemView.found_distance2 := 1024000000 # 40960000 |}.

(** A sovereignty map: an alliance system, a faction system that also
    names an alliance, and an unclaimed system. *)
Definition sov_map : list AllianceSovereignty.SovEntry :=
  [ {| AllianceSovereignty.alliance_id := Some 99003581%N;
       AllianceSovereignty.corporation_id := Some 98169165%N;
       AllianceSovereignty.faction_id := None;
       AllianceSovereignty.system_id := 30000721%N |};
    {| AllianceSovereignty.alliance_id := Some 99003581%N;
       AllianceSovereignty.corporation_id := None;
       AllianceSovereignty.faction_id := Some 500001%N;
       AllianceSovereignty.system_id := 30000142%N |};
    {| AllianceSovereignty.alliance_id := None;
       AllianceSovereignty.corporation_id := None;
       AllianceSovereignty.faction_id := None;
       AllianceSovereignty.system_id := 30002187%N |} ].

(** A sovereignty map with identifiers equal to [0]: system 30000001
    is listed with the alliance identifier 0 and no faction, system
    30000002 with an alliance and the faction identifier 0. *)
Definition sov_zero_ids : list AllianceSovereignty.SovEntry :=
  [ {| AllianceSovereignty.alliance_id := Some 0%N;
       AllianceSovereignty.corporation_id := None;
       AllianceSovereignty.faction_id := None;
       AllianceSovereignty.system_id := 30000001%N |};
    {| AllianceSovereignty.alliance_id := Some 99003581%N;
       AllianceSovereignty.corporation_id := None;
       AllianceSovereignty.faction_id := Some 0%N;
       AllianceSovereignty.system_id := 30000002%N |} ].

Definition sov_names : list AllianceSovereignty.NameEntry :=
  [ {| AllianceSovereignty.category := "alliance";
       AllianceSovereignty.id := 99003581%N;
       AllianceSovereignty.name := "Fraternity." |} ].

(** Two gates joining systems 1 and 2, one in each direction, a gate
    leaving the allowed set and a gate to a third system. *)
Definition gates_1_2 : list MapData.Stargate :=
  [ {| MapData._key := 50000001; MapData.solarSystemID := 1;
       MapData.destination_solarSystemID := 2 |};
    {| MapData._key := 50000002; MapData.solarSystemID := 2;
       MapData.destination_solarSystemID := 1 |};
    {| MapData._key := 50000003; MapData.solarSystemID := 2;
       MapData.destination_solarSystemID := 9 |};
    {| MapData._key := 50000004; MapData.solarSystemID := 3;
       MapData.destination_solarSystemID := 1 |} ].

Definition allowed_1_2_3 : gset N := {[ 1%N; 2%N; 3%N ]}.

(** A chain of members 100 apart with the first member far from the
    third, and an isolated member. *)
Definition chain : list MapView.Point :=
  [ {| MapView.pt_x := 0; MapView.pt_y := 0 |};
    {| MapView.pt_x := 1000; MapView.pt_y := 0 |};
    {| MapView.pt_x := 200; MapView.pt_y := 0 |};
    {| MapView.pt_x := 100; MapView.pt_y := 0 |} ].

Definition marker (x y : Q) (index : nat) : SystemView.Marker :=
  {| SystemView.m_x := x; SystemView.m_y := y; SystemView.m_type := SystemView.KStation;
     SystemView.m_radius := 4; SystemView.m_typeID := None;
     SystemView.dataRef := (SystemView.KStation, index) |}.

(** A star and two stations that differ only in height [y]: the view
    projects [x] and [z], so both stations are drawn at (500, 100). *)
Definition two_stations : SystemView.SystemData :=
  {| SystemView.star := Some {| SystemView.star_position := None;
                                SystemView.star_radius := None;
                                SystemView.star_typeID := Some 45041%N |};
     SystemView.planets := []; SystemView.moons := []; SystemView.stargates := [];
     SystemView.stations :=
       [{| SystemView.body_position := Some {| SystemView.pos_x := 5;
                                               SystemView.pos_y := 0;
                                               SystemView.pos_z := 5 |};
           SystemView.body_typeID := Some 1529%N |};
        {| SystemView.body_position := Some {| SystemView.pos_x := 5;
                                               SystemView.pos_y := 100;
                                               SystemView.pos_z := 5 |};
           SystemView.body_typeID := Some 1529%N |}] |}.

Definition twins : list SystemView.Marker := markersOf two_stations.

(** The marker of the station of index [index] in [twins]. *)
Definition twin (index : nat) : SystemView.Marker :=
  {| SystemView.m_x := 2500 # 5; SystemView.m_y := 500 # 5;
     SystemView.m_type := SystemView.KStation; SystemView.m_radius := 4;
     SystemView.m_typeID := None;
     SystemView.dataRef := (SystemView.KStation, index) |}.

(** Two stations 9 px apart. *)
Definition crowded : list SystemView.Marker := [marker 100 100 0; marker 109 100 1].

(** Static data with one allowed region (The Forge, 10000002) and one
    region outside the allowed set, a constellation and systems in each,
    a blank line, and gates between the two allowed systems and out of
    the allowed set. *)
Definition small_files : MapData.Files :=
  {| MapData.mapRegions :=
       [ SdeLoader.Json {| MapData.region_key := 10000002 |};
         SdeLoader.Blank;
         SdeLoader.Json {| MapData.region_key := 11000001 |} ];
     MapData.mapConstellations :=
       [ SdeLoader.Json {| MapData.constellation_key := 20000020;
                           MapData.constellation_regionID := 10000002 |};
         SdeLoader.Json {| MapData.constellation_key := 21000001;
                           MapData.constellation_regionID := 11000001 |} ];
     MapData.mapSolarSystems :=
       [ SdeLoader.Json {| MapData.system_key := 30000142;
                           MapData.constellationID := 20000020 |};
         SdeLoader.Json {| MapData.system_key := 30000144;
                           MapData.constellationID := 20000020 |};
         SdeLoader.Json {| MapData.system_key := 31000001;
                           MapData.constellationID := 21000001 |} ];
     MapData.mapStargates :=
       [ SdeLoader.Json {| MapData._key := 50001248; MapData.solarSystemID := 30000142;
                           MapData.destination_solarSystemID := 30000144 |};
         SdeLoader.Json {| MapData._key := 50001249; MapData.solarSystemID := 30000144;
                           MapData.destination_solarSystemID := 30000142 |};
         SdeLoader.Json {| MapData._key := 50001250; MapData.solarSystemID := 30000142;
                           MapData.destination_solarSystemID := 31000001 |} ] |}.

(** What the endpoint answers for [small_files]. *)
Definition small_response : MapData.MapDataResponse :=
  {| MapData.regions := [ {| MapData.region_key := 10000002 |} ];
     MapData.constellations :=
       [ {| MapData.constellation_key := 20000020;
            MapData.constellation_regionID := 10000002 |} ];
     MapData.systems :=
       [ {| MapData.system_key := 30000142; MapData.constellationID := 20000020 |};
         {| MapData.system_key := 30000144; MapData.constellationID := 20000020 |} ];
     MapData.connections :=
       [ {| MapData.conn_from := 30000142; MapData.conn_to := 30000144 |} ] |}.

(** Two requests to the alliance endpoint one second apart: the first
    fetches [sov_map] and [sov_names], the second arrives while the
    remote service is down. *)
Definition two_requests : list AllianceSovereignty.Request :=
  [ {| AllianceSovereignty.req_now := 1762100000000;
       AllianceSovereignty.req_getSovereigntyMap := Some sov_map;
       AllianceSovereignty.req_getNames := fun _ => Some sov_names |};
    {| AllianceSovereignty.req_now := 1762100001000;
       AllianceSovereignty.req_getSovereigntyMap := None;
       AllianceSovereignty.req_getNames := fun _ => None |} ].

End Examples.

(** * Properties *)

(** ** Numeric helpers *)

Lemma ltb_lt (a b : Q) : Js.ltb a b = true <-> a < b.
Proof.
  unfold Js.ltb. rewrite negb_true_iff. split.
  - intros H. apply Qnot_le_lt. intros Hle.
    apply Qle_bool_iff in Hle. congruence.
  - intros H. destruct (Qle_bool b a) eqn:E; [|reflexivity].
    apply Qle_bool_iff in E. exfalso. apply (Qlt_not_le _ _ H E).
Qed.

Lemma ltb_ge (a b : Q) : Js.ltb a b = false <-> b <= a.
Proof.
  unfold Js.ltb. rewrite negb_false_iff. apply Qle_bool_iff.
Qed.

Lemma or_else_nonzero (a b : Q) : ~ b == 0 -> ~ Js.or_else a b == 0.
Proof.
  intros Hb. unfold Js.or_else. destruct (Qeq_bool a 0) eqn:E; [exact Hb|].
  intros H. apply Qeq_bool_iff in H. congruence.
Qed.

Lemma or_else_zero (a b : Q) : a == 0 -> Js.or_else a b = b.
Proof.
  intros H. unfold Js.or_else. apply Qeq_bool_iff in H. rewrite H. reflexivity.
Qed.

Lemma clamp_bounds (lo hi v : Q) : lo <= hi -> lo <= Js.clamp lo hi v <= hi.
Proof.
  intros H. unfold Js.clamp. split.
  - apply Q.le_max_l.
  - apply Q.max_lub; [exact H | apply Q.le_min_l].
Qed.

(** ** Coordinate projector *)

Lemma extentX_nonzero (b : MapView.Bounds) : ~ MapView.extentX b == 0.
Proof. apply or_else_nonzero. discriminate. Qed.

Lemma extentY_nonzero (b : MapView.Bounds) : ~ MapView.extentY b == 0.
Proof. apply or_else_nonzero. discriminate. Qed.

Lemma extentA_nonzero (b : SystemView.ObjectBounds) : ~ SystemView.extentA b == 0.
Proof. apply or_else_nonzero. discriminate. Qed.

Lemma extentB_nonzero (b : SystemView.ObjectBounds) : ~ SystemView.extentB b == 0.
Proof. apply or_else_nonzero. discriminate. Qed.

(** A single system gives a bounding box of zero width and height. *)
Lemma bounds_single (s : MapView.SolarSystem) :
  MapView.bounds [s]
  = {| MapView.minX := MapView.posX s; MapView.minY := MapView.posY s;
       MapView.maxX := MapView.posX s; MapView.maxY := MapView.posY s |}.
Proof. reflexivity. Qed.

Lemma accMin_fold {A : Type} (f : A -> Q) (l : list A) (acc : option Q) :
  exists m, fold_left (fun a x => Js.accMin a (f x)) l acc
            = match l, acc with [], None => None | _, _ => Some m end
    /\ (forall x, x ∈ l -> m <= f x)
    /\ (forall a, acc = Some a -> m <= a)
    /\ ((exists x, x ∈ l /\ m == f x) \/ acc = Some m \/ (l = [] /\ acc = None)).
Proof.
  revert acc. induction l as [|x l IH]; intros acc.
  - destruct acc as [a|].
    + exists a. simpl. split; [reflexivity|]. split; [intros y Hy; inversion Hy|].
      split; [intros b [= <-]; lra|]. right. left. reflexivity.
    + exists 0. simpl. split; [reflexivity|]. split; [intros y Hy; inversion Hy|].
      split; [intros b [=]|]. right. right. split; reflexivity.
  - simpl. destruct (IH (Js.accMin acc (f x))) as (m & Hm & Hle & Hacc & Hatt).
    exists m. split.
    { rewrite Hm. unfold Js.accMin. destruct l, acc; reflexivity. }
    assert (Hx : m <= f x /\ forall a, acc = Some a -> m <= a).
    { unfold Js.accMin in Hacc. destruct acc as [a|].
      - specialize (Hacc _ eq_refl).
        pose proof (Q.le_min_l a (f x)). pose proof (Q.le_min_r a (f x)).
        split; [lra|]. intros b [= <-]. lra.
      - specialize (Hacc _ eq_refl). split; [lra|]. intros b [=]. }
    destruct Hx as [Hx Ha].
    split; [|split; [exact Ha|]].
    + intros y Hy. apply elem_of_cons in Hy as [->|Hy]; [exact Hx | apply Hle, Hy].
    + destruct Hatt as [(y & Hy & Hmy)|[Hatt|[_ Hatt]]].
      * left. exists y. split; [apply elem_of_cons; right; exact Hy | exact Hmy].
      * unfold Js.accMin in Hatt. destruct acc as [a|].
        -- injection Hatt as Hatt.
           destruct (Q.min_spec a (f x)) as [[Hlt He]|[Hge He]].
           ++ right. left. f_equal.
              unfold Qmin, GenericMinMax.gmin in Hatt.
              destruct (a ?= f x) eqn:E; [exact Hatt | exact Hatt|].
              apply Qgt_alt in E. lra.
           ++ left. exists x. split; [apply elem_of_cons; left; reflexivity|].
              rewrite <- Hatt. exact He.
        -- injection Hatt as Hatt. left. exists x.
           split; [apply elem_of_cons; left; reflexivity | rewrite Hatt; reflexivity].
      * discriminate.
Qed.

Lemma accMax_fold {A : Type} (f : A -> Q) (l : list A) (acc : option Q) :
  exists m, fold_left (fun a x => Js.accMax a (f x)) l acc
            = match l, acc with [], None => None | _, _ => Some m end
    /\ (forall x, x ∈ l -> f x <= m)
    /\ (forall a, acc = Some a -> a <= m)
    /\ ((exists x, x ∈ l /\ m == f x) \/ acc = Some m \/ (l = [] /\ acc = None)).
Proof.
  revert acc. induction l as [|x l IH]; intros acc.
  - destruct acc as [a|].
    + exists a. simpl. split; [reflexivity|]. split; [intros y Hy; inversion Hy|].
      split; [intros b [= <-]; lra|]. right. left. reflexivity.
    + exists 0. simpl. split; [reflexivity|]. split; [intros y Hy; inversion Hy|].
      split; [intros b [=]|]. right. right. split; reflexivity.
  - simpl. destruct (IH (Js.accMax acc (f x))) as (m & Hm & Hle & Hacc & Hatt).
    exists m. split.
    { rewrite Hm. unfold Js.accMax. destruct l, acc; reflexivity. }
    assert (Hx : f x <= m /\ forall a, acc = Some a -> a <= m).
    { unfold Js.accMax in Hacc. destruct acc as [a|].
      - specialize (Hacc _ eq_refl).
        pose proof (Q.le_max_l a (f x)). pose proof (Q.le_max_r a (f x)).
        split; [lra|]. intros b [= <-]. lra.
      - specialize (Hacc _ eq_refl). split; [lra|]. intros b [=]. }
    destruct Hx as [Hx Ha].
    split; [|split; [exact Ha|]].
    + intros y Hy. apply elem_of_cons in Hy as [->|Hy]; [exact Hx | apply Hle, Hy].
    + destruct Hatt as [(y & Hy & Hmy)|[Hatt|[_ Hatt]]].
      * left. exists y. split; [apply elem_of_cons; right; exact Hy | exact Hmy].
      * unfold Js.accMax in Hatt. destruct acc as [a|].
        -- injection Hatt as Hatt.
           destruct (Q.max_spec a (f x)) as [[Hlt He]|[Hge He]].
           ++ left. exists x. split; [apply elem_of_cons; left; reflexivity|].
              rewrite <- Hatt. exact He.
           ++ right. left. f_equal.
              unfold Qmax, GenericMinMax.gmax in Hatt.
              destruct (a ?= f x) eqn:E; [exact Hatt | | exact Hatt].
              apply Qlt_alt in E. lra.
        -- injection Hatt as Hatt. left. exists x.
           split; [apply elem_of_cons; left; reflexivity | rewrite Hatt; reflexivity].
      * discriminate.
Qed.

(** The loop of [bounds] runs four independent extrema. *)
Lemma bounds_fold (l : list MapView.SolarSystem) (mnX mxX mnY mxY : option Q) :
  fold_left (fun '(mnX, mxX, mnY, mxY) system =>
               (Js.accMin mnX (MapView.posX system), Js.accMax mxX (MapView.posX system),
                Js.accMin mnY (MapView.posY system), Js.accMax mxY (MapView.posY system)))
            l (mnX, mxX, mnY, mxY)
  = (fold_left (fun a s => Js.accMin a (MapView.posX s)) l mnX,
     fold_left (fun a s => Js.accMax a (MapView.posX s)) l mxX,
     fold_left (fun a s => Js.accMin a (MapView.posY s)) l mnY,
     fold_left (fun a s => Js.accMax a (MapView.posY s)) l mxY).
Proof.
  revert mnX mxX mnY mxY. induction l as [|s l IH]; intros; simpl; [reflexivity|].
  apply IH.
Qed.

Lemma bounds_spec (systems : list MapView.SolarSystem) :
  systems <> [] ->
  let b := MapView.bounds systems in
  (forall s, s ∈ systems ->
             MapView.minX b <= MapView.posX s <= MapView.maxX b
             /\ MapView.minY b <= MapView.posY s <= MapView.maxY b)
  /\ (exists s, s ∈ systems /\ MapView.minX b == MapView.posX s)
  /\ (exists s, s ∈ systems /\ MapView.maxX b == MapView.posX s)
  /\ (exists s, s ∈ systems /\ MapView.minY b == MapView.posY s)
  /\ (exists s, s ∈ systems /\ MapView.maxY b == MapView.posY s).
Proof.
  intros Hne b. subst b. unfold MapView.bounds.
  destruct systems as [|s0 l]; [congruence|]. clear Hne.
  set (systems := s0 :: l).
  rewrite (bounds_fold systems None None None None).
  destruct (accMin_fold MapView.posX systems None) as (a & -> & Ha & _ & Hat).
  destruct (accMax_fold MapView.posX systems None) as (b & -> & Hb & _ & Hbt).
  destruct (accMin_fold MapView.posY systems None) as (c & -> & Hc & _ & Hct).
  destruct (accMax_fold MapView.posY systems None) as (d & -> & Hd & _ & Hdt).
  subst systems. cbn [default MapView.minX MapView.maxX MapView.minY MapView.maxY].
  assert (Hsolve : forall (m : Q) (f : MapView.SolarSystem -> Q),
             (exists x, x ∈ s0 :: l /\ m == f x) \/ None = Some m \/ (s0 :: l = [] /\ @None Q = None) ->
             exists x, x ∈ s0 :: l /\ m == f x).
  { intros m f [H|[H|[H _]]]; [exact H | discriminate | discriminate]. }
  split; [|repeat split; apply Hsolve; assumption].
  intros s Hs. repeat split; auto.
Qed.

(** C1, as stated, fails in three ways.  For the single system
    [Examples.lonely] on an 800 x 600 surface the bounding box has zero
    width and height and the fit-scale of the projector is 500, not 1.
    For the empty system list of the map view the bounding box is the
    point (0, 0) but the initialisation effect returns at once: the
    camera is not initialised and keeps its mount value.  In the local
    view of [Examples.lone_planet] the bounding box is the point (10, 0),
    the fit-scale is 400 and the initial camera draws the planet's marker
    at (4400, 300), 4000 pixels to the right of the centre (400, 300) of
    the surface. *)
Lemma zero_bbox_counterexample :
  (let b := MapView.bounds [Examples.lonely] in
   MapView.maxX b - MapView.minX b == 0
   /\ MapView.maxY b - MapView.minY b == 0
   /\ MapView.scale (MapView.coordinateData b Examples.surface) == 500
   /\ ~ MapView.scale (MapView.coordinateData b Examples.surface) == 1)
  /\ (let b := MapView.bounds [] in
      let st := MapView.initEffect [] Examples.surface (MapView.mount Examples.surface) in
      MapView.maxX b - MapView.minX b == 0
      /\ MapView.maxY b - MapView.minY b == 0
      /\ MapView.cameraInitialized st = false
      /\ MapView.camera st = {| cam_x := 0; cam_y := 0; cam_zoom := 2 |})
  /\ (let ob := SystemView.objectBounds (Some Examples.lone_planet) in
      let st := SystemView.initEffect (Some Examples.lone_planet) Examples.surface
                  (SystemView.mount Examples.surface) in
      SystemView.maxA ob - SystemView.minA ob == 0
      /\ SystemView.maxB ob - SystemView.minB ob == 0
      /\ SystemView.scale (SystemView.coordinateData ob Examples.surface) == 400
      /\ match Examples.markersOf Examples.lone_planet with
         | [planet] =>
           Viewport.screenX Examples.surface (SystemView.camera st)
                            (SystemView.m_x planet) == 4400
           /\ Viewport.screenY Examples.surface (SystemView.camera st)
                               (SystemView.m_y planet) == 300
           /\ ~ Viewport.screenX Examples.surface (SystemView.camera st)
                                 (SystemView.m_x planet) == width Examples.surface / 2
         | _ => False
         end).
Proof. vm_compute. repeat split; discriminate. Qed.

(** In a bounding box of zero width and height every system sits at the
    box point. *)
Lemma zero_bounds_point (systems : list MapView.SolarSystem) (s : MapView.SolarSystem) :
  MapView.maxX (MapView.bounds systems) - MapView.minX (MapView.bounds systems) == 0 ->
  MapView.maxY (MapView.bounds systems) - MapView.minY (MapView.bounds systems) == 0 ->
  s ∈ systems ->
  MapView.posX s == MapView.minX (MapView.bounds systems)
  /\ MapView.posY s == MapView.minY (MapView.bounds systems).
Proof.
  intros HX HY Hs.
  assert (Hne : systems <> []) by (intros ->; inversion Hs).
  destruct (bounds_spec systems Hne) as [Hin _].
  destruct (Hin s Hs) as [[H1 H2] [H3 H4]].
  split; lra.
Qed.

(** C1 (amended): for a non-empty system list of the map view and for
    the system data of the local view, when the bounding box has zero
    width and zero height, each of the two divisors of the fit-scale
    defaults to 1, so no division by zero occurs and the scale is
    [min(width - 2 * padding, height - 2 * padding)] (padding 50 in the
    map view, 100 in the local view).  The initialisation effect sets the
    camera state and the camera ref.  In the map view the camera draws
    every system of the list at the centre of the surface.  In the local
    view it draws the projected origin at the centre, and an entity at
    [(x, z)] at the offset [scale * (x, - z)] from the centre. *)
Theorem zero_bbox_projection (systems : list MapView.SolarSystem)
        (d : SystemView.SystemData) (dims : Dimensions)
        (st : MapView.State) (lst : SystemView.State) :
  systems <> [] ->
  MapView.maxX (MapView.bounds systems) - MapView.minX (MapView.bounds systems) == 0 ->
  MapView.maxY (MapView.bounds systems) - MapView.minY (MapView.bounds systems) == 0 ->
  SystemView.maxA (SystemView.objectBounds (Some d))
  - SystemView.minA (SystemView.objectBounds (Some d)) == 0 ->
  SystemView.maxB (SystemView.objectBounds (Some d))
  - SystemView.minB (SystemView.objectBounds (Some d)) == 0 ->
  let b := MapView.bounds systems in
  let ob := SystemView.objectBounds (Some d) in
  let cd := MapView.coordinateData b dims in
  let ocd := SystemView.coordinateData ob dims in
  let st' := MapView.initEffect systems dims st in
  let lst' := SystemView.initEffect (Some d) dims lst in
  (MapView.extentX b = 1 /\ MapView.extentY b = 1
   /\ MapView.scale cd == Qmin (width dims - 100) (height dims - 100)
   /\ MapView.cameraInitialized st' = true
   /\ MapView.cameraRef st' = MapView.camera st'
   /\ forall s, s ∈ systems ->
        Viewport.screenX dims (MapView.camera st') (MapView.toCanvasX cd (MapView.posX s))
        == width dims / 2
        /\ Viewport.screenY dims (MapView.camera st')
                            (MapView.toCanvasY cd dims (MapView.posY s))
           == height dims / 2)
  /\ (SystemView.extentA ob = 1 /\ SystemView.extentB ob = 1
      /\ SystemView.scale ocd == Qmin (width dims - 200) (height dims - 200)
      /\ SystemView.cameraInitialized lst' = true
      /\ SystemView.cameraRef lst' = SystemView.camera lst'
      /\ Viewport.screenX dims (SystemView.camera lst')
           (fst (SystemView.toCanvasCoords ocd dims SystemView.origin)) == width dims / 2
      /\ Viewport.screenY dims (SystemView.camera lst')
           (snd (SystemView.toCanvasCoords ocd dims SystemView.origin)) == height dims / 2
      /\ forall pos,
          Viewport.screenX dims (SystemView.camera lst')
            (fst (SystemView.toCanvasCoords ocd dims pos))
          == width dims / 2 + SystemView.scale ocd * SystemView.pos_x pos
          /\ Viewport.screenY dims (SystemView.camera lst')
               (snd (SystemView.toCanvasCoords ocd dims pos))
             == height dims / 2 - SystemView.scale ocd * SystemView.pos_z pos).
Proof.
  intros Hne HX HY HA HB b ob cd ocd st' lst'.
  assert (EX : MapView.extentX b = 1) by (apply or_else_zero; exact HX).
  assert (EY : MapView.extentY b = 1) by (apply or_else_zero; exact HY).
  assert (EA : SystemView.extentA ob = 1) by (apply or_else_zero; exact HA).
  assert (EB : SystemView.extentB ob = 1) by (apply or_else_zero; exact HB).
  split; (split; [assumption|]); (split; [assumption|]).
  - split.
    { unfold cd, MapView.coordinateData. simpl. rewrite EX, EY.
      apply Q.min_compat; field. }
    assert (Ecam : MapView.camera st' = MapView.initialCamera cd dims
                   /\ MapView.cameraRef st' = MapView.initialCamera cd dims
                   /\ MapView.cameraInitialized st' = true).
    { subst st' cd b. unfold MapView.initEffect.
      destruct systems; [congruence|]. repeat split. }
    destruct Ecam as (Ec & Er & Ei).
    split; [exact Ei|]. split; [congruence|].
    intros s Hs. rewrite Ec.
    destruct (zero_bounds_point systems s HX HY Hs) as [Px Py].
    fold b in HX, HY, Px, Py.
    unfold Viewport.screenX, Viewport.screenY, MapView.initialCamera,
      MapView.toCanvasX, MapView.toCanvasY.
    cbn [cam_x cam_y cam_zoom].
    change (MapView.cd_bounds cd) with b. change (MapView.padding cd) with 50.
    generalize (MapView.scale cd). intros k.
    assert (Hx0 : (MapView.maxX b - MapView.minX b) * k == 0) by (rewrite HX; ring).
    assert (Hy0 : (MapView.maxY b - MapView.minY b) * k == 0) by (rewrite HY; ring).
    assert (Hx1 : (MapView.posX s - MapView.minX b) * k == 0) by (rewrite Px; ring).
    assert (Hy1 : (MapView.posY s - MapView.minY b) * k == 0) by (rewrite Py; ring).
    revert Hx0 Hy0 Hx1 Hy1.
    generalize ((MapView.maxX b - MapView.minX b) * k) ((MapView.maxY b - MapView.minY b) * k)
               ((MapView.posX s - MapView.minX b) * k) ((MapView.posY s - MapView.minY b) * k).
    intros a1 a2 a3 a4 -> -> -> ->. split; field.
  - split.
    { unfold ocd, SystemView.coordinateData. simpl. rewrite EA, EB.
      apply Q.min_compat; field. }
    split; [reflexivity|]. split; [reflexivity|].
    change (SystemView.camera lst') with (SystemView.initialCamera ocd dims).
    unfold Viewport.screenX, Viewport.screenY, SystemView.initialCamera,
      SystemView.toCanvasCoords, SystemView.origin.
    cbn [cam_x cam_y cam_zoom fst snd SystemView.pos_x SystemView.pos_z].
    generalize (SystemView.scale ocd) (SystemView.padding ocd) (SystemView.cd_bounds ocd).
    intros k pad bb.
    split; [field|]. split; [field|]. intros pos. split; field.
Qed.

Lemma zero_bbox_projection_witness :
  let st' := MapView.initEffect [Examples.lonely] Examples.surface
               (MapView.mount Examples.surface) in
  let cd := MapView.coordinateData (MapView.bounds [Examples.lonely]) Examples.surface in
  let lst' := SystemView.initEffect (Some Examples.lone_planet) Examples.surface
                (SystemView.mount Examples.surface) in
  let ocd := SystemView.coordinateData (SystemView.objectBounds (Some Examples.lone_planet))
               Examples.surface in
  (MapView.scale cd == Qmin (800 - 100) (600 - 100)
   /\ Viewport.screenX Examples.surface (MapView.camera st')
        (MapView.toCanvasX cd (MapView.posX Examples.lonely)) == 800 / 2)
  /\ (SystemView.scale ocd == Qmin (800 - 200) (600 - 200)
      /\ Viewport.screenX Examples.surface (SystemView.camera lst')
           (fst (SystemView.toCanvasCoords ocd Examples.surface
                   {| SystemView.pos_x := 10; SystemView.pos_y := 0;
                      SystemView.pos_z := 0 |}))
         == 800 / 2 + SystemView.scale ocd * 10).
Proof.
  intros st' cd lst' ocd.
  pose proof (zero_bbox_projection [Examples.lonely] Examples.lone_planet Examples.surface
                (MapView.mount Examples.surface) (SystemView.mount Examples.surface)) as H.
  destruct H as [(_ & _ & H1 & _ & _ & H2) (_ & _ & H3 & _ & _ & _ & _ & H4)];
    try (vm_compute; reflexivity); try discriminate.
  split; split.
  - exact H1.
  - apply (H2 Examples.lonely). apply list_elem_of_In. left. reflexivity.
  - exact H3.
  - apply (H4 {| SystemView.pos_x := 10; SystemView.pos_y := 0; SystemView.pos_z := 0 |}).
Defined.

(** ** Camera: cursor-anchored zoom and the zoom invariant *)

Lemma wheelFrame_zoom (dims : Dimensions) (cam : Camera) (mx my d : Q) :
  cam_zoom (Viewport.wheelFrame dims cam mx my d)
  = Js.clamp 0.1 10 (cam_zoom cam * (1 + d)).
Proof. reflexivity. Qed.

Lemma wheelFrame_zoom_ok (dims : Dimensions) (cam : Camera) (mx my d : Q) :
  Viewport.zoom_ok (Viewport.wheelFrame dims cam mx my d).
Proof.
  unfold Viewport.zoom_ok. rewrite wheelFrame_zoom.
  apply clamp_bounds. discriminate.
Qed.

Lemma zoom_ok_nonzero (cam : Camera) : Viewport.zoom_ok cam -> ~ cam_zoom cam == 0.
Proof. unfold Viewport.zoom_ok. intros [H _] E. rewrite E in H. apply H. reflexivity. Qed.

(** One wheel frame keeps the pre-camera point under the cursor. *)
Lemma wheelFrame_anchor (dims : Dimensions) (cam : Camera) (mx my d : Q) :
  Viewport.zoom_ok cam ->
  Viewport.worldX dims (Viewport.wheelFrame dims cam mx my d) mx
  == Viewport.worldX dims cam mx
  /\ Viewport.worldY dims (Viewport.wheelFrame dims cam mx my d) my
     == Viewport.worldY dims cam my.
Proof.
  intros Hz.
  pose proof (zoom_ok_nonzero _ Hz) as Hz0.
  pose proof (zoom_ok_nonzero _ (wheelFrame_zoom_ok dims cam mx my d)) as Hn0.
  unfold Viewport.worldX, Viewport.worldY.
  remember (cam_zoom (Viewport.wheelFrame dims cam mx my d)) as nz eqn:Enz.
  assert (Ex : cam_x (Viewport.wheelFrame dims cam mx my d)
               = mx - width dims / 2
                 - (mx - width dims / 2 - cam_x cam) / cam_zoom cam * nz)
    by (subst nz; reflexivity).
  assert (Ey : cam_y (Viewport.wheelFrame dims cam mx my d)
               = my - height dims / 2
                 - (my - height dims / 2 - cam_y cam) / cam_zoom cam * nz)
    by (subst nz; reflexivity).
  rewrite Ex, Ey. clear Ex Ey Enz.
  split; field; split; assumption.
Qed.

(** The anchored point is drawn back at the cursor by the canvas transform. *)
Lemma screen_of_world (dims : Dimensions) (cam : Camera) (mx my : Q) :
  ~ cam_zoom cam == 0 ->
  Viewport.screenX dims cam (Viewport.worldX dims cam mx) == mx
  /\ Viewport.screenY dims cam (Viewport.worldY dims cam my) == my.
Proof.
  intros Hz. unfold Viewport.screenX, Viewport.screenY, Viewport.worldX, Viewport.worldY.
  split; field; assumption.
Qed.

(** The computation of the frame alone, on one camera value: it sets
    the zoom to [clamp(zoom * (1 + d), 0.1, 10)] and, for a camera with
    zoom in [0.1, 10], the pre-camera point under the cursor [(mx, my)]
    before a sequence of zoom deltas is still under the cursor after
    every frame of the sequence. *)
Lemma wheelFrame_sequence_anchored (dims : Dimensions) (cam : Camera) (mx my : Q)
      (deltas : list Q) :
  Viewport.zoom_ok cam ->
  let cam' := fold_left (fun c d => Viewport.wheelFrame dims c mx my d) deltas cam in
  (forall d, cam_zoom (Viewport.wheelFrame dims cam' mx my d)
             = Js.clamp 0.1 10 (cam_zoom cam' * (1 + d)))
  /\ Viewport.zoom_ok cam'
  /\ Viewport.worldX dims cam' mx == Viewport.worldX dims cam mx
  /\ Viewport.worldY dims cam' my == Viewport.worldY dims cam my
  /\ Viewport.screenX dims cam' (Viewport.worldX dims cam mx) == mx
  /\ Viewport.screenY dims cam' (Viewport.worldY dims cam my) == my.
Proof.
  intros Hz cam'.
  split; [intros d; apply wheelFrame_zoom|].
  assert (H : Viewport.zoom_ok cam'
              /\ Viewport.worldX dims cam' mx == Viewport.worldX dims cam mx
              /\ Viewport.worldY dims cam' my == Viewport.worldY dims cam my).
  { subst cam'. revert cam Hz.
    induction deltas as [|d deltas IH]; intros cam Hz; simpl.
    - repeat split; try reflexivity; apply Hz.
    - destruct (IH _ (wheelFrame_zoom_ok dims cam mx my d)) as (Hok & Hx & Hy).
      destruct (wheelFrame_anchor dims cam mx my d Hz) as [Hx1 Hy1].
      split; [exact Hok|]. split.
      + rewrite Hx. exact Hx1.
      + rewrite Hy. exact Hy1. }
  destruct H as (Hok & Hx & Hy).
  split; [exact Hok|]. split; [exact Hx|]. split; [exact Hy|].
  destruct (screen_of_world dims cam' mx my (zoom_ok_nonzero _ Hok)) as [Sx Sy].
  split.
  - rewrite <- Sx at 2. unfold Viewport.screenX. rewrite Hx. reflexivity.
  - rewrite <- Sy at 2. unfold Viewport.screenY. rewrite Hy. reflexivity.
Qed.

(** The point that was under the cursor before a wheel frame is drawn
    under the cursor by the camera the frame computes. *)
Lemma wheelFrame_redraw (dims : Dimensions) (cam : Camera) (mx my d : Q) :
  Viewport.zoom_ok cam ->
  let cam' := Viewport.wheelFrame dims cam mx my d in
  Viewport.screenX dims cam' (Viewport.worldX dims cam mx) == mx
  /\ Viewport.screenY dims cam' (Viewport.worldY dims cam my) == my.
Proof.
  intros Hz cam'.
  destruct (wheelFrame_anchor dims cam mx my d Hz) as [Hx Hy]. fold cam' in Hx, Hy.
  pose proof (zoom_ok_nonzero _ (wheelFrame_zoom_ok dims cam mx my d)) as Hn0.
  fold cam' in Hn0.
  destruct (screen_of_world dims cam' mx my Hn0) as [Sx Sy].
  split.
  - rewrite <- Sx at 2. unfold Viewport.screenX. rewrite Hx. reflexivity.
  - rewrite <- Sy at 2. unfold Viewport.screenY. rewrite Hy. reflexivity.
Qed.

(** In a state of the map view whose camera state equals the camera
    ref, a wheel tick and its frame set the zoom of the drawn camera to
    [clamp(zoom * (1 + d), 0.1, 10)], with [d] the accumulated delta, and
    keep the drawn point under the cursor. *)
Lemma mapview_wheel_synced (systems : list MapView.SolarSystem) (st : MapView.State)
      (deltaYpos : bool) (clientX clientY : Q) (canvasRect : Rect) :
  MapView.camera st = MapView.cameraRef st ->
  Viewport.zoom_ok (MapView.cameraRef st) ->
  let st' := MapView.run systems st
               [MapView.EWheel deltaYpos clientX clientY; MapView.EWheelFrame canvasRect] in
  let dims := MapView.dimensions st in
  let mx := clientX - rect_left canvasRect in
  let my := clientY - rect_top canvasRect in
  let d := MapView.pendingZoomDelta st + (if deltaYpos then - 0.1 else 0.1) in
  cam_zoom (MapView.camera st') = Js.clamp 0.1 10 (cam_zoom (MapView.camera st) * (1 + d))
  /\ MapView.cameraRef st' = MapView.camera st'
  /\ Viewport.screenX dims (MapView.camera st') (Viewport.worldX dims (MapView.camera st) mx)
     == mx
  /\ Viewport.screenY dims (MapView.camera st') (Viewport.worldY dims (MapView.camera st) my)
     == my.
Proof.
  intros Hsync Hz st' dims mx my d.
  assert (E : MapView.camera st' = Viewport.wheelFrame dims (MapView.cameraRef st) mx my d
              /\ MapView.cameraRef st' = MapView.camera st') by (split; reflexivity).
  destruct E as [E Er]. rewrite E, Hsync.
  split; [reflexivity|]. split; [rewrite Er, E; reflexivity|].
  apply wheelFrame_redraw, Hz.
Qed.

(** The same in the local view. *)
Lemma systemview_wheel_synced (st : SystemView.State)
      (deltaYpos : bool) (clientX clientY : Q) (canvasRect : Rect) :
  SystemView.camera st = SystemView.cameraRef st ->
  Viewport.zoom_ok (SystemView.cameraRef st) ->
  let st' := SystemView.run st
               [SystemView.EWheel deltaYpos clientX clientY;
                SystemView.EWheelFrame canvasRect] in
  let dims := SystemView.dimensions st in
  let mx := clientX - rect_left canvasRect in
  let my := clientY - rect_top canvasRect in
  let d := SystemView.pendingZoomDelta st + (if deltaYpos then - 0.1 else 0.1) in
  cam_zoom (SystemView.camera st')
  = Js.clamp 0.1 10 (cam_zoom (SystemView.camera st) * (1 + d))
  /\ SystemView.cameraRef st' = SystemView.camera st'
  /\ Viewport.screenX dims (SystemView.camera st')
       (Viewport.worldX dims (SystemView.camera st) mx) == mx
  /\ Viewport.screenY dims (SystemView.camera st')
       (Viewport.worldY dims (SystemView.camera st) my) == my.
Proof.
  intros Hsync Hz st' dims mx my d.
  assert (E : SystemView.camera st'
              = Viewport.wheelFrame dims (SystemView.cameraRef st) mx my d
              /\ SystemView.cameraRef st' = SystemView.camera st') by (split; reflexivity).
  destruct E as [E Er]. rewrite E, Hsync.
  split; [reflexivity|]. split; [rewrite Er, E; reflexivity|].
  apply wheelFrame_redraw, Hz.
Qed.

(** C4, at a failing input: the map view of [Examples.four_systems] on
    a 1000 x 1000 surface is initialised (camera state and camera ref
    [(0, 0, 2)]) and the search result "system 1" is selected: the camera
    state, which the canvas draws, becomes [(32, 0, 8)], its zoom is in
    [0.1, 10], and the camera ref keeps [(0, 0, 2)].  The cursor at
    (600, 400) is then over the drawn point (508.5, 487.5).  One wheel-up
    tick there (accumulated delta 0.1) and its frame compute the update
    from the ref: the zoom becomes 2.2, not [clamp(8 * 1.1)] which is
    8.8, and the point that was under the cursor is drawn at
    (508.7, 482.5), not at (600, 400). *)
Theorem wheel_after_selection_not_anchored :
  let initial := MapView.run Examples.four_systems (MapView.mount Examples.square)
                   [MapView.EInit Examples.square] in
  let selected := MapView.run Examples.four_systems initial
                    [MapView.ESelect MapView.RSystem 1] in
  let zoomed := MapView.run Examples.four_systems selected
                  [MapView.EWheel false 600 400; MapView.EWheelFrame Examples.noOffset] in
  let px := Viewport.worldX Examples.square (MapView.camera selected) 600 in
  let py := Viewport.worldY Examples.square (MapView.camera selected) 400 in
  (MapView.cameraRef initial = MapView.camera initial
   /\ MapView.cameraRef selected = MapView.cameraRef initial
   /\ cam_x (MapView.camera selected) == 32
   /\ cam_y (MapView.camera selected) == 0
   /\ cam_zoom (MapView.camera selected) == 8
   /\ cam_zoom (MapView.cameraRef selected) == 2
   /\ Viewport.zoom_ok (MapView.camera selected))
  /\ (px == 508.5 /\ py == 487.5
      /\ Viewport.screenX Examples.square (MapView.camera selected) px == 600
      /\ Viewport.screenY Examples.square (MapView.camera selected) py == 400)
  /\ (MapView.pendingZoomDelta selected + 0.1 == 0.1
      /\ Js.clamp 0.1 10 (cam_zoom (MapView.camera selected) * (1 + 0.1)) == 8.8
      /\ cam_zoom (MapView.camera zoomed) == 2.2
      /\ ~ cam_zoom (MapView.camera zoomed)
           == Js.clamp 0.1 10 (cam_zoom (MapView.camera selected) * (1 + 0.1)))
  /\ (Viewport.screenX Examples.square (MapView.camera zoomed) px == 508.7
      /\ Viewport.screenY Examples.square (MapView.camera zoomed) py == 482.5
      /\ ~ Viewport.screenX Examples.square (MapView.camera zoomed) px == 600
      /\ ~ Viewport.screenY Examples.square (MapView.camera zoomed) py == 400).
Proof.
  vm_compute. repeat split; discriminate.
Qed.

Lemma mapview_step_zoom_ok (systems : list MapView.SolarSystem)
      (st : MapView.State) (e : MapView.Event) :
  Viewport.zoom_ok (MapView.camera st) ->
  Viewport.zoom_ok (MapView.cameraRef st) ->
  Viewport.zoom_ok (MapView.camera (MapView.step systems st e))
  /\ Viewport.zoom_ok (MapView.cameraRef (MapView.step systems st e)).
Proof.
  intros Hc Hr.
  assert (H2 : Viewport.zoom_ok {| cam_x := 0; cam_y := 0; cam_zoom := 2 |})
    by (split; discriminate).
  destruct e; simpl.
  - unfold MapView.initEffect. destruct systems; simpl; split; try assumption;
      split; discriminate.
  - split; assumption.
  - unfold MapView.wheelRaf. destruct (MapView.wheelRafId st); simpl.
    + split; apply wheelFrame_zoom_ok.
    + split; assumption.
  - split; assumption.
  - unfold MapView.handleMouseMove. destruct (MapView.isDragging st); simpl;
      split; assumption.
  - unfold MapView.dragRaf. destruct (MapView.renderRequested st); simpl;
      split; assumption.
  - destruct (MapView.isDragging st); split; assumption.
  - split; assumption.
  - unfold MapView.handleSelectResult. destruct type.
    + destruct (MapView.systemMap systems id); simpl;
        (split; [first [assumption | split; discriminate] | assumption]).
    + destruct (List.filter _ systems); simpl;
        (split; [first [assumption | split; discriminate] | assumption]).
Qed.

Lemma systemview_step_zoom_ok (st : SystemView.State) (e : SystemView.Event) :
  Viewport.zoom_ok (SystemView.camera st) ->
  Viewport.zoom_ok (SystemView.cameraRef st) ->
  Viewport.zoom_ok (SystemView.camera (SystemView.step st e))
  /\ Viewport.zoom_ok (SystemView.cameraRef (SystemView.step st e)).
Proof.
  intros Hc Hr.
  destruct e; simpl.
  - unfold SystemView.initEffect.
    destruct systemData; simpl; split; try assumption; split; discriminate.
  - split; assumption.
  - unfold SystemView.wheelRaf. destruct (SystemView.wheelRafId st); simpl.
    + split; apply wheelFrame_zoom_ok.
    + split; assumption.
  - split; assumption.
  - unfold SystemView.handleMouseMove.
    destruct (SystemView.isDragging st); simpl; split; assumption.
  - unfold SystemView.dragRaf.
    destruct (SystemView.renderRequested st); simpl; split; assumption.
  - destruct (SystemView.isDragging st); split; assumption.
  - split; assumption.
Qed.

(** C5: whatever the sequence of camera operations (initial placement,
    wheel events and their frames with any accumulated delta, drag pan,
    search-result selection), the zoom of the camera state and of the
    camera ref stays in [0.1, 10], in the map view and in the local view. *)
Theorem zoom_never_leaves_range (systems : list MapView.SolarSystem)
        (dims : Dimensions) (mapEvents : list MapView.Event)
        (systemEvents : list SystemView.Event) :
  let st := MapView.run systems (MapView.mount dims) mapEvents in
  let st' := SystemView.run (SystemView.mount dims) systemEvents in
  (Viewport.zoom_ok (MapView.camera st) /\ Viewport.zoom_ok (MapView.cameraRef st))
  /\ (Viewport.zoom_ok (SystemView.camera st')
      /\ Viewport.zoom_ok (SystemView.cameraRef st')).
Proof.
  split.
  - unfold MapView.run.
    assert (H0 : Viewport.zoom_ok (MapView.camera (MapView.mount dims))
                 /\ Viewport.zoom_ok (MapView.cameraRef (MapView.mount dims)))
      by (split; split; discriminate).
    revert H0. generalize (MapView.mount dims).
    induction mapEvents as [|e es IH]; intros st0 [Hc Hr]; simpl.
    + split; assumption.
    + apply IH. apply mapview_step_zoom_ok; assumption.
  - unfold SystemView.run.
    assert (H0 : Viewport.zoom_ok (SystemView.camera (SystemView.mount dims))
                 /\ Viewport.zoom_ok (SystemView.cameraRef (SystemView.mount dims)))
      by (split; split; discriminate).
    revert H0. generalize (SystemView.mount dims).
    induction systemEvents as [|e es IH]; intros st0 [Hc Hr]; simpl.
    + split; assumption.
    + apply IH. apply systemview_step_zoom_ok; assumption.
Qed.

(** ** Spatial queries *)

(** C2, at a failing input: on a 1000 x 1000 surface with camera
    [(0, 0, 1)], [Examples.far_left] is drawn at (496, 500) and
    [Examples.near_centre] at (500, 500).  A click at (501, 501) is within
    the click radius 10 of both; the nearest is [near_centre] (key 2, the
    one the hover query reports) but [handleMouseUp] navigates to
    [far_left] (key 1), the first in array order. *)
Lemma map_click_first_hit_not_nearest :
  let cd := MapView.coordinateData (MapView.bounds Examples.four_systems) Examples.square in
  let wx := Viewport.worldX Examples.square Examples.unit_camera 501 in
  let wy := Viewport.worldY Examples.square Examples.unit_camera 501 in
  let d2 s := Js.dist2 wx wy (MapView.toCanvasX cd (MapView.posX s))
                       (MapView.toCanvasY cd Examples.square (MapView.posY s)) in
  MapView.handleMouseUp Examples.four_systems Examples.noOffset
    (Examples.idle Examples.square Examples.unit_camera (501, 501)) 501 501 = Some 1%N
  /\ MapView._key <$> MapView.hoverQuery Examples.four_systems cd Examples.square
                                          Examples.unit_camera 501 501 = Some 2%N
  /\ d2 Examples.far_left == 26
  /\ d2 Examples.near_centre == 2.
Proof. vm_compute. repeat split. Qed.

(** The claim read as a property of the click query: the system handed
    to the router is never farther from the cursor than another system. *)
Lemma map_click_nearest_fails :
  ~ (forall (systems : list MapView.SolarSystem) (dims : Dimensions) (cam : Camera)
            (mx my : Q) (hit other : MapView.SolarSystem),
        let cd := MapView.coordinateData (MapView.bounds systems) dims in
        let d2 s := Js.dist2 (Viewport.worldX dims cam mx) (Viewport.worldY dims cam my)
                             (MapView.toCanvasX cd (MapView.posX s))
                             (MapView.toCanvasY cd dims (MapView.posY s)) in
        MapView.clickQuery systems cd dims cam mx my = Some hit ->
        other ∈ systems ->
        d2 hit <= d2 other).
Proof.
  intros H.
  specialize (H Examples.four_systems Examples.square Examples.unit_camera 501 501
                Examples.far_left Examples.near_centre eq_refl).
  assert (Hin : Examples.near_centre ∈ Examples.four_systems)
    by (apply list_elem_of_In; simpl; tauto).
  specialize (H Hin). vm_compute in H. apply H. reflexivity.
Qed.

(** C7, at a failing input: in the frame of [Examples.star_and_planet]
    on the 800 x 600 surface the planet's marker has drawn radius 6 and
    sits at (700, 500).  At zoom 2 the claim gives the hover radius
    [(6 + 3) / 2 = 4.5] and the click radius [(6 + 5) / 2 = 5.5], while
    [findObjectAtPosition] uses [6 / 2 + 3 = 6] and [6 / 2 + 5 = 8].
    With the cursor at (400, 300), over the point (700, 495), the hover
    query returns the planet at distance 5, outside the claimed radius
    4.5; on the screen the cursor is 10 pixels from the centre of a
    marker drawn with a radius of 6 pixels.  With the cursor at
    (400, 296) the click query returns the planet at distance 7, outside
    the claimed radius 5.5. *)
Theorem local_hit_buffer_not_scaled :
  match Examples.planet_cache !! (SystemView.KPlanet, 0%nat) with
  | Some adjusted =>
    SystemView.adj_x adjusted == 700 /\ SystemView.adj_y adjusted == 500
    /\ SystemView.adj_radius adjusted == 6
    /\ (SystemView.adj_radius adjusted + SystemView.hoverBuffer)
       / cam_zoom Examples.zoom2_camera == 4.5
    /\ (SystemView.adj_radius adjusted + SystemView.clickBuffer)
       / cam_zoom Examples.zoom2_camera == 5.5
    /\ SystemView.detectionRadius adjusted Examples.zoom2_camera SystemView.hoverBuffer == 6
    /\ SystemView.detectionRadius adjusted Examples.zoom2_camera SystemView.clickBuffer == 8
    /\ Js.dist2 400 300
         (Viewport.screenX Examples.surface Examples.zoom2_camera (SystemView.adj_x adjusted))
         (Viewport.screenY Examples.surface Examples.zoom2_camera (SystemView.adj_y adjusted))
       == 10 * 10
  | None => False
  end
  /\ (Viewport.worldX Examples.surface Examples.zoom2_camera 400 == 700
      /\ Viewport.worldY Examples.surface Examples.zoom2_camera 300 == 495
      /\ SystemView.hoverQuery (Some Examples.star_and_planet) Examples.planet_cache
           Examples.surface Examples.zoom2_camera 400 300 = Some Examples.planet_hit
      /\ SystemView.found_distance2 Examples.planet_hit == 5 * 5
      /\ Js.sqrt_lt (SystemView.found_distance2 Examples.planet_hit) (Js.Num 4.5) = false)
  /\ (Viewport.worldY Examples.surface Examples.zoom2_camera 296 == 493
      /\ match SystemView.clickQuery (Some Examples.star_and_planet) Examples.planet_cache
                 Examples.surface Examples.zoom2_camera 400 296 with
         | Some found =>
           SystemView.found_ref found = (SystemView.KPlanet, 0%nat)
           /\ SystemView.found_distance2 found == 7 * 7
           /\ Js.sqrt_lt (SystemView.found_distance2 found) (Js.Num 5.5) = false
         | None => False
         end).
Proof.
  vm_compute. repeat split; discriminate.
Qed.

(** ** Marker icons: the image cache *)




Lemma imageFrame_cache (st : SystemView.ImageStore) :
  SystemView.imageCache (SystemView.imageFrame st) = SystemView.imageCache st.
Proof. unfold SystemView.imageFrame. destruct (SystemView.imageLoadRafId st); reflexivity. Qed.




(** ** The alliance-sovereignty overlay *)

Lemma result_fold_lookup (names : gmap N string)
      (entries : list AllianceSovereignty.SovEntry)
      (acc : gmap N MapView.AllianceInfo) (s : N) :
  is_Some (fold_left
             (fun res entry =>
                if AllianceSovereignty.truthy (AllianceSovereignty.alliance_id entry) then
                  let aid := default 0%N (AllianceSovereignty.alliance_id entry) in
                  <[AllianceSovereignty.system_id entry :=
                      {| MapView.info_alliance_id := aid;
                         MapView.info_alliance_name :=
                           AllianceSovereignty.nameOf names aid |}]> res
                else res) entries acc !! s)
  <-> is_Some (acc !! s)
      \/ exists entry, entry ∈ entries
                       /\ AllianceSovereignty.system_id entry = s
                       /\ AllianceSovereignty.truthy
                            (AllianceSovereignty.alliance_id entry) = true.
Proof.
  revert acc. induction entries as [|e entries IH]; intros acc; simpl.
  - split; [auto|]. intros [H|(x & Hx & _)]; [exact H | inversion Hx].
  - rewrite IH. clear IH.
    destruct (AllianceSovereignty.truthy (AllianceSovereignty.alliance_id e)) eqn:Et.
    + rewrite lookup_insert.
      destruct (decide (AllianceSovereignty.system_id e = s)) as [Es|Hne].
      * split; [|eauto]. intros _. right. exists e. split; [left|auto].
      * split.
        -- intros [H|(x & Hx & Hs & Ht)]; [auto|]. right. exists x. split; [right|]; auto.
        -- intros [H|(x & Hx & Hs & Ht)]; [auto|].
           apply elem_of_cons in Hx as [->|Hx]; [congruence|]. right. eauto.
    + split.
      * intros [H|(x & Hx & Hs & Ht)]; [auto|]. right. exists x. split; [right|]; auto.
      * intros [H|(x & Hx & Hs & Ht)]; [auto|].
        apply elem_of_cons in Hx as [->|Hx]; [congruence|]. right. eauto.
Qed.

(** The overlay holds [s] exactly when some entry for [s] passes the
    filter of the endpoint. *)
Lemma result_lookup (sovMap : list AllianceSovereignty.SovEntry)
      (allianceNames : list AllianceSovereignty.NameEntry) (s : N) :
  is_Some (AllianceSovereignty.result sovMap allianceNames !! s)
  <-> exists entry, entry ∈ sovMap
                    /\ AllianceSovereignty.system_id entry = s
                    /\ AllianceSovereignty.truthy (AllianceSovereignty.alliance_id entry) = true
                    /\ AllianceSovereignty.truthy (AllianceSovereignty.faction_id entry) = false.
Proof.
  unfold AllianceSovereignty.result. rewrite result_fold_lookup, lookup_empty.
  unfold AllianceSovereignty.allianceSystems. split.
  - intros [[x Hx]|(e & He & Hs & Ht)]; [discriminate|].
    apply list_elem_of_In, filter_In in He as [He Hf].
    apply andb_true_iff in Hf as [_ Hf]. apply negb_true_iff in Hf.
    exists e. split; [apply list_elem_of_In, He|]. auto.
  - intros (e & He & Hs & Ht & Hf). right. exists e. split; [|auto].
    apply list_elem_of_In, filter_In. split; [apply list_elem_of_In, He|].
    rewrite Ht, Hf. reflexivity.
Qed.

(** Systems without an overlay entry do not enter any alliance group. *)
Lemma allianceSystems_skips (data : gmap N MapView.AllianceInfo)
      (cd : MapView.CoordinateData) (dims : Dimensions)
      (before after : list MapView.SolarSystem) (system : MapView.SolarSystem) :
  data !! MapView._key system = None ->
  MapView.allianceSystems (before ++ system :: after) cd dims data
  = MapView.allianceSystems (before ++ after) cd dims data.
Proof.
  intros Hnone. unfold MapView.allianceSystems.
  rewrite !fold_left_app. simpl. unfold MapView.allianceInfoOf at 2.
  rewrite Hnone. reflexivity.
Qed.

Lemma truthy_spec (o : option N) :
  AllianceSovereignty.truthy o = true <-> exists n, o = Some n /\ n <> 0%N.
Proof.
  destruct o as [n|]; simpl.
  - rewrite negb_true_iff, N.eqb_neq. split.
    + intros Hn. exists n. split; [reflexivity | exact Hn].
    + intros (m & [= <-] & Hm). exact Hm.
  - split; [discriminate|]. intros (n & Hn & _). discriminate.
Qed.

Lemma falsy_spec (o : option N) :
  AllianceSovereignty.truthy o = false <-> o = None \/ o = Some 0%N.
Proof.
  destruct o as [n|]; simpl.
  - rewrite negb_false_iff, N.eqb_eq. split.
    + intros ->. right. reflexivity.
    + intros [H|[= ->]]; [discriminate | reflexivity].
  - split; [intros _; left; reflexivity | reflexivity].
Qed.

(** C10, as stated, fails for identifiers equal to [0], in both
    directions: in [Examples.sov_zero_ids] system 30000001 is listed with
    an [alliance_id] (the number 0) and without a [faction_id], and the
    overlay has no entry for it; system 30000002 is listed with a
    [faction_id] (the number 0), and the overlay has an entry for it. *)
Lemma alliance_overlay_zero_id_counterexample :
  let overlay := AllianceSovereignty.result Examples.sov_zero_ids Examples.sov_names in
  (AllianceSovereignty.listedForAlliance Examples.sov_zero_ids 30000001%N
   /\ overlay !! 30000001%N = None)
  /\ (is_Some (overlay !! 30000002%N)
      /\ ~ AllianceSovereignty.listedForAlliance Examples.sov_zero_ids 30000002%N
      /\ forall entry, entry ∈ Examples.sov_zero_ids ->
                       AllianceSovereignty.system_id entry = 30000002%N ->
                       is_Some (AllianceSovereignty.faction_id entry)).
Proof.
  intros overlay. split; [split|split; [|split]].
  - eexists. split; [left|]. simpl. split; [reflexivity|].
    split; [eexists; reflexivity | reflexivity].
  - vm_compute. reflexivity.
  - vm_compute. eexists; reflexivity.
  - intros (entry & Hin & Hs & _ & Hf).
    apply list_elem_of_In in Hin. simpl in Hin.
    destruct Hin as [<-|[<-|[]]]; simpl in Hs, Hf; discriminate.
  - intros entry Hin Hs.
    apply list_elem_of_In in Hin. simpl in Hin.
    destruct Hin as [<-|[<-|[]]]; simpl in Hs; try discriminate Hs.
    eexists; reflexivity.
Qed.

(** C10 (amended): the alliance overlay has an entry for a system if
    and only if the sovereignty map lists that system with an
    [alliance_id] other than 0 and with no [faction_id] other than 0 (an
    identifier 0 counts as absent); for a map without identifiers 0 that
    is: with an [alliance_id] and without a [faction_id].  A system all
    of whose entries carry a [faction_id] other than 0 has no entry even
    when an [alliance_id] is present, and in alliance mode it is drawn in
    the neutral colour and joins no alliance group (it is unclustered). *)
Theorem alliance_overlay_membership (sovMap : list AllianceSovereignty.SovEntry)
        (allianceNames : list AllianceSovereignty.NameEntry) (s : N) :
  let overlay := AllianceSovereignty.result sovMap allianceNames in
  (is_Some (overlay !! s) <-> AllianceSovereignty.claimedByAlliance sovMap s)
  /\ (Forall AllianceSovereignty.validEntry sovMap ->
      (is_Some (overlay !! s) <-> AllianceSovereignty.listedForAlliance sovMap s))
  /\ ((forall entry, entry ∈ sovMap -> AllianceSovereignty.system_id entry = s ->
                     exists factionId, AllianceSovereignty.faction_id entry = Some factionId
                                       /\ factionId <> 0%N) ->
      overlay !! s = None
      /\ forall system, MapView._key system = s ->
           MapView.allianceModeColor (Some overlay) system = MapView.Neutral
           /\ forall cd dims before after,
               MapView.allianceSystems (before ++ system :: after) cd dims overlay
               = MapView.allianceSystems (before ++ after) cd dims overlay).
Proof.
  intros overlay.
  assert (Hiff : is_Some (overlay !! s) <-> AllianceSovereignty.claimedByAlliance sovMap s).
  { unfold overlay. rewrite result_lookup. unfold AllianceSovereignty.claimedByAlliance.
    split; intros (e & He & Hs & Ha & Hf); exists e;
      (split; [exact He|]); (split; [exact Hs|]).
    - split; [apply truthy_spec, Ha | apply falsy_spec, Hf].
    - split; [apply truthy_spec, Ha | apply falsy_spec, Hf]. }
  split; [exact Hiff|]. split.
  - intros Hvalid. rewrite Hiff.
    unfold AllianceSovereignty.claimedByAlliance, AllianceSovereignty.listedForAlliance.
    rewrite Forall_forall in Hvalid.
    split; intros (e & He & Hs & Ha & Hf); exists e;
      (split; [exact He|]); (split; [exact Hs|]);
      destruct (Hvalid e He) as [Va Vf].
    + split.
      * destruct Ha as (a & Ha & _). rewrite Ha. eexists; reflexivity.
      * destruct Hf as [Hf|Hf]; [exact Hf | congruence].
    + split.
      * destruct Ha as [a Ha]. exists a. split; [exact Ha|]. intros ->. congruence.
      * left. exact Hf.
  - intros Hfaction.
    assert (Hnone : overlay !! s = None).
    { destruct (overlay !! s) eqn:E; [|reflexivity]. exfalso.
      destruct (proj1 Hiff (ex_intro _ _ eq_refl)) as (e & He & Hs & _ & Hf).
      destruct (Hfaction e He Hs) as (f & Hx & Hf0).
      destruct Hf as [Hf|Hf]; congruence. }
    split; [exact Hnone|].
    intros system <-. split.
    + simpl. unfold MapView.allianceInfoOf. rewrite Hnone. reflexivity.
    + intros cd dims before after. apply allianceSystems_skips, Hnone.
Qed.

Lemma alliance_overlay_membership_witness :
  let overlay := AllianceSovereignty.result Examples.sov_map Examples.sov_names in
  is_Some (overlay !! 30000721%N) /\ overlay !! 30000142%N = None.
Proof.
  intros overlay.
  assert (Hvalid : Forall AllianceSovereignty.validEntry Examples.sov_map).
  { unfold Examples.sov_map.
    repeat (apply List.Forall_cons; [split; simpl; discriminate|]). apply List.Forall_nil. }
  split.
  - destruct (alliance_overlay_membership Examples.sov_map Examples.sov_names
                30000721%N) as (_ & Hiff & _).
    apply (Hiff Hvalid). eexists. split; [left|]. simpl. split; [reflexivity|].
    split; [eexists; reflexivity | reflexivity].
  - destruct (alliance_overlay_membership Examples.sov_map Examples.sov_names
                30000142%N) as (_ & _ & Hex).
    apply Hex. intros entry Hin Hs.
    apply list_elem_of_In in Hin. simpl in Hin.
    destruct Hin as [<-|[<-|[<-|[]]]]; simpl in Hs; try discriminate Hs.
    eexists. split; [reflexivity | discriminate].
Defined.

(** ** Template strings are injective *)

Lemma dash_not_digit : Template.not_digit "-".
Proof. intros d. unfold pretty_N_char. repeat case_match; discriminate. Qed.

Lemma comma_not_digit : Template.not_digit ",".
Proof. intros d. unfold pretty_N_char. repeat case_match; discriminate. Qed.

Lemma pretty_N_go_occurs (c : ascii) (x : N) (s : string) :
  Template.not_digit c -> Template.occurs c (pretty_N_go x s) = Template.occurs c s.
Proof.
  intros Hc. revert s. induction (N.lt_wf_0 x) as [x _ IH]. intros s.
  destruct (decide (x = 0)%N) as [->|Hx].
  - rewrite pretty_N_go_0. reflexivity.
  - rewrite pretty_N_go_step by lia. rewrite IH by (apply N.div_lt; lia).
    simpl. destruct (Ascii.eqb_spec c (pretty_N_char (x `mod` 10))) as [E|E]; [|reflexivity].
    exfalso. apply (Hc (x `mod` 10)%N). congruence.
Qed.

Lemma pretty_N_occurs (c : ascii) (x : N) : Template.not_digit c -> Template.occurs c (pretty x) = false.
Proof.
  intros Hc. unfold pretty, pretty_N. case_decide.
  - simpl. destruct (Ascii.eqb_spec c "0") as [E|E]; [|reflexivity].
    exfalso. apply (Hc 0%N). rewrite E. reflexivity.
  - rewrite pretty_N_go_occurs by exact Hc. reflexivity.
Qed.

Lemma pretty_nat_occurs (c : ascii) (x : nat) : Template.not_digit c -> Template.occurs c (pretty x) = false.
Proof. apply pretty_N_occurs. Qed.

Lemma pretty_Z_occurs (c : ascii) (x : Z) :
  Template.not_digit c -> c <> "-"%char -> Template.occurs c (pretty x) = false.
Proof.
  intros Hc Hd. destruct x as [|p|p]; unfold pretty, pretty_Z.
  - simpl. destruct (Ascii.eqb_spec c "0") as [E|E]; [|reflexivity].
    exfalso. apply (Hc 0%N). rewrite E. reflexivity.
  - apply (pretty_N_occurs c (N.pos p) Hc).
  - simpl. destruct (Ascii.eqb_spec c "-") as [E|E]; [contradiction|].
    apply (pretty_N_occurs c (N.pos p) Hc).
Qed.

Lemma join_inj (c : ascii) (s1 s2 t1 t2 : string) :
  Template.occurs c s1 = false -> Template.occurs c t1 = false ->
  s1 +:+ String c s2 = t1 +:+ String c t2 -> s1 = t1 /\ s2 = t2.
Proof.
  revert t1. induction s1 as [|a s1 IH]; intros [|b t1]; simpl; intros H1 H2 E.
  - injection E as ->. auto.
  - injection E as -> _. rewrite Ascii.eqb_refl in H2. discriminate.
  - injection E as -> _. rewrite Ascii.eqb_refl in H1. discriminate.
  - injection E as -> E. apply orb_false_iff in H1 as [_ H1], H2 as [_ H2].
    destruct (IH _ H1 H2 E) as [-> ->]. auto.
Qed.

(** ** Stargate connections *)

Lemma dash_key_inj (a b c d : N) :
  pretty a +:+ "-" +:+ pretty b = pretty c +:+ "-" +:+ pretty d -> a = c /\ b = d.
Proof.
  intros E. apply join_inj in E as [Ea Eb];
    try (apply pretty_N_occurs, dash_not_digit).
  split; eapply (inj pretty); eassumption.
Qed.

Lemma connectionKey_sym (a b : N) : MapData.connectionKey a b = MapData.connectionKey b a.
Proof.
  unfold MapData.connectionKey.
  destruct (N.ltb_spec a b), (N.ltb_spec b a); try reflexivity; try lia.
  assert (a = b) by lia. subst. reflexivity.
Qed.

Lemma connectionKey_inj (a b c d : N) :
  MapData.connectionKey a b = MapData.connectionKey c d
  <-> (a = c /\ b = d) \/ (a = d /\ b = c).
Proof.
  split.
  - unfold MapData.connectionKey.
    destruct (N.ltb_spec a b), (N.ltb_spec c d); intros E;
      apply dash_key_inj in E as [-> ->]; auto.
  - intros [[-> ->]|[-> ->]]; [reflexivity | apply connectionKey_sym].
Qed.

Lemma joins_key (a b : N) (c : MapData.Connection) :
  MapData.joins a b c = true <-> MapData.keyOf c = MapData.connectionKey a b.
Proof.
  unfold MapData.joins, MapData.keyOf. rewrite connectionKey_inj.
  rewrite orb_true_iff, !andb_true_iff, !N.eqb_eq. tauto.
Qed.

Lemma filter_key_absent (k : string) (f : MapData.Connection -> bool)
      (conns : list MapData.Connection) :
  (forall c, f c = true <-> MapData.keyOf c = k) ->
  k ∉ map MapData.keyOf conns -> List.filter f conns = [].
Proof.
  intros Hf. induction conns as [|c conns IH]; intros Hk; [reflexivity|].
  cbn [List.filter]. destruct (f c) eqn:Efc.
  - exfalso. apply Hk. apply Hf in Efc. rewrite <- Efc. left.
  - apply IH. intros H. apply Hk. right. exact H.
Qed.

Lemma filter_key_present (k : string) (f : MapData.Connection -> bool)
      (conns : list MapData.Connection) :
  (forall c, f c = true <-> MapData.keyOf c = k) ->
  NoDup (map MapData.keyOf conns) ->
  k ∈ map MapData.keyOf conns -> length (List.filter f conns) = 1%nat.
Proof.
  intros Hf. induction conns as [|c conns IH]; intros Hnd Hk; [inversion Hk|].
  cbn [map] in Hnd, Hk. apply NoDup_cons in Hnd as [Hnotin Hnd].
  cbn [List.filter]. destruct (f c) eqn:Efc.
  - apply Hf in Efc. subst k.
    rewrite (filter_key_absent (MapData.keyOf c) f conns Hf Hnotin). reflexivity.
  - apply IH; [exact Hnd|]. apply elem_of_cons in Hk as [Hk|Hk]; [|exact Hk].
    symmetry in Hk. apply Hf in Hk. congruence.
Qed.

Lemma dedup_invariant (allowed : gset N) (gates : list MapData.Stargate) :
  MapData.DedupInv allowed gates (fold_left (MapData.addGate allowed) gates (∅, [])).
Proof.
  induction gates as [|g gates IH] using rev_ind.
  - simpl. split; simpl.
    + intros k. split; intros H; [set_solver | inversion H].
    + constructor.
    + intros c H. inversion H.
    + intros g H. inversion H.
  - rewrite fold_left_app. simpl.
    destruct (fold_left (MapData.addGate allowed) gates (∅, [])) as [set conns].
    destruct IH as [Hset Hnd Hsound Hcompl]. simpl in *.
    unfold MapData.addGate.
    destruct (bool_decide (MapData.solarSystemID g ∈ allowed)) eqn:Ef; simpl.
    2:{ apply bool_decide_eq_false in Ef. split; simpl; auto.
        - intros c Hc. destruct (Hsound c Hc) as (? & ? & g' & ? & ?).
          repeat split; auto. exists g'. split; [apply elem_of_app; left|]; auto.
        - intros g' Hg' H1 H2. apply elem_of_app in Hg' as [Hg'|Hg']; [auto|].
          apply list_elem_of_singleton in Hg'. subst. contradiction. }
    destruct (bool_decide (MapData.destination_solarSystemID g ∈ allowed)) eqn:Et; simpl.
    2:{ apply bool_decide_eq_false in Et. split; simpl; auto.
        - intros c Hc. destruct (Hsound c Hc) as (? & ? & g' & ? & ?).
          repeat split; auto. exists g'. split; [apply elem_of_app; left|]; auto.
        - intros g' Hg' H1 H2. apply elem_of_app in Hg' as [Hg'|Hg']; [auto|].
          apply list_elem_of_singleton in Hg'. subst. contradiction. }
    apply bool_decide_eq_true in Ef, Et.
    destruct (bool_decide (_ ∈ set)) eqn:Ek.
    + apply bool_decide_eq_true in Ek. split; simpl; auto.
      * intros c Hc. destruct (Hsound c Hc) as (? & ? & g' & ? & ?).
        repeat split; auto. exists g'. split; [apply elem_of_app; left|]; auto.
      * intros g' Hg' H1 H2. apply elem_of_app in Hg' as [Hg'|Hg']; [auto|].
        apply list_elem_of_singleton in Hg'. subst. exact Ek.
    + apply bool_decide_eq_false in Ek. split; simpl.
      * intros k. rewrite elem_of_union, elem_of_singleton, map_app, elem_of_app, Hset.
        simpl. rewrite list_elem_of_singleton. unfold MapData.keyOf at 2. simpl. tauto.
      * rewrite map_app. apply NoDup_app. split; [exact Hnd|]. split.
        -- intros k Hk Hk'. simpl in Hk'. apply list_elem_of_singleton in Hk'.
           subst k. apply Ek, Hset, Hk.
        -- simpl. apply NoDup_singleton.
      * intros c Hc. apply elem_of_app in Hc as [Hc|Hc].
        -- destruct (Hsound c Hc) as (? & ? & g' & ? & ?).
           repeat split; auto. exists g'. split; [apply elem_of_app; left|]; auto.
        -- apply list_elem_of_singleton in Hc. subst c. simpl.
           repeat split; auto. exists g. split; [|auto].
           apply elem_of_app. right. apply list_elem_of_singleton. reflexivity.
      * intros g' Hg' H1 H2. apply elem_of_union.
        apply elem_of_app in Hg' as [Hg'|Hg']; [left; auto|].
        apply list_elem_of_singleton in Hg'. subst. right. apply elem_of_singleton. reflexivity.
Qed.

(** C9: the connections emitted by the map-data endpoint hold exactly
    one connection for each unordered pair of allowed systems that some
    stargate links (in either direction), and none for any other pair; in
    particular gates [(a, b)] and [(b, a)] yield a single connection. *)
Theorem one_connection_per_pair (allowedSystemIds : gset N)
        (stargates : list MapData.Stargate) (a b : N) :
  length (List.filter (MapData.joins a b)
                      (MapData.stargateConnections allowedSystemIds stargates))
  = if bool_decide (a ∈ allowedSystemIds) && bool_decide (b ∈ allowedSystemIds)
       && MapData.linked stargates a b
    then 1%nat else 0%nat.
Proof.
  unfold MapData.stargateConnections.
  pose proof (dedup_invariant allowedSystemIds stargates) as [Hset Hnd Hsound Hcompl].
  destruct (fold_left _ stargates (∅, [])) as [set conns]. simpl in *.
  destruct (bool_decide (MapData.connectionKey a b ∈ map MapData.keyOf conns)) eqn:E.
  - apply bool_decide_eq_true in E.
    rewrite (filter_key_present (MapData.connectionKey a b));
      [|apply joins_key|exact Hnd|exact E].
    apply list_elem_of_fmap in E as (c & Hk & Hc).
    destruct (Hsound c Hc) as (Hf & Ht & g & Hg & Hgf & Hgt).
    symmetry in Hk. apply connectionKey_inj in Hk.
    assert (Hl : MapData.linked stargates a b = true).
    { unfold MapData.linked. apply existsb_exists. exists g.
      split; [apply list_elem_of_In, Hg|].
      rewrite orb_true_iff, !andb_true_iff, !N.eqb_eq. rewrite Hgf, Hgt. tauto. }
    assert (Ha : a ∈ allowedSystemIds) by (destruct Hk as [[<- <-]|[<- <-]]; assumption).
    assert (Hb : b ∈ allowedSystemIds) by (destruct Hk as [[<- <-]|[<- <-]]; assumption).
    rewrite Hl, !bool_decide_eq_true_2 by assumption. reflexivity.
  - apply bool_decide_eq_false in E.
    rewrite (filter_key_absent (MapData.connectionKey a b));
      [|apply joins_key|exact E]. simpl.
    destruct (bool_decide (a ∈ allowedSystemIds)) eqn:Ea; [|reflexivity].
    destruct (bool_decide (b ∈ allowedSystemIds)) eqn:Eb; [|reflexivity].
    destruct (MapData.linked stargates a b) eqn:El; [|reflexivity].
    exfalso. apply E. apply bool_decide_eq_true in Ea, Eb.
    apply existsb_exists in El as (g & Hg & Hl). apply list_elem_of_In in Hg.
    rewrite orb_true_iff, !andb_true_iff, !N.eqb_eq in Hl.
    apply Hset.
    destruct Hl as [[E1 E2]|[E1 E2]].
    + rewrite <- E1, <- E2. apply Hcompl; [assumption|rewrite E1|rewrite E2]; assumption.
    + rewrite connectionKey_sym, <- E1, <- E2.
      apply Hcompl; [assumption|rewrite E1|rewrite E2]; assumption.
Qed.

(** The scenario of the specification: edges (1, 2) and (2, 1). *)
Example edges_1_2_once :
  MapData.stargateConnections Examples.allowed_1_2_3 Examples.gates_1_2
  = [ {| MapData.conn_from := 1; MapData.conn_to := 2 |};
      {| MapData.conn_from := 3; MapData.conn_to := 1 |} ].
Proof. vm_compute. reflexivity. Qed.

(** ** Alliance labels: proximity clustering *)

Lemma ltb_compat (a a' b b' : Q) : a == a' -> b == b' -> Js.ltb a b = Js.ltb a' b'.
Proof.
  intros Ha Hb. destruct (Js.ltb a b) eqn:E, (Js.ltb a' b') eqn:E'; try reflexivity.
  - apply ltb_lt in E. apply ltb_ge in E'. rewrite Ha, Hb in E.
    exfalso. apply (Qlt_not_le _ _ E E').
  - apply ltb_lt in E'. apply ltb_ge in E. rewrite Ha, Hb in E.
    exfalso. apply (Qlt_not_le _ _ E' E).
Qed.










(** The seed 0 reaches 3, and through it 2, which the first scan skipped. *)
Example chain_clusters : MapView.proximityClusters Examples.chain = [[0; 3; 2]; [1]]%nat.
Proof. vm_compute. reflexivity. Qed.

(** ** Collision-avoidance relaxation *)

Lemma pairKey_sym (a b : nat) : SystemView.pairKey a b = SystemView.pairKey b a.
Proof.
  unfold SystemView.pairKey.
  destruct (Nat.ltb_spec a b), (Nat.ltb_spec b a); try reflexivity; try lia.
  assert (a = b) by lia. subst. reflexivity.
Qed.

Lemma pairKey_inj (a b c d : nat) :
  SystemView.pairKey a b = SystemView.pairKey c d ->
  (a = c /\ b = d) \/ (a = d /\ b = c).
Proof.
  assert (Hinj : forall a b c d : nat,
             pretty a +:+ "," +:+ pretty b = pretty c +:+ "," +:+ pretty d ->
             a = c /\ b = d).
  { intros a0 b0 c0 d0 E. apply join_inj in E as [Ea Eb];
      try (apply pretty_nat_occurs, comma_not_digit).
    split; eapply (inj pretty); eassumption. }
  unfold SystemView.pairKey.
  destruct (Nat.ltb_spec a b), (Nat.ltb_spec c d); intros E;
    apply Hinj in E as [-> ->]; auto.
Qed.

Lemma distance2_sym (o1 o2 : SystemView.Marker) :
  SystemView.distance2 o1 o2 == SystemView.distance2 o2 o1.
Proof. unfold SystemView.distance2. ring. Qed.

Lemma collide_sym (o1 o2 : SystemView.Marker) :
  SystemView.collide o1 o2 = SystemView.collide o2 o1.
Proof.
  unfold SystemView.collide, Js.sqrt_lt, Js.sqrt_pos.
  rewrite (ltb_compat (SystemView.distance2 o1 o2) (SystemView.distance2 o2 o1)
                      (SystemView.minSeparation * SystemView.minSeparation)
                      (SystemView.minSeparation * SystemView.minSeparation)
                      (distance2_sym o1 o2) (Qeq_refl _)).
  rewrite (ltb_compat 0 0 (SystemView.distance2 o1 o2) (SystemView.distance2 o2 o1)
                      (Qeq_refl _) (distance2_sym o1 o2)).
  reflexivity.
Qed.

(** Every marker is listed in the grid cell of its position. *)
Lemma buildGrid_lists (objs0 : list SystemView.Marker) (j : nat) (obj : SystemView.Marker) :
  objs0 !! j = Some obj ->
  exists neighbors,
    SystemView.buildGrid objs0
      !! SystemView.getCellKey (SystemView.m_x obj) (SystemView.m_y obj) = Some neighbors
    /\ j ∈ neighbors.
Proof.
  unfold SystemView.buildGrid. revert j obj.
  induction objs0 as [|last objs0 IH] using rev_ind; intros j obj Hj; [inversion Hj|].
  rewrite imap_app, fold_left_app. simpl. rewrite Nat.add_0_r.
  set (grid := fold_left _ (imap _ objs0) ∅) in *.
  set (key := SystemView.getCellKey (SystemView.m_x last) (SystemView.m_y last)).
  destruct (decide (j < length objs0)%nat) as [Hlt|Hge].
  - rewrite lookup_app_l in Hj by exact Hlt.
    destruct (IH j obj Hj) as (nb & Hnb & Hin).
    destruct (decide (key = SystemView.getCellKey (SystemView.m_x obj) (SystemView.m_y obj)))
      as [Ek|Hne].
    + rewrite <- Ek. rewrite lookup_insert_eq. eexists. split; [reflexivity|].
      rewrite <- Ek in Hnb. rewrite Hnb. simpl. apply elem_of_app. left. exact Hin.
    + rewrite lookup_insert_ne by exact Hne. eauto.
  - rewrite lookup_app_r in Hj by lia.
    destruct (j - length objs0)%nat eqn:Ej; [|destruct n; discriminate Hj].
    injection Hj as <-. assert (j = length objs0) by lia. subst j.
    fold key. rewrite lookup_insert_eq. eexists. split; [reflexivity|].
    apply elem_of_app. right. apply list_elem_of_singleton. reflexivity.
Qed.

(** Two coordinates less than [minSeparation] apart fall in the same or
    in adjacent cells. *)
Lemma cell_near (a b : Q) :
  (b - a) * (b - a) < 225 -> (-1 <= SystemView.cell b - SystemView.cell a <= 1)%Z.
Proof.
  intros H.
  assert (Hab : -15 < b - a < 15) by (split; nra).
  unfold SystemView.cell.
  assert (Ec : SystemView.cellSize == 30) by reflexivity.
  rewrite (Qfloor_comp (a / SystemView.cellSize) (a / 30)),
    (Qfloor_comp (b / SystemView.cellSize) (b / 30)) by (rewrite Ec; reflexivity).
  pose proof (Qfloor_le (a / 30)) as La. pose proof (Qlt_floor (a / 30)) as Ua.
  pose proof (Qfloor_le (b / 30)) as Lb. pose proof (Qlt_floor (b / 30)) as Ub.
  rewrite inject_Z_plus in Ua, Ub.
  set (fa := Qfloor (a / 30)) in *. set (fb := Qfloor (b / 30)) in *.
  unfold Qdiv in La, Ua, Lb, Ub. change (/ 30) with (1 # 30) in La, Ua, Lb, Ub.
  change (inject_Z 1) with 1 in Ua, Ub.
  assert (H1 : inject_Z fb < inject_Z (fa + 2)).
  { rewrite inject_Z_plus. change (inject_Z 2) with 2. lra. }
  assert (H2 : inject_Z fa < inject_Z (fb + 2)).
  { rewrite inject_Z_plus. change (inject_Z 2) with 2. lra. }
  rewrite <- Zlt_Qlt in H1, H2. lia.
Qed.

Lemma offsets_spec (dx dy : Z) :
  (-1 <= dx <= 1)%Z -> (-1 <= dy <= 1)%Z -> (dx, dy) ∈ SystemView.offsets.
Proof.
  intros Hx Hy.
  assert (Ex : dx = (-1)%Z \/ dx = 0%Z \/ dx = 1%Z) by lia.
  assert (Ey : dy = (-1)%Z \/ dy = 0%Z \/ dy = 1%Z) by lia.
  apply list_elem_of_In.
  destruct Ex as [->|[->| ->]], Ey as [->|[->| ->]]; vm_compute; tauto.
Qed.

(** Markers closer than [minSeparation] are neighbours in the grid. *)
Lemma close_neighbour (objs0 : list SystemView.Marker) (i j : nat)
      (obj1 obj2 : SystemView.Marker) :
  objs0 !! i = Some obj1 -> objs0 !! j = Some obj2 ->
  Js.sqrt_lt (SystemView.distance2 obj1 obj2) (Js.Num SystemView.minSeparation) = true ->
  SystemView.neighbour (SystemView.buildGrid objs0) objs0 i j.
Proof.
  intros H1 H2 Hclose.
  apply andb_true_iff in Hclose as [_ Hclose]. apply ltb_lt in Hclose.
  unfold SystemView.distance2 in Hclose.
  assert (E15 : SystemView.minSeparation * SystemView.minSeparation == 225) by reflexivity.
  rewrite E15 in Hclose.
  set (dx := SystemView.m_x obj2 - SystemView.m_x obj1) in *.
  set (dy := SystemView.m_y obj2 - SystemView.m_y obj1) in *.
  assert (Hx : dx * dx < 225) by nra.
  assert (Hy : dy * dy < 225) by nra.
  apply cell_near in Hx, Hy.
  destruct (buildGrid_lists objs0 j obj2 H2) as (nb & Hnb & Hin).
  exists obj1,
    ((SystemView.cell (SystemView.m_x obj2) - SystemView.cell (SystemView.m_x obj1))%Z,
     (SystemView.cell (SystemView.m_y obj2) - SystemView.cell (SystemView.m_y obj1))%Z),
    nb.
  split; [exact H1|]. split; [apply offsets_spec; assumption|]. split; [|exact Hin].
  simpl. unfold SystemView.getCellKey in Hnb. rewrite <- Hnb. f_equal; f_equal; lia.
Qed.

Section RelaxationFacts.

Variable pushVector : Q -> Q -> Q * Q.

(** Once raised, [hadCollision] stays raised. *)
Lemma checkPair_flag (i j : nat) (st : SystemView.RelaxState) :
  SystemView.hadCollision st = true ->
  SystemView.hadCollision (SystemView.checkPair pushVector i j st) = true.
Proof.
  intros H. unfold SystemView.checkPair.
  destruct (i =? j)%nat; [exact H|].
  destruct (decide _); [exact H|].
  destruct (SystemView.objs st !! i), (SystemView.objs st !! j); simpl; try exact H.
  destruct (_ && _); simpl; [reflexivity | exact H].
Qed.

Lemma fold_flag {A : Type} (f : SystemView.RelaxState -> A -> SystemView.RelaxState)
      (l : list A) (st : SystemView.RelaxState) :
  (forall st x, SystemView.hadCollision st = true ->
                SystemView.hadCollision (f st x) = true) ->
  SystemView.hadCollision st = true ->
  SystemView.hadCollision (fold_left f l st) = true.
Proof.
  intros Hf. revert st. induction l as [|x l IH]; intros st H; simpl; [exact H|].
  apply IH, Hf, H.
Qed.

Lemma visitCell_flag (grid : gmap string (list nat)) (i : nat) (key : string)
      (st : SystemView.RelaxState) :
  SystemView.hadCollision st = true ->
  SystemView.hadCollision (SystemView.visitCell pushVector grid i key st) = true.
Proof.
  intros H. unfold SystemView.visitCell. destruct (grid !! key); [|exact H].
  apply fold_flag; [|exact H]. intros st' x. apply checkPair_flag.
Qed.

Lemma visitObject_flag (grid : gmap string (list nat)) (st : SystemView.RelaxState)
      (i : nat) :
  SystemView.hadCollision st = true ->
  SystemView.hadCollision (SystemView.visitObject pushVector grid st i) = true.
Proof.
  intros H. unfold SystemView.visitObject. destruct (SystemView.objs st !! i); [|exact H].
  apply fold_flag; [|exact H]. intros st' [dx dy]. apply visitCell_flag.
Qed.

(** A quiet fold: if the flag is down at the end, each step kept the
    invariant [I]. *)
Lemma fold_quiet {A : Type} (f : SystemView.RelaxState -> A -> SystemView.RelaxState)
      (I : SystemView.RelaxState -> Prop) (l : list A) (st : SystemView.RelaxState) :
  (forall st x, SystemView.hadCollision st = true ->
                SystemView.hadCollision (f st x) = true) ->
  (forall st x, x ∈ l -> I st -> SystemView.hadCollision (f st x) = false -> I (f st x)) ->
  I st ->
  SystemView.hadCollision (fold_left f l st) = false ->
  I (fold_left f l st).
Proof.
  intros Hflag. revert st. induction l as [|x l IH]; intros st Hstep HI Hend; simpl in *.
  - exact HI.
  - apply IH; [|apply Hstep; [left|exact HI|]|exact Hend].
    + intros st' y Hy. apply Hstep. right. exact Hy.
    + destruct (SystemView.hadCollision (f st x)) eqn:E; [|reflexivity].
      rewrite (fold_flag f l _ Hflag E) in Hend. discriminate.
Qed.

(** One quiet pair check keeps the state quiet and records the pair. *)
Lemma checkPair_quiet (objs0 : list SystemView.Marker) (i j : nat)
      (st : SystemView.RelaxState) :
  SystemView.Quiet objs0 st ->
  SystemView.hadCollision (SystemView.checkPair pushVector i j st) = false ->
  SystemView.Quiet objs0 (SystemView.checkPair pushVector i j st)
  /\ SystemView.checkedPairs st
     ⊆ SystemView.checkedPairs (SystemView.checkPair pushVector i j st)
  /\ (i <> j -> SystemView.pairKey i j
                ∈ SystemView.checkedPairs (SystemView.checkPair pushVector i j st)).
Proof.
  intros [Hflag Hobjs Hchecked]. subst objs0. unfold SystemView.checkPair.
  destruct (Nat.eqb_spec i j) as [->|Hne].
  { intros _. split; [split; auto|]. split; [reflexivity|]. intros H. contradiction. }
  destruct (decide (SystemView.pairKey i j ∈ SystemView.checkedPairs st)) as [Hin|Hnotin].
  { intros _. split; [split; auto|]. split; [reflexivity|]. intros _. exact Hin. }
  assert (Hgrow :
             (forall o1 o2, SystemView.objs st !! i = Some o1 ->
                            SystemView.objs st !! j = Some o2 ->
                            SystemView.collide o1 o2 = false) ->
             SystemView.Quiet (SystemView.objs st)
               {| SystemView.objs := SystemView.objs st;
                  SystemView.checkedPairs :=
                    SystemView.checkedPairs st ∪ {[SystemView.pairKey i j]};
                  SystemView.hadCollision := SystemView.hadCollision st |}
             /\ SystemView.checkedPairs st
                ⊆ SystemView.checkedPairs st ∪ {[SystemView.pairKey i j]}
             /\ (i <> j -> SystemView.pairKey i j
                           ∈ SystemView.checkedPairs st ∪ {[SystemView.pairKey i j]})).
  { intros Hpair. split; [split; simpl; auto|].
    - intros a b o1 o2 Hab Hk Ha Hb.
      apply elem_of_union in Hk as [Hk|Hk]; [eapply Hchecked; eassumption|].
      apply elem_of_singleton, pairKey_inj in Hk as [[-> ->]|[-> ->]].
      + apply Hpair; assumption.
      + rewrite collide_sym. apply Hpair; assumption.
    - split; [|intros _; apply elem_of_union_r, elem_of_singleton; reflexivity].
      intros k Hk. apply elem_of_union_l, Hk. }
  destruct (SystemView.objs st !! i) as [o1|] eqn:E1;
    [destruct (SystemView.objs st !! j) as [o2|] eqn:E2|].
  - change (Js.sqrt_lt _ _ && Js.sqrt_pos _) with (SystemView.collide o1 o2).
    destruct (SystemView.collide o1 o2) eqn:Ec; simpl; [discriminate|].
    intros _. apply Hgrow. intros o1' o2' [= <-] [= <-]. exact Ec.
  - simpl. intros _. apply Hgrow. intros o1' o2' _ [=].
  - simpl. intros _. apply Hgrow. intros o1' o2' [=].
Qed.

(** A quiet fold keeps the state quiet and records every key that its
    steps are due to record ([due x k]: step [x] records [k]). *)
Lemma fold_cover {A : Type} (f : SystemView.RelaxState -> A -> SystemView.RelaxState)
      (due : A -> string -> Prop) (objs0 : list SystemView.Marker) (l : list A) :
  (forall st x, SystemView.hadCollision st = true ->
                SystemView.hadCollision (f st x) = true) ->
  (forall st x, SystemView.Quiet objs0 st ->
                SystemView.hadCollision (f st x) = false ->
                SystemView.Quiet objs0 (f st x)
                /\ SystemView.checkedPairs st ⊆ SystemView.checkedPairs (f st x)
                /\ forall k, due x k -> k ∈ SystemView.checkedPairs (f st x)) ->
  forall st, SystemView.Quiet objs0 st ->
             SystemView.hadCollision (fold_left f l st) = false ->
             SystemView.Quiet objs0 (fold_left f l st)
             /\ SystemView.checkedPairs st ⊆ SystemView.checkedPairs (fold_left f l st)
             /\ forall x k, x ∈ l -> due x k ->
                            k ∈ SystemView.checkedPairs (fold_left f l st).
Proof.
  intros Hflag Hstep. induction l as [|x l IH]; intros st Hq Hend; simpl in *.
  - split; [exact Hq|]. split; [reflexivity|]. intros x k Hx. inversion Hx.
  - assert (Hx : SystemView.hadCollision (f st x) = false).
    { destruct (SystemView.hadCollision (f st x)) eqn:E; [|reflexivity].
      rewrite (fold_flag f l _ Hflag E) in Hend. discriminate. }
    destruct (Hstep st x Hq Hx) as (Hq1 & Hsub1 & Hdue1).
    destruct (IH _ Hq1 Hend) as (Hq2 & Hsub2 & Hdue2).
    split; [exact Hq2|]. split; [etrans; eassumption|].
    intros y k Hy Hk. apply elem_of_cons in Hy as [->|Hy].
    + apply Hsub2, Hdue1, Hk.
    + eapply Hdue2; eassumption.
Qed.

Lemma visitCell_quiet (objs0 : list SystemView.Marker) (grid : gmap string (list nat))
      (i : nat) (key : string) (st : SystemView.RelaxState) :
  SystemView.Quiet objs0 st ->
  SystemView.hadCollision (SystemView.visitCell pushVector grid i key st) = false ->
  SystemView.Quiet objs0 (SystemView.visitCell pushVector grid i key st)
  /\ SystemView.checkedPairs st
     ⊆ SystemView.checkedPairs (SystemView.visitCell pushVector grid i key st)
  /\ forall neighbors j, grid !! key = Some neighbors -> j ∈ neighbors -> i <> j ->
       SystemView.pairKey i j
       ∈ SystemView.checkedPairs (SystemView.visitCell pushVector grid i key st).
Proof.
  intros Hq. unfold SystemView.visitCell.
  destruct (grid !! key) as [neighbors|] eqn:E.
  - intros Hend.
    destruct (fold_cover (fun st j => SystemView.checkPair pushVector i j st)
                         (fun j k => i <> j /\ k = SystemView.pairKey i j)
                         objs0 neighbors) with (st := st)
      as (Hq' & Hsub & Hdue); auto.
    + intros st' x. apply checkPair_flag.
    + intros st' x Hq' Hx. destruct (checkPair_quiet objs0 i x st' Hq' Hx) as (? & ? & Hk).
      split; [assumption|]. split; [assumption|]. intros k [Hne ->]. apply Hk, Hne.
    + split; [exact Hq'|]. split; [exact Hsub|].
      intros nb j [= <-] Hj Hne. eapply Hdue; [exact Hj|]. auto.
  - intros _. split; [exact Hq|]. split; [reflexivity|]. intros nb j [=].
Qed.

Lemma visitObject_quiet (objs0 : list SystemView.Marker) (grid : gmap string (list nat))
      (st : SystemView.RelaxState) (i : nat) :
  SystemView.Quiet objs0 st ->
  SystemView.hadCollision (SystemView.visitObject pushVector grid st i) = false ->
  SystemView.Quiet objs0 (SystemView.visitObject pushVector grid st i)
  /\ SystemView.checkedPairs st
     ⊆ SystemView.checkedPairs (SystemView.visitObject pushVector grid st i)
  /\ forall k, (exists j, SystemView.neighbour grid objs0 i j /\ i <> j
                          /\ k = SystemView.pairKey i j) ->
       k ∈ SystemView.checkedPairs (SystemView.visitObject pushVector grid st i).
Proof.
  intros Hq. unfold SystemView.visitObject.
  rewrite (SystemView.quiet_objs _ _ Hq).
  destruct (objs0 !! i) as [obj1|] eqn:E.
  - intros Hend.
    destruct (fold_cover
                (fun st '(dx, dy) =>
                   SystemView.visitCell pushVector grid i
                     (SystemView.cellKey (SystemView.cell (SystemView.m_x obj1) + dx)
                                         (SystemView.cell (SystemView.m_y obj1) + dy)) st)
                (fun off k =>
                   exists neighbors j,
                     grid !! SystemView.cellKey
                               (SystemView.cell (SystemView.m_x obj1) + fst off)
                               (SystemView.cell (SystemView.m_y obj1) + snd off)
                     = Some neighbors
                     /\ j ∈ neighbors /\ i <> j /\ k = SystemView.pairKey i j)
                objs0 SystemView.offsets) with (st := st)
      as (Hq' & Hsub & Hdue); auto.
    + intros st' [dx dy]. apply visitCell_flag.
    + intros st' [dx dy] Hq' Hx.
      destruct (visitCell_quiet objs0 grid i _ st' Hq' Hx) as (? & ? & Hk).
      split; [assumption|]. split; [assumption|].
      intros k (nb & j & Hnb & Hj & Hne & ->). eapply Hk; eassumption.
    + split; [exact Hq'|]. split; [exact Hsub|].
      intros k (j & (o & off & nb & Ho & Hoff & Hnb & Hj) & Hne & ->).
      rewrite E in Ho. injection Ho as <-.
      eapply Hdue; [exact Hoff|]. exists nb, j. auto.
  - intros _. split; [exact Hq|]. split; [reflexivity|].
    intros k (j & (o & off & nb & Ho & _) & _). rewrite E in Ho. discriminate.
Qed.

(** An iteration that reports no collision has moved nothing and has
    found the markers settled. *)
Lemma iteration_quiet (objs0 : list SystemView.Marker) :
  snd (SystemView.iteration pushVector objs0) = false ->
  fst (SystemView.iteration pushVector objs0) = objs0
  /\ SystemView.settled objs0.
Proof.
  unfold SystemView.iteration. simpl.
  set (grid := SystemView.buildGrid objs0).
  set (st0 := {| SystemView.objs := objs0; SystemView.checkedPairs := ∅;
                 SystemView.hadCollision := false |}).
  intros Hend.
  assert (Hq0 : SystemView.Quiet objs0 st0).
  { split; simpl; auto. intros a b o1 o2 _ Hk. set_solver. }
  destruct (fold_cover (SystemView.visitObject pushVector grid)
                       (fun i k => exists j, SystemView.neighbour grid objs0 i j
                                             /\ i <> j /\ k = SystemView.pairKey i j)
                       objs0 (seq 0 (length objs0))) with (st := st0)
    as (Hq & _ & Hdue); auto.
  - intros st x. apply visitObject_flag.
  - intros st x. apply visitObject_quiet.
  - destruct Hq as [_ Hobjs Hchecked]. split; [exact Hobjs|].
    intros i j obj1 obj2 Hne H1 H2.
    destruct (SystemView.collide obj1 obj2) eqn:Ec; [|reflexivity].
    rewrite <- Ec at 1.
    apply (Hchecked i j obj1 obj2 Hne); [|exact H1|exact H2].
    apply (Hdue i).
    + apply elem_of_seq. split; [lia|]. simpl. eapply lookup_lt_Some, H1.
    + exists j. split; [|auto].
      apply andb_true_iff in Ec as [Ec _].
      eapply close_neighbour; eassumption.
Qed.

Lemma relax_spec (budget : nat) (objs0 : list SystemView.Marker) :
  let '(objs1, n) := SystemView.relax pushVector budget objs0 in
  (n <= budget)%nat /\ (n = budget \/ SystemView.settled objs1).
Proof.
  revert objs0. induction budget as [|budget IH]; intros objs0.
  - simpl. split; [apply Nat.le_refl | left; reflexivity].
  - cbn [SystemView.relax].
    pose proof (iteration_quiet objs0) as Hquiet.
    destruct (SystemView.iteration pushVector objs0) as [objs1 had]. simpl in Hquiet.
    destruct had.
    + specialize (IH objs1).
      destruct (SystemView.relax pushVector budget objs1) as [objs2 n].
      destruct IH as [Hle [-> | Hs]].
      * split; [lia | left; reflexivity].
      * split; [lia | right; exact Hs].
    + destruct (Hquiet eq_refl) as [-> Hs]. split; [lia | right; exact Hs].
Qed.

End RelaxationFacts.

Lemma collide_false (obj1 obj2 : SystemView.Marker) :
  SystemView.collide obj1 obj2 = false <->
  225 <= SystemView.distance2 obj1 obj2 \/ SystemView.distance2 obj1 obj2 == 0.
Proof.
  assert (Hnn : 0 <= SystemView.distance2 obj1 obj2).
  { unfold SystemView.distance2. cbv zeta.
    generalize (SystemView.m_x obj2 - SystemView.m_x obj1)
               (SystemView.m_y obj2 - SystemView.m_y obj1).
    intros u v. nra. }
  assert (E15 : SystemView.minSeparation * SystemView.minSeparation == 225) by reflexivity.
  unfold SystemView.collide, Js.sqrt_lt, Js.sqrt_pos.
  rewrite andb_false_iff, andb_false_iff, !ltb_ge. rewrite E15. split.
  - intros [[H|H]|H]; [exfalso; apply H; reflexivity | left; exact H | right; lra].
  - intros [H|H]; [left; right; exact H | right; lra].
Qed.

(** The relaxation moves markers but keeps their identity and order. *)
Lemma checkPair_refs (pushVector : Q -> Q -> Q * Q) (i j : nat)
      (st : SystemView.RelaxState) :
  SystemView.dataRef <$> SystemView.objs (SystemView.checkPair pushVector i j st)
  = SystemView.dataRef <$> SystemView.objs st.
Proof.
  unfold SystemView.checkPair.
  destruct (i =? j)%nat; [reflexivity|].
  destruct (decide _); [reflexivity|].
  destruct (SystemView.objs st !! i) as [o1|] eqn:E1; [|reflexivity].
  destruct (SystemView.objs st !! j) as [o2|] eqn:E2; [|reflexivity].
  destruct (_ && _); [|reflexivity]. simpl.
  rewrite !list_fmap_insert. simpl.
  rewrite (list_insert_id (SystemView.dataRef <$> SystemView.objs st) i).
  - apply list_insert_id. rewrite list_lookup_fmap, E2. reflexivity.
  - rewrite list_lookup_fmap, E1. reflexivity.
Qed.

Lemma fold_refs {A : Type} (f : SystemView.RelaxState -> A -> SystemView.RelaxState)
      (l : list A) (st : SystemView.RelaxState) :
  (forall st x, SystemView.dataRef <$> SystemView.objs (f st x)
                = SystemView.dataRef <$> SystemView.objs st) ->
  SystemView.dataRef <$> SystemView.objs (fold_left f l st)
  = SystemView.dataRef <$> SystemView.objs st.
Proof.
  intros Hf. revert st. induction l as [|x l IH]; intros st; simpl; [reflexivity|].
  rewrite IH. apply Hf.
Qed.

Lemma iteration_refs (pushVector : Q -> Q -> Q * Q) (objs0 : list SystemView.Marker) :
  SystemView.dataRef <$> fst (SystemView.iteration pushVector objs0)
  = SystemView.dataRef <$> objs0.
Proof.
  unfold SystemView.iteration. simpl. rewrite fold_refs; [reflexivity|].
  intros st i. unfold SystemView.visitObject.
  destruct (SystemView.objs st !! i); [|reflexivity].
  apply fold_refs. intros st' [dx dy]. unfold SystemView.visitCell.
  destruct (_ !! _); [|reflexivity].
  apply fold_refs. intros st'' j. apply checkPair_refs.
Qed.

Lemma relax_refs (pushVector : Q -> Q -> Q * Q) (budget : nat)
      (objs0 : list SystemView.Marker) :
  SystemView.dataRef <$> fst (SystemView.relax pushVector budget objs0)
  = SystemView.dataRef <$> objs0.
Proof.
  revert objs0. induction budget as [|budget IH]; intros objs0; [reflexivity|].
  cbn [SystemView.relax].
  pose proof (iteration_refs pushVector objs0) as Hit.
  destruct (SystemView.iteration pushVector objs0) as [objs1 had]. simpl in Hit.
  destruct had; [|exact Hit].
  specialize (IH objs1).
  destruct (SystemView.relax pushVector budget objs1) as [objs2 n]. simpl in *.
  rewrite IH. exact Hit.
Qed.

(** C3, as stated, fails: the two stations of [Examples.two_stations]
    are projected onto the same point, at distance 0, below
    [minSeparation]; the first iteration skips the pair (the test asks for
    [distance > 0]), reports no collision and the loop stops after 1 of
    the 5 iterations with the two markers still at distance 0. *)
Lemma relaxation_coincident_counterexample :
  Examples.twins !! 1%nat = Some (Examples.twin 0)
  /\ Examples.twins !! 2%nat = Some (Examples.twin 1)
  /\ SystemView.distance2 (Examples.twin 0) (Examples.twin 1) == 0
  /\ (forall pushVector,
         SystemView.relaxation pushVector Examples.twins = (Examples.twins, 1%nat))
  /\ ~ (forall (pushVector : Q -> Q -> Q * Q) (objs0 : list SystemView.Marker)
               (i j : nat) (obj1 obj2 moved1 moved2 : SystemView.Marker),
           i <> j -> objs0 !! i = Some obj1 -> objs0 !! j = Some obj2 ->
           Js.sqrt_lt (SystemView.distance2 obj1 obj2)
                      (Js.Num SystemView.minSeparation) = true ->
           fst (SystemView.relaxation pushVector objs0) !! i = Some moved1 ->
           fst (SystemView.relaxation pushVector objs0) !! j = Some moved2 ->
           Js.sqrt_lt (SystemView.distance2 moved1 moved2)
                      (Js.Num SystemView.minSeparation) = false
           \/ snd (SystemView.relaxation pushVector objs0) = SystemView.maxIterations).
Proof.
  assert (Hrun : forall pushVector,
             SystemView.relaxation pushVector Examples.twins = (Examples.twins, 1%nat)).
  { intros pushVector. vm_compute. reflexivity. }
  assert (H1 : Examples.twins !! 1%nat = Some (Examples.twin 0))
    by (vm_compute; reflexivity).
  assert (H2 : Examples.twins !! 2%nat = Some (Examples.twin 1))
    by (vm_compute; reflexivity).
  split; [exact H1|]. split; [exact H2|]. split; [reflexivity|]. split; [exact Hrun|].
  intros H.
  specialize (H Examples.axisPush Examples.twins 1%nat 2%nat
                (Examples.twin 0) (Examples.twin 1) (Examples.twin 0) (Examples.twin 1)).
  rewrite Hrun in H.
  destruct H as [H|H]; try assumption; try reflexivity; try discriminate.
Qed.

(** C3 (amended): the relaxation runs at most 5 iterations and keeps the
    markers' identities; for every two markers, in particular two whose
    distance was below [minSeparation] before the pass, either their
    distance after the pass is at least [minSeparation], or it is exactly
    0 (coincident markers are skipped by the [distance > 0] test and never
    separated), or all 5 iterations of the budget were executed: the early
    stop fires only when no pair at a positive distance below
    [minSeparation] remains. *)
Theorem relaxation_settles (pushVector : Q -> Q -> Q * Q)
        (objs0 : list SystemView.Marker) :
  let '(objs1, n) := SystemView.relaxation pushVector objs0 in
  SystemView.maxIterations = 5%nat
  /\ SystemView.dataRef <$> objs1 = SystemView.dataRef <$> objs0
  /\ (n <= SystemView.maxIterations)%nat
  /\ (n = SystemView.maxIterations
      \/ forall i j obj1 obj2,
          i <> j -> objs1 !! i = Some obj1 -> objs1 !! j = Some obj2 ->
          225 <= SystemView.distance2 obj1 obj2
          \/ SystemView.distance2 obj1 obj2 == 0).
Proof.
  unfold SystemView.relaxation.
  pose proof (relax_spec pushVector SystemView.maxIterations objs0) as H.
  pose proof (relax_refs pushVector SystemView.maxIterations objs0) as Hrefs.
  destruct (SystemView.relax pushVector SystemView.maxIterations objs0) as [objs1 n].
  simpl in Hrefs. split; [reflexivity|]. split; [exact Hrefs|].
  destruct H as [Hle [Hn|Hs]].
  - split; [exact Hle | left; exact Hn].
  - split; [exact Hle|]. right. intros i j obj1 obj2 Hne H1 H2.
    apply collide_false. eapply Hs; eassumption.
Qed.

(** Two stations 9 px apart are pushed 3 px each and the second
    iteration finds them settled. *)
Example crowded_relaxed :
  SystemView.relaxation Examples.axisPush Examples.crowded
  = ([Examples.marker (100 - 1 * (15 - 9) / 2) (100 - 0) 0;
      Examples.marker (109 + 1 * (15 - 9) / 2) (100 + 0) 1], 2%nat).
Proof. vm_compute. reflexivity. Qed.

(** * Further properties of the code *)

(** ** Nearest-candidate scans *)

Lemma scan_step {A : Type} (d2 : A -> Q) (r : Q) (seen : list A)
      (acc : Js.Bound * option A) (x : A) :
  Scan.scanned d2 r seen acc -> Scan.scanned d2 r (seen ++ [x]) (Scan.step d2 acc x).
Proof.
  destruct acc as [bound [s|]]; unfold Scan.scanned, Scan.step; simpl.
  - intros (-> & Hin & before & after & -> & Hb & Ha). simpl.
    destruct (Js.ltb (d2 x) (d2 s)) eqn:E; simpl.
    + apply ltb_lt in E. split; [reflexivity|]. split.
      * apply andb_true_iff in Hin as [H0 Hs]. apply andb_true_iff. split; [exact H0|].
        apply ltb_lt. apply ltb_lt in Hs. lra.
      * exists (before ++ s :: after), []. split; [reflexivity|]. split.
        -- intros t Ht. apply elem_of_app in Ht as [Ht|Ht].
           ++ specialize (Hb t Ht). lra.
           ++ apply elem_of_cons in Ht as [->|Ht]; [exact E|]. specialize (Ha t Ht). lra.
        -- intros t Ht. inversion Ht.
    + apply ltb_ge in E. split; [reflexivity|]. split; [exact Hin|].
      exists before, (after ++ [x]). split; [rewrite <- app_assoc; reflexivity|].
      split; [exact Hb|].
      intros t Ht. apply elem_of_app in Ht as [Ht|Ht]; [apply Ha, Ht|].
      apply list_elem_of_singleton in Ht. subst t. exact E.
  - intros (-> & Hout). simpl.
    destruct (Js.ltb 0 r && Js.ltb (d2 x) (r * r)) eqn:E; simpl.
    + split; [reflexivity|]. split; [exact E|].
      exists seen, []. split; [reflexivity|]. split; [|intros t Ht; inversion Ht].
      intros t Ht. specialize (Hout t Ht).
      apply andb_true_iff in E as [H0 Hx]. rewrite H0 in Hout. simpl in Hout.
      apply ltb_ge in Hout. apply ltb_lt in Hx. lra.
    + split; [reflexivity|].
      intros t Ht. apply elem_of_app in Ht as [Ht|Ht]; [apply Hout, Ht|].
      apply list_elem_of_singleton in Ht. subst t. exact E.
Qed.

Lemma scan_fold {A : Type} (d2 : A -> Q) (r : Q) (rest seen : list A)
      (acc : Js.Bound * option A) :
  Scan.scanned d2 r seen acc ->
  Scan.scanned d2 r (seen ++ rest) (fold_left (Scan.step d2) rest acc).
Proof.
  revert seen acc. induction rest as [|x rest IH]; intros seen acc H; simpl.
  - rewrite app_nil_r. exact H.
  - replace (seen ++ x :: rest) with ((seen ++ [x]) ++ rest)
      by (rewrite <- app_assoc; reflexivity).
    apply IH, scan_step, H.
Qed.

(** The scan from the radius [r] returns the nearest candidate within
    [r], the first one in case of a tie, and nothing only when no
    candidate is within [r]. *)
Lemma nearest_scan {A : Type} (d2 : A -> Q) (r : Q) (l : list A) :
  match snd (fold_left (Scan.step d2) l (Js.Num r, None)) with
  | Some s =>
    Js.sqrt_lt (d2 s) (Js.Num r) = true
    /\ exists before after,
        l = before ++ s :: after
        /\ (forall t, t ∈ before -> d2 s < d2 t)
        /\ (forall t, t ∈ after -> d2 s <= d2 t)
  | None => forall t, t ∈ l -> Js.sqrt_lt (d2 t) (Js.Num r) = false
  end.
Proof.
  pose proof (scan_fold d2 r l [] (Js.Num r, None)) as H. simpl in H.
  unfold Scan.scanned in H.
  destruct (snd (fold_left _ l (Js.Num r, None))) as [s|].
  - apply H. split; [reflexivity|]. intros t Ht. inversion Ht.
  - apply H. split; [reflexivity|]. intros t Ht. inversion Ht.
Qed.

(** X1: the hover query of the map view returns the system nearest to
    the point under the cursor among those closer than [10 / zoom], the
    first one in array order when several are equally near, and returns
    nothing only when no system is that close. *)
Theorem hover_returns_nearest (systems : list MapView.SolarSystem)
        (cd : MapView.CoordinateData) (dims : Dimensions) (cam : Camera) (mouseX mouseY : Q) :
  let d2 s := Js.dist2 (Viewport.worldX dims cam mouseX) (Viewport.worldY dims cam mouseY)
                       (MapView.toCanvasX cd (MapView.posX s))
                       (MapView.toCanvasY cd dims (MapView.posY s)) in
  match MapView.hoverQuery systems cd dims cam mouseX mouseY with
  | Some s =>
    Js.sqrt_lt (d2 s) (Js.Num (10 / cam_zoom cam)) = true
    /\ exists before after,
        systems = before ++ s :: after
        /\ (forall t, t ∈ before -> d2 s < d2 t)
        /\ (forall t, t ∈ after -> d2 s <= d2 t)
  | None => forall t, t ∈ systems -> Js.sqrt_lt (d2 t) (Js.Num (10 / cam_zoom cam)) = false
  end.
Proof.
  intros d2. exact (nearest_scan d2 (10 / cam_zoom cam) systems).
Qed.

Lemma find_first {A : Type} (p : A -> bool) (l : list A) :
  match List.find p l with
  | Some s => exists before after,
      l = before ++ s :: after /\ p s = true /\ forall t, t ∈ before -> p t = false
  | None => forall t, t ∈ l -> p t = false
  end.
Proof.
  induction l as [|x l IH]; simpl.
  - intros t Ht. inversion Ht.
  - destruct (p x) eqn:E.
    + exists [], l. split; [reflexivity|]. split; [exact E|]. intros t Ht. inversion Ht.
    + destruct (List.find p l) as [s|].
      * destruct IH as (before & after & -> & Hs & Hb).
        exists (x :: before), after. split; [reflexivity|]. split; [exact Hs|].
        intros t Ht. apply elem_of_cons in Ht as [->|Ht]; [exact E | apply Hb, Ht].
      * intros t Ht. apply elem_of_cons in Ht as [->|Ht]; [exact E | apply IH, Ht].
Qed.

(** X2: the click query of the map view returns the first system, in
    array order, that is closer than [10 / zoom] to the point under the
    cursor; it finds a system exactly when the hover query does, and the
    system the hover query reports is never farther than the one the
    click navigates to. *)
Theorem click_returns_first_hit (systems : list MapView.SolarSystem)
        (cd : MapView.CoordinateData) (dims : Dimensions) (cam : Camera) (mouseX mouseY : Q) :
  let d2 s := Js.dist2 (Viewport.worldX dims cam mouseX) (Viewport.worldY dims cam mouseY)
                       (MapView.toCanvasX cd (MapView.posX s))
                       (MapView.toCanvasY cd dims (MapView.posY s)) in
  let within s := Js.sqrt_lt (d2 s) (Js.Num (10 / cam_zoom cam)) in
  let click := MapView.clickQuery systems cd dims cam mouseX mouseY in
  let hover := MapView.hoverQuery systems cd dims cam mouseX mouseY in
  match click with
  | Some s => exists before after,
      systems = before ++ s :: after /\ within s = true
      /\ forall t, t ∈ before -> within t = false
  | None => forall t, t ∈ systems -> within t = false
  end
  /\ (is_Some click <-> is_Some hover)
  /\ (forall c h, click = Some c -> hover = Some h -> d2 h <= d2 c).
Proof.
  intros d2 within click hover.
  pose proof (find_first within systems) as Hc.
  pose proof (nearest_scan d2 (10 / cam_zoom cam) systems) as Hh.
  change (List.find within systems) with click in Hc.
  change (snd (fold_left (Scan.step d2) systems (Js.Num (10 / cam_zoom cam), None)))
    with hover in Hh.
  split; [exact Hc|].
  destruct click as [c|], hover as [h|].
  - split; [split; eauto|]. intros c' h' [= <-] [= <-].
    destruct Hc as (b1 & a1 & E1 & _). destruct Hh as (_ & b2 & a2 & E2 & Hb & Ha).
    assert (Hin : c ∈ systems).
    { rewrite E1. apply elem_of_app. right. left. }
    rewrite E2 in Hin. apply elem_of_app in Hin as [Hin|Hin].
    + specialize (Hb c Hin). lra.
    + apply elem_of_cons in Hin as [->|Hin]; [lra | apply Ha, Hin].
  - exfalso. destruct Hc as (b1 & a1 & E1 & Hw & _).
    assert (Hin : c ∈ systems).
    { rewrite E1. apply elem_of_app. right. left. }
    specialize (Hh c Hin). unfold within in Hw. congruence.
  - exfalso. destruct Hh as (Hw & b2 & a2 & E2 & _).
    assert (Hin : h ∈ systems).
    { rewrite E2. apply elem_of_app. right. left. }
    specialize (Hc h Hin). unfold within in Hc. congruence.
  - split; [split; intros [x Hx]; discriminate|]. intros c h [=].
Qed.

(** ** The hit test of the local view *)

Lemma consider_step (ap : gmap SystemView.Ref SystemView.Adjusted) (cam : Camera)
      (wx wy buffer : Q) (seen : list SystemView.Ref)
      (acc : Js.Bound * option SystemView.Found) (r : SystemView.Ref) :
  SystemView.considered ap cam wx wy buffer seen acc ->
  SystemView.considered ap cam wx wy buffer (seen ++ [r])
                        (SystemView.consider ap cam wx wy buffer acc r).
Proof.
  intros Hacc. unfold SystemView.consider.
  assert (Hkeep : (forall a, ap !! r = Some a ->
                     Js.sqrt_lt (SystemView.reach2 wx wy a)
                       (Js.Num (SystemView.detectionRadius a cam buffer)) = true ->
                     match snd acc with
                     | Some f => SystemView.found_distance2 f <= SystemView.reach2 wx wy a
                     | None => False
                     end) ->
                  SystemView.considered ap cam wx wy buffer (seen ++ [r]) acc).
  { intros Hr. unfold SystemView.considered in *.
    destruct (snd acc) as [f|].
    - destruct Hacc as (Hb & Hin & Hex & Hmin).
      split; [exact Hb|]. split; [apply elem_of_app; left; exact Hin|]. split; [exact Hex|].
      intros ref a Href Ha Hw. apply elem_of_app in Href as [Href|Href].
      + eapply Hmin; eassumption.
      + apply list_elem_of_singleton in Href. subst ref. apply (Hr a Ha Hw).
    - destruct Hacc as (Hb & Hout). split; [exact Hb|].
      intros ref a Href Ha. apply elem_of_app in Href as [Href|Href].
      + eapply Hout; eassumption.
      + apply list_elem_of_singleton in Href. subst ref.
        destruct (Js.sqrt_lt _ _) eqn:E; [|reflexivity]. destruct (Hr a Ha E). }
  destruct (ap !! r) as [a|] eqn:Ea; [|apply Hkeep; intros a' [=]].
  change (Js.dist2 wx wy (SystemView.adj_x a) (SystemView.adj_y a))
    with (SystemView.reach2 wx wy a).
  destruct (Js.sqrt_lt (SystemView.reach2 wx wy a)
                       (Js.Num (SystemView.detectionRadius a cam buffer))) eqn:Ew; simpl.
  - destruct (Js.sqrt_lt (SystemView.reach2 wx wy a) (fst acc)) eqn:Eb.
    + unfold SystemView.considered in *.
      cbn [fst snd SystemView.found_ref SystemView.found_distance2].
      split; [reflexivity|].
      split; [apply elem_of_app; right; apply list_elem_of_singleton; reflexivity|].
      split; [exists a; auto|].
      intros ref a' Href Ha' Hw'. apply elem_of_app in Href as [Href|Href].
      * destruct (snd acc) as [f|].
        -- destruct Hacc as (Hb & _ & _ & Hmin). rewrite Hb in Eb. simpl in Eb.
           apply ltb_lt in Eb. specialize (Hmin ref a' Href Ha' Hw'). lra.
        -- destruct Hacc as (_ & Hout). rewrite (Hout ref a' Href Ha') in Hw'. discriminate.
      * apply list_elem_of_singleton in Href. subst ref.
        rewrite Ea in Ha'. injection Ha' as <-. lra.
    + apply Hkeep. intros a' [= <-] _.
      unfold SystemView.considered in Hacc.
      destruct (snd acc) as [f|].
      * destruct Hacc as (Hb & _). rewrite Hb in Eb. simpl in Eb.
        apply ltb_ge in Eb. exact Eb.
      * destruct Hacc as (Hb & _). rewrite Hb in Eb. discriminate.
  - apply Hkeep. intros a' [= <-] Hw. congruence.
Qed.

Lemma consider_fold (ap : gmap SystemView.Ref SystemView.Adjusted) (cam : Camera)
      (wx wy buffer : Q) (rest seen : list SystemView.Ref)
      (acc : Js.Bound * option SystemView.Found) :
  SystemView.considered ap cam wx wy buffer seen acc ->
  SystemView.considered ap cam wx wy buffer (seen ++ rest)
                        (fold_left (SystemView.consider ap cam wx wy buffer) rest acc).
Proof.
  revert seen acc. induction rest as [|x rest IH]; intros seen acc H; simpl.
  - rewrite app_nil_r. exact H.
  - replace (seen ++ x :: rest) with ((seen ++ [x]) ++ rest)
      by (rewrite <- app_assoc; reflexivity).
    apply IH, consider_step, H.
Qed.

(** The four loops of [findObjectAtPosition] are one scan of the candidates. *)
Lemma findObject_scan (d : SystemView.SystemData)
      (ap : gmap SystemView.Ref SystemView.Adjusted) (dims : Dimensions) (cam : Camera)
      (mx my buffer : Q) :
  SystemView.findObjectAtPosition (Some d) ap dims cam mx my buffer
  = snd (fold_left (SystemView.consider ap cam (Viewport.worldX dims cam mx)
                                        (Viewport.worldY dims cam my) buffer)
                   (SystemView.candidates d) (Js.Infinity, None)).
Proof.
  unfold SystemView.findObjectAtPosition, SystemView.candidates.
  rewrite !fold_left_app. destruct (SystemView.star d); reflexivity.
Qed.

Lemma findObject_considered (d : SystemView.SystemData)
      (ap : gmap SystemView.Ref SystemView.Adjusted) (dims : Dimensions) (cam : Camera)
      (mx my buffer : Q) :
  exists bound,
    SystemView.considered ap cam (Viewport.worldX dims cam mx) (Viewport.worldY dims cam my)
      buffer (SystemView.candidates d)
      (bound, SystemView.findObjectAtPosition (Some d) ap dims cam mx my buffer).
Proof.
  rewrite findObject_scan.
  pose proof (consider_fold ap cam (Viewport.worldX dims cam mx)
                            (Viewport.worldY dims cam my) buffer
                            (SystemView.candidates d) [] (Js.Infinity, None)) as H.
  simpl in H.
  destruct (fold_left _ (SystemView.candidates d) (Js.Infinity, None)) as [bound res].
  exists bound. apply H. split; [reflexivity|]. intros ref a Href. inversion Href.
Qed.

(** X3: [findObjectAtPosition] returns, among the star, the planets, the
    stargates and the stations that have a cached position and lie
    within their detection radius of the point under the cursor, one at
    the least distance; it returns nothing only when no such object
    exists.  Moons are never returned. *)
Theorem local_query_returns_nearest (d : SystemView.SystemData)
        (adjustedPositions : gmap SystemView.Ref SystemView.Adjusted)
        (dims : Dimensions) (cam : Camera) (mouseX mouseY buffer : Q) :
  let reach := SystemView.reach2 (Viewport.worldX dims cam mouseX)
                                 (Viewport.worldY dims cam mouseY) in
  let within adjusted :=
    Js.sqrt_lt (reach adjusted)
               (Js.Num (SystemView.detectionRadius adjusted cam buffer)) in
  match SystemView.findObjectAtPosition (Some d) adjustedPositions dims cam
                                        mouseX mouseY buffer with
  | Some f =>
    SystemView.found_ref f ∈ SystemView.candidates d
    /\ (exists adjusted,
           adjustedPositions !! SystemView.found_ref f = Some adjusted
           /\ SystemView.found_distance2 f = reach adjusted
           /\ within adjusted = true)
    /\ forall ref adjusted,
        ref ∈ SystemView.candidates d -> adjustedPositions !! ref = Some adjusted ->
        within adjusted = true -> SystemView.found_distance2 f <= reach adjusted
  | None =>
    forall ref adjusted,
      ref ∈ SystemView.candidates d -> adjustedPositions !! ref = Some adjusted ->
      within adjusted = false
  end.
Proof.
  intros reach within.
  destruct (findObject_considered d adjustedPositions dims cam mouseX mouseY buffer)
    as [bound H].
  unfold SystemView.considered in H. cbn [fst snd] in H.
  destruct (SystemView.findObjectAtPosition _ _ _ _ _ _ _) as [f|].
  - destruct H as (_ & Hin & Hex & Hmin). auto.
  - destruct H as (_ & Hout). exact Hout.
Qed.

Lemma sqrt_lt_widen (d r r' : Q) :
  r <= r' -> Js.sqrt_lt d (Js.Num r) = true -> Js.sqrt_lt d (Js.Num r') = true.
Proof.
  intros Hr H. apply andb_true_iff in H as [H0 Hd].
  apply ltb_lt in H0, Hd. apply andb_true_iff. split; apply ltb_lt; [lra | nra].
Qed.

(** X4: in the local view an object that the hover query (buffer 3)
    reports is also within reach of the click query (buffer 5): a click
    at the same cursor position and camera selects an object, and one
    that is at least as near. *)
Theorem local_hover_hit_is_clickable (d : SystemView.SystemData)
        (adjustedPositions : gmap SystemView.Ref SystemView.Adjusted)
        (dims : Dimensions) (cam : Camera) (mouseX mouseY : Q) (f : SystemView.Found) :
  SystemView.hoverQuery (Some d) adjustedPositions dims cam mouseX mouseY = Some f ->
  exists g,
    SystemView.clickQuery (Some d) adjustedPositions dims cam mouseX mouseY = Some g
    /\ SystemView.found_distance2 g <= SystemView.found_distance2 f.
Proof.
  unfold SystemView.hoverQuery, SystemView.clickQuery. intros Hhover.
  destruct (findObject_considered d adjustedPositions dims cam mouseX mouseY
                                  SystemView.hoverBuffer) as [b1 H1].
  destruct (findObject_considered d adjustedPositions dims cam mouseX mouseY
                                  SystemView.clickBuffer) as [b2 H2].
  rewrite Hhover in H1. unfold SystemView.considered in H1, H2.
  cbn [fst snd] in H1, H2.
  destruct H1 as (_ & Hin & (a & Ha & Hd & Hw) & _).
  assert (Hw' : Js.sqrt_lt (SystemView.reach2 (Viewport.worldX dims cam mouseX)
                                              (Viewport.worldY dims cam mouseY) a)
                           (Js.Num (SystemView.detectionRadius a cam SystemView.clickBuffer))
                = true).
  { eapply sqrt_lt_widen; [|exact Hw].
    unfold SystemView.detectionRadius, SystemView.hoverBuffer, SystemView.clickBuffer. lra. }
  destruct (SystemView.findObjectAtPosition _ _ _ _ _ _ SystemView.clickBuffer) as [g|].
  - exists g. split; [reflexivity|].
    destruct H2 as (_ & _ & _ & Hmin). rewrite Hd. eapply Hmin; eassumption.
  - exfalso. destruct H2 as (_ & Hout). rewrite (Hout _ a Hin Ha) in Hw'. discriminate.
Qed.

Lemma local_hover_hit_is_clickable_witness :
  exists g,
    SystemView.clickQuery (Some Examples.star_and_planet) Examples.planet_cache
                          Examples.surface Examples.zoom2_camera 400 300 = Some g
    /\ SystemView.found_distance2 g <= SystemView.found_distance2 Examples.planet_hit.
Proof.
  apply (local_hover_hit_is_clickable Examples.star_and_planet Examples.planet_cache
           Examples.surface Examples.zoom2_camera 400 300 Examples.planet_hit).
  vm_compute. reflexivity.
Defined.

(** ** The hover radius in screen pixels *)

Lemma screen_distance (dims : Dimensions) (cam : Camera) (mx my px py : Q) :
  ~ cam_zoom cam == 0 ->
  Js.dist2 mx my (Viewport.screenX dims cam px) (Viewport.screenY dims cam py)
  == cam_zoom cam * cam_zoom cam
     * Js.dist2 (Viewport.worldX dims cam mx) (Viewport.worldY dims cam my) px py.
Proof.
  intros Hz. unfold Js.dist2, Viewport.screenX, Viewport.screenY,
               Viewport.worldX, Viewport.worldY. field. exact Hz.
Qed.

(** The test "closer than [10 / zoom] to the point under the cursor" on
    one camera value is the test "drawn closer than 10 pixels to the
    cursor" under the canvas transform of that camera. *)
Lemma ten_pixel_radius (dims : Dimensions) (cam : Camera) (mouseX mouseY px py : Q) :
  0 < cam_zoom cam ->
  Js.sqrt_lt (Js.dist2 (Viewport.worldX dims cam mouseX) (Viewport.worldY dims cam mouseY)
                       px py)
             (Js.Num (10 / cam_zoom cam))
  = Js.sqrt_lt (Js.dist2 mouseX mouseY (Viewport.screenX dims cam px)
                         (Viewport.screenY dims cam py))
               (Js.Num 10).
Proof.
  intros Hz.
  assert (Hz0 : ~ cam_zoom cam == 0) by lra.
  pose proof (screen_distance dims cam mouseX mouseY px py Hz0) as Hs.
  set (dw := Js.dist2 (Viewport.worldX dims cam mouseX) (Viewport.worldY dims cam mouseY)
                      px py) in *.
  set (ds := Js.dist2 mouseX mouseY _ _) in *.
  set (z := cam_zoom cam) in *.
  assert (Hr : 0 < 10 / z) by (apply Qlt_shift_div_l; lra).
  assert (Hsq : (10 / z) * (10 / z) * (z * z) == 100) by (field; exact Hz0).
  assert (Hzz : 0 < z * z) by nra.
  unfold Js.sqrt_lt.
  destruct (Js.ltb 0 (10 / z)) eqn:E1; [|apply ltb_ge in E1; lra].
  destruct (Js.ltb 0 10) eqn:E2; [|apply ltb_ge in E2; lra]. simpl.
  destruct (Js.ltb dw (10 / z * (10 / z))) eqn:E3, (Js.ltb ds (10 * 10)) eqn:E4;
    try reflexivity; exfalso.
  - apply ltb_lt in E3. apply ltb_ge in E4. nra.
  - apply ltb_ge in E3. apply ltb_lt in E4. nra.
Qed.

(** X5: the hit tests of the map view read the camera ref and the
    render effect draws with the camera state.  In a state in which the
    two are equal and the zoom is positive, the test "closer than
    [10 / zoom] to the point under the cursor" is the test "drawn closer
    than 10 pixels to the cursor on the screen": the hover and click
    tolerance is then 10 screen pixels at every zoom. *)
Theorem hover_radius_is_10_screen_pixels (st : MapView.State)
        (mouseX mouseY px py : Q) :
  MapView.camera st = MapView.cameraRef st ->
  0 < cam_zoom (MapView.cameraRef st) ->
  let dims := MapView.dimensions st in
  Js.sqrt_lt (Js.dist2 (Viewport.worldX dims (MapView.cameraRef st) mouseX)
                       (Viewport.worldY dims (MapView.cameraRef st) mouseY) px py)
             (Js.Num (10 / cam_zoom (MapView.cameraRef st)))
  = Js.sqrt_lt (Js.dist2 mouseX mouseY
                         (Viewport.screenX dims (MapView.camera st) px)
                         (Viewport.screenY dims (MapView.camera st) py))
               (Js.Num 10).
Proof.
  intros Hsync Hz dims. rewrite Hsync. apply ten_pixel_radius, Hz.
Qed.

Lemma hover_radius_is_10_screen_pixels_witness :
  let st := MapView.run Examples.four_systems (MapView.mount Examples.square)
              [MapView.EInit Examples.square; MapView.EWheel false 600 400;
               MapView.EWheelFrame Examples.noOffset] in
  Js.sqrt_lt (Js.dist2 (Viewport.worldX Examples.square (MapView.cameraRef st) 501)
                       (Viewport.worldY Examples.square (MapView.cameraRef st) 501)
                       500 500)
             (Js.Num (10 / cam_zoom (MapView.cameraRef st)))
  = Js.sqrt_lt (Js.dist2 501 501
                         (Viewport.screenX Examples.square (MapView.camera st) 500)
                         (Viewport.screenY Examples.square (MapView.camera st) 500))
               (Js.Num 10).
Proof.
  intros st.
  apply (hover_radius_is_10_screen_pixels st 501 501 500 500).
  - reflexivity.
  - reflexivity.
Defined.

(** ** The bounding box and the padded projection of the map view *)

(** X6: for a non-empty system list, [bounds] is the tight bounding box
    of the system positions: every system lies inside it and each of
    its four sides passes through a system. *)
Theorem bounds_is_tight_bounding_box (systems : list MapView.SolarSystem) :
  systems <> [] ->
  let b := MapView.bounds systems in
  (forall s, s ∈ systems ->
             MapView.minX b <= MapView.posX s <= MapView.maxX b
             /\ MapView.minY b <= MapView.posY s <= MapView.maxY b)
  /\ (exists s, s ∈ systems /\ MapView.minX b == MapView.posX s)
  /\ (exists s, s ∈ systems /\ MapView.maxX b == MapView.posX s)
  /\ (exists s, s ∈ systems /\ MapView.minY b == MapView.posY s)
  /\ (exists s, s ∈ systems /\ MapView.maxY b == MapView.posY s).
Proof. exact (bounds_spec systems). Qed.

Lemma bounds_is_tight_bounding_box_witness :
  let b := MapView.bounds Examples.four_systems in
  (forall s, s ∈ Examples.four_systems ->
             MapView.minX b <= MapView.posX s <= MapView.maxX b
             /\ MapView.minY b <= MapView.posY s <= MapView.maxY b)
  /\ (exists s, s ∈ Examples.four_systems /\ MapView.minX b == MapView.posX s)
  /\ (exists s, s ∈ Examples.four_systems /\ MapView.maxX b == MapView.posX s)
  /\ (exists s, s ∈ Examples.four_systems /\ MapView.minY b == MapView.posY s)
  /\ (exists s, s ∈ Examples.four_systems /\ MapView.maxY b == MapView.posY s).
Proof.
  apply (bounds_is_tight_bounding_box Examples.four_systems). discriminate.
Defined.








(** X8: for a non-empty system list the camera-initialisation effect of
    the map view sets the camera state and the camera ref to a camera of
    zoom 2 that draws the middle of the projected bounding box at the
    centre of the surface. *)
Theorem map_initial_camera_centres_map (systems : list MapView.SolarSystem)
        (dims : Dimensions) (st : MapView.State) :
  systems <> [] ->
  let st' := MapView.initEffect systems dims st in
  let b := MapView.bounds systems in
  let cd := MapView.coordinateData b dims in
  let midX := (MapView.toCanvasX cd (MapView.minX b) + MapView.toCanvasX cd (MapView.maxX b)) / 2 in
  let midY := (MapView.toCanvasY cd dims (MapView.minY b)
               + MapView.toCanvasY cd dims (MapView.maxY b)) / 2 in
  MapView.cameraInitialized st' = true
  /\ MapView.cameraRef st' = MapView.camera st'
  /\ MapView.dimensions st' = dims
  /\ Viewport.screenX dims (MapView.camera st') midX == width dims / 2
  /\ Viewport.screenY dims (MapView.camera st') midY == height dims / 2
  /\ cam_zoom (MapView.camera st') = 2.
Proof.
  intros Hne st' b cd midX midY.
  assert (E : MapView.camera st' = MapView.initialCamera cd dims
              /\ MapView.cameraRef st' = MapView.camera st'
              /\ MapView.cameraInitialized st' = true
              /\ MapView.dimensions st' = dims).
  { subst st' cd b. unfold MapView.initEffect.
    destruct systems; [congruence|]. repeat split. }
  destruct E as (Ec & Er & Ei & Ed).
  split; [exact Ei|]. split; [exact Er|]. split; [exact Ed|]. rewrite Ec.
  subst midX midY.
  unfold Viewport.screenX, Viewport.screenY, MapView.initialCamera,
    MapView.toCanvasX, MapView.toCanvasY.
  cbn [cam_x cam_y cam_zoom].
  change (MapView.cd_bounds cd) with b. change (MapView.padding cd) with 50.
  generalize (MapView.scale cd). intros k. clearbody b. clear cd Ec Er Ei Ed.
  split; [field | split; [field | reflexivity]].
Qed.

Lemma map_initial_camera_centres_map_witness :
  let st' := MapView.initEffect Examples.four_systems Examples.square
               (MapView.mount Examples.square) in
  let b := MapView.bounds Examples.four_systems in
  let cd := MapView.coordinateData b Examples.square in
  MapView.cameraInitialized st' = true
  /\ Viewport.screenX Examples.square (MapView.camera st')
       ((MapView.toCanvasX cd (MapView.minX b) + MapView.toCanvasX cd (MapView.maxX b)) / 2)
     == width Examples.square / 2.
Proof.
  intros st' b cd.
  destruct (map_initial_camera_centres_map Examples.four_systems Examples.square
              (MapView.mount Examples.square)) as (Hi & _ & _ & Hx & _).
  - discriminate.
  - split; [exact Hi | exact Hx].
Defined.

(** X9: the initial camera of the local view draws the origin of the
    system, where the star sits, at the centre of the surface, at
    zoom 1. *)
Theorem local_initial_camera_centres_origin (systemData : option SystemView.SystemData)
        (dims : Dimensions) :
  let cd := SystemView.coordinateData (SystemView.objectBounds systemData) dims in
  let cam := SystemView.initialCamera cd dims in
  let p := SystemView.toCanvasCoords cd dims SystemView.origin in
  Viewport.screenX dims cam (fst p) == width dims / 2
  /\ Viewport.screenY dims cam (snd p) == height dims / 2
  /\ cam_zoom cam = 1.
Proof.
  intros cd cam p. subst p cam.
  unfold Viewport.screenX, Viewport.screenY, SystemView.initialCamera,
    SystemView.toCanvasCoords, SystemView.origin.
  cbn [cam_x cam_y cam_zoom fst snd SystemView.pos_x SystemView.pos_z].
  generalize (SystemView.scale cd) (SystemView.padding cd) (SystemView.cd_bounds cd).
  intros k pad b. clear cd.
  split; [field | split; [field | reflexivity]].
Qed.

(** ** Dragging *)

Lemma mapview_drag_events (systems : list MapView.SolarSystem)
      (between : list MapView.Event) (st : MapView.State) :
  forallb MapView.dragEvent between = true ->
  MapView.isDragging st = true ->
  let st' := MapView.run systems st between in
  MapView.isDragging st' = true
  /\ MapView.dragStart st' = MapView.dragStart st
  /\ cam_zoom (MapView.cameraRef st') = cam_zoom (MapView.cameraRef st)
  /\ MapView.dimensions st' = MapView.dimensions st.
Proof.
  revert st. induction between as [|e es IH]; intros st Hes Hd; simpl.
  - repeat split; auto.
  - simpl in Hes. apply andb_true_iff in Hes as [He Hes].
    assert (Hstep : MapView.isDragging (MapView.step systems st e) = true
                    /\ MapView.dragStart (MapView.step systems st e) = MapView.dragStart st
                    /\ cam_zoom (MapView.cameraRef (MapView.step systems st e))
                       = cam_zoom (MapView.cameraRef st)
                    /\ MapView.dimensions (MapView.step systems st e) = MapView.dimensions st).
    { destruct e; try discriminate He; simpl.
      - unfold MapView.handleMouseMove. rewrite Hd. simpl. repeat split; auto.
      - unfold MapView.dragRaf. destruct (MapView.renderRequested st); simpl; repeat split; auto. }
    destruct Hstep as (H1 & H2 & H3 & H4).
    destruct (IH (MapView.step systems st e) Hes H1) as (I1 & I2 & I3 & I4).
    unfold MapView.run in *. repeat split; congruence.
Qed.

Lemma mapview_drag (systems : list MapView.SolarSystem) (st : MapView.State)
      (downX downY : Q) (between : list MapView.Event) (clientX clientY : Q) :
  forallb MapView.dragEvent between = true ->
  let st' := MapView.run systems st
               (MapView.EMouseDown downX downY :: between
                ++ [MapView.EMouseMove clientX clientY]) in
  MapView.cameraRef st'
  = {| cam_x := clientX - (downX - cam_x (MapView.cameraRef st));
       cam_y := clientY - (downY - cam_y (MapView.cameraRef st));
       cam_zoom := cam_zoom (MapView.cameraRef st) |}
  /\ MapView.camera (MapView.step systems st' MapView.EDragFrame) = MapView.cameraRef st'
  /\ MapView.camera (MapView.step systems st' MapView.EMouseUp) = MapView.cameraRef st'
  /\ (forall canvasRect,
         ~ cam_zoom (MapView.cameraRef st) == 0 ->
         Viewport.worldX (MapView.dimensions st') (MapView.cameraRef st')
                         (clientX - rect_left canvasRect)
         == Viewport.worldX (MapView.dimensions st) (MapView.cameraRef st)
                            (downX - rect_left canvasRect)
         /\ Viewport.worldY (MapView.dimensions st') (MapView.cameraRef st')
                            (clientY - rect_top canvasRect)
            == Viewport.worldY (MapView.dimensions st) (MapView.cameraRef st)
                               (downY - rect_top canvasRect)).
Proof.
  intros Hes st'. subst st'. unfold MapView.run. simpl. rewrite fold_left_app. simpl.
  pose proof (mapview_drag_events systems between (MapView.handleMouseDown downX downY st)
                                  Hes eq_refl) as (H1 & H2 & H3 & H4).
  unfold MapView.run in *.
  set (mid := fold_left (MapView.step systems) between
                        (MapView.handleMouseDown downX downY st)) in *.
  simpl in H2, H3, H4.
  unfold MapView.handleMouseMove. rewrite H1.
  cbn [MapView.cameraRef MapView.camera MapView.dragRaf MapView.handleMouseUp_camera
       MapView.renderRequested MapView.isDragging MapView.dimensions].
  rewrite H2, H3, H4. cbn [fst snd].
  split; [reflexivity|]. split; [reflexivity|]. split; [reflexivity|].
  intros r Hz. unfold Viewport.worldX, Viewport.worldY. cbn [cam_x cam_y cam_zoom].
  split; field; exact Hz.
Qed.

Lemma systemview_drag_events (between : list SystemView.Event) (st : SystemView.State) :
  forallb SystemView.dragEvent between = true ->
  SystemView.isDragging st = true ->
  let st' := SystemView.run st between in
  SystemView.isDragging st' = true
  /\ SystemView.dragStart st' = SystemView.dragStart st
  /\ cam_zoom (SystemView.cameraRef st') = cam_zoom (SystemView.cameraRef st)
  /\ SystemView.dimensions st' = SystemView.dimensions st.
Proof.
  revert st. induction between as [|e es IH]; intros st Hes Hd; simpl.
  - repeat split; auto.
  - simpl in Hes. apply andb_true_iff in Hes as [He Hes].
    assert (Hstep : SystemView.isDragging (SystemView.step st e) = true
                    /\ SystemView.dragStart (SystemView.step st e) = SystemView.dragStart st
                    /\ cam_zoom (SystemView.cameraRef (SystemView.step st e))
                       = cam_zoom (SystemView.cameraRef st)
                    /\ SystemView.dimensions (SystemView.step st e) = SystemView.dimensions st).
    { destruct e; try discriminate He; simpl.
      - unfold SystemView.handleMouseMove. rewrite Hd. simpl. repeat split; auto.
      - unfold SystemView.dragRaf.
        destruct (SystemView.renderRequested st); simpl; repeat split; auto. }
    destruct Hstep as (H1 & H2 & H3 & H4).
    destruct (IH (SystemView.step st e) Hes H1) as (I1 & I2 & I3 & I4).
    unfold SystemView.run in *. repeat split; congruence.
Qed.

Lemma systemview_drag (st : SystemView.State)
      (downX downY : Q) (between : list SystemView.Event) (clientX clientY : Q) :
  forallb SystemView.dragEvent between = true ->
  let st' := SystemView.run st
               (SystemView.EMouseDown downX downY :: between
                ++ [SystemView.EMouseMove clientX clientY]) in
  SystemView.cameraRef st'
  = {| cam_x := clientX - (downX - cam_x (SystemView.cameraRef st));
       cam_y := clientY - (downY - cam_y (SystemView.cameraRef st));
       cam_zoom := cam_zoom (SystemView.cameraRef st) |}
  /\ SystemView.camera (SystemView.step st' SystemView.EDragFrame) = SystemView.cameraRef st'
  /\ SystemView.camera (SystemView.step st' SystemView.EMouseUp) = SystemView.cameraRef st'
  /\ (forall canvasRect,
         ~ cam_zoom (SystemView.cameraRef st) == 0 ->
         Viewport.worldX (SystemView.dimensions st') (SystemView.cameraRef st')
                         (clientX - rect_left canvasRect)
         == Viewport.worldX (SystemView.dimensions st) (SystemView.cameraRef st)
                            (downX - rect_left canvasRect)
         /\ Viewport.worldY (SystemView.dimensions st') (SystemView.cameraRef st')
                            (clientY - rect_top canvasRect)
            == Viewport.worldY (SystemView.dimensions st) (SystemView.cameraRef st)
                               (downY - rect_top canvasRect)).
Proof.
  intros Hes st'. subst st'. unfold SystemView.run. simpl. rewrite fold_left_app. simpl.
  pose proof (systemview_drag_events between (SystemView.handleMouseDown downX downY st)
                                     Hes eq_refl) as (H1 & H2 & H3 & H4).
  unfold SystemView.run in *.
  set (mid := fold_left SystemView.step between
                        (SystemView.handleMouseDown downX downY st)) in *.
  simpl in H2, H3, H4.
  unfold SystemView.handleMouseMove. rewrite H1.
  cbn [SystemView.cameraRef SystemView.camera SystemView.dragRaf
       SystemView.handleMouseUp_camera
       SystemView.renderRequested SystemView.isDragging SystemView.dimensions].
  rewrite H2, H3, H4. cbn [fst snd].
  split; [reflexivity|]. split; [reflexivity|]. split; [reflexivity|].
  intros r Hz. unfold Viewport.worldX, Viewport.worldY. cbn [cam_x cam_y cam_zoom].
  split; field; exact Hz.
Qed.


(** X10: a drag, in either view.  After a mouse down at
    [(downX, downY)], any pointer moves and drag frames, and a pointer
    move to [(clientX, clientY)], the camera ref is the camera of the
    mouse down shifted by the pointer's displacement, at the same zoom;
    the next drag frame, or the mouse up, copies it into the camera
    state; and the point that was under the pointer at the mouse down is
    still under it. *)
Theorem drag_pans_with_pointer :
  (forall (systems : list MapView.SolarSystem) (st : MapView.State)
          (downX downY : Q) (between : list MapView.Event) (clientX clientY : Q),
      forallb MapView.dragEvent between = true ->
      let st' := MapView.run systems st
                   (MapView.EMouseDown downX downY :: between
                    ++ [MapView.EMouseMove clientX clientY]) in
      MapView.cameraRef st'
      = {| cam_x := clientX - (downX - cam_x (MapView.cameraRef st));
           cam_y := clientY - (downY - cam_y (MapView.cameraRef st));
           cam_zoom := cam_zoom (MapView.cameraRef st) |}
      /\ MapView.camera (MapView.step systems st' MapView.EDragFrame) = MapView.cameraRef st'
      /\ MapView.camera (MapView.step systems st' MapView.EMouseUp) = MapView.cameraRef st'
      /\ (forall canvasRect,
             ~ cam_zoom (MapView.cameraRef st) == 0 ->
             Viewport.worldX (MapView.dimensions st') (MapView.cameraRef st')
                             (clientX - rect_left canvasRect)
             == Viewport.worldX (MapView.dimensions st) (MapView.cameraRef st)
                                (downX - rect_left canvasRect)
             /\ Viewport.worldY (MapView.dimensions st') (MapView.cameraRef st')
                                (clientY - rect_top canvasRect)
                == Viewport.worldY (MapView.dimensions st) (MapView.cameraRef st)
                                   (downY - rect_top canvasRect)))
  /\ (forall (st : SystemView.State)
             (downX downY : Q) (between : list SystemView.Event) (clientX clientY : Q),
         forallb SystemView.dragEvent between = true ->
         let st' := SystemView.run st
                      (SystemView.EMouseDown downX downY :: between
                       ++ [SystemView.EMouseMove clientX clientY]) in
         SystemView.cameraRef st'
         = {| cam_x := clientX - (downX - cam_x (SystemView.cameraRef st));
              cam_y := clientY - (downY - cam_y (SystemView.cameraRef st));
              cam_zoom := cam_zoom (SystemView.cameraRef st) |}
         /\ SystemView.camera (SystemView.step st' SystemView.EDragFrame)
            = SystemView.cameraRef st'
         /\ SystemView.camera (SystemView.step st' SystemView.EMouseUp)
            = SystemView.cameraRef st'
         /\ (forall canvasRect,
                ~ cam_zoom (SystemView.cameraRef st) == 0 ->
                Viewport.worldX (SystemView.dimensions st') (SystemView.cameraRef st')
                                (clientX - rect_left canvasRect)
                == Viewport.worldX (SystemView.dimensions st) (SystemView.cameraRef st)
                                   (downX - rect_left canvasRect)
                /\ Viewport.worldY (SystemView.dimensions st') (SystemView.cameraRef st')
                                   (clientY - rect_top canvasRect)
                   == Viewport.worldY (SystemView.dimensions st) (SystemView.cameraRef st)
                                      (downY - rect_top canvasRect))).
Proof. split; [exact mapview_drag | exact systemview_drag]. Qed.

Lemma drag_pans_with_pointer_witness :
  MapView.cameraRef
    (MapView.run Examples.four_systems
       (Examples.idle Examples.surface Examples.unit_camera (0, 0))
       [MapView.EMouseDown 100 100; MapView.EMouseMove 110 105; MapView.EDragFrame;
        MapView.EMouseMove 130 90])
  = {| cam_x := 130 - (100 - 0); cam_y := 90 - (100 - 0); cam_zoom := 1 |}.
Proof.
  apply (proj1 drag_pans_with_pointer Examples.four_systems
           (Examples.idle Examples.surface Examples.unit_camera (0, 0))
           100 100 [MapView.EMouseMove 110 105; MapView.EDragFrame] 130 90).
  reflexivity.
Defined.

(** ** Wheel ticks between two frames *)

Lemma mapview_wheel_events (systems : list MapView.SolarSystem)
      (ticks : list (bool * Q * Q)) (st : MapView.State) :
  let st' := MapView.run systems st (MapView.wheelEvents ticks) in
  MapView.cameraRef st' = MapView.cameraRef st
  /\ MapView.camera st' = MapView.camera st
  /\ MapView.dimensions st' = MapView.dimensions st
  /\ MapView.pendingZoomDelta st'
     = MapView.accumulated (MapView.pendingZoomDelta st) ticks.
Proof.
  revert st. induction ticks as [|[[d cx] cy] ticks IH]; intros st; simpl.
  - repeat split; reflexivity.
  - destruct (IH (MapView.handleWheelEvent d cx cy st)) as (H1 & H2 & H3 & H4).
    unfold MapView.run, MapView.accumulated in *. simpl in *.
    repeat split; assumption.
Qed.

Lemma mapview_wheel (systems : list MapView.SolarSystem) (st : MapView.State)
      (ticks : list (bool * Q * Q)) (deltaYpos : bool) (clientX clientY : Q)
      (canvasRect : Rect) :
  let all := ticks ++ [(deltaYpos, clientX, clientY)] in
  let st' := MapView.run systems st
               (MapView.wheelEvents all ++ [MapView.EWheelFrame canvasRect]) in
  MapView.cameraRef st'
  = Viewport.wheelFrame (MapView.dimensions st) (MapView.cameraRef st)
      (clientX - rect_left canvasRect) (clientY - rect_top canvasRect)
      (MapView.accumulated (MapView.pendingZoomDelta st) all)
  /\ MapView.camera st' = MapView.cameraRef st'
  /\ MapView.pendingZoomDelta st' = 0
  /\ forall canvasRect', MapView.step systems st' (MapView.EWheelFrame canvasRect') = st'.
Proof.
  intros all st'. subst st' all. unfold MapView.run, MapView.wheelEvents.
  rewrite map_app, !fold_left_app. cbn [List.map fold_left MapView.step].
  pose proof (mapview_wheel_events systems ticks st) as (H1 & H2 & H3 & H4).
  unfold MapView.run, MapView.wheelEvents in *.
  set (mid := fold_left (MapView.step systems) _ st) in *.
  unfold MapView.wheelRaf at 1 2 3.
  cbn [MapView.handleWheelEvent MapView.wheelRafId MapView.cameraRef MapView.camera
       MapView.pendingZoomDelta MapView.lastWheelMouse MapView.dimensions fst snd].
  rewrite H1, H3, H4.
  unfold MapView.accumulated. rewrite fold_left_app. cbn [fold_left].
  split; [reflexivity|]. split; [reflexivity|]. split; [reflexivity|].
  intros r'. unfold MapView.wheelRaf.
  cbn [MapView.handleWheelEvent MapView.wheelRafId]. reflexivity.
Qed.

Lemma systemview_wheel_events (ticks : list (bool * Q * Q)) (st : SystemView.State) :
  let st' := SystemView.run st (SystemView.wheelEvents ticks) in
  SystemView.cameraRef st' = SystemView.cameraRef st
  /\ SystemView.camera st' = SystemView.camera st
  /\ SystemView.dimensions st' = SystemView.dimensions st
  /\ SystemView.pendingZoomDelta st'
     = SystemView.accumulated (SystemView.pendingZoomDelta st) ticks.
Proof.
  revert st. induction ticks as [|[[d cx] cy] ticks IH]; intros st; simpl.
  - repeat split; reflexivity.
  - destruct (IH (SystemView.handleWheelEvent d cx cy st)) as (H1 & H2 & H3 & H4).
    unfold SystemView.run, SystemView.accumulated in *. simpl in *.
    repeat split; assumption.
Qed.

Lemma systemview_wheel (st : SystemView.State)
      (ticks : list (bool * Q * Q)) (deltaYpos : bool) (clientX clientY : Q)
      (canvasRect : Rect) :
  let all := ticks ++ [(deltaYpos, clientX, clientY)] in
  let st' := SystemView.run st
               (SystemView.wheelEvents all ++ [SystemView.EWheelFrame canvasRect]) in
  SystemView.cameraRef st'
  = Viewport.wheelFrame (SystemView.dimensions st) (SystemView.cameraRef st)
      (clientX - rect_left canvasRect) (clientY - rect_top canvasRect)
      (SystemView.accumulated (SystemView.pendingZoomDelta st) all)
  /\ SystemView.camera st' = SystemView.cameraRef st'
  /\ SystemView.pendingZoomDelta st' = 0
  /\ forall canvasRect', SystemView.step st' (SystemView.EWheelFrame canvasRect') = st'.
Proof.
  intros all st'. subst st' all. unfold SystemView.run, SystemView.wheelEvents.
  rewrite map_app, !fold_left_app. cbn [List.map fold_left SystemView.step].
  pose proof (systemview_wheel_events ticks st) as (H1 & H2 & H3 & H4).
  unfold SystemView.run, SystemView.wheelEvents in *.
  set (mid := fold_left SystemView.step _ st) in *.
  unfold SystemView.wheelRaf at 1 2 3.
  cbn [SystemView.handleWheelEvent SystemView.wheelRafId SystemView.cameraRef
       SystemView.camera SystemView.pendingZoomDelta SystemView.lastWheelMouse
       SystemView.dimensions fst snd].
  rewrite H1, H3, H4.
  unfold SystemView.accumulated. rewrite fold_left_app. cbn [fold_left].
  split; [reflexivity|]. split; [reflexivity|]. split; [reflexivity|].
  intros r'. unfold SystemView.wheelRaf.
  cbn [SystemView.handleWheelEvent SystemView.wheelRafId]. reflexivity.
Qed.

(** X11: wheel ticks that arrive before the scheduled frame runs are
    applied together, in either view: the frame is one zoom step from
    the camera ref with the sum of the ticks' deltas, anchored at the
    position of the last tick; it writes the ref and the camera state,
    resets the pending delta, and a frame callback with nothing pending
    changes nothing. *)
Theorem wheel_ticks_coalesce :
  (forall (systems : list MapView.SolarSystem) (st : MapView.State)
          (ticks : list (bool * Q * Q)) (deltaYpos : bool) (clientX clientY : Q)
          (canvasRect : Rect),
      let all := ticks ++ [(deltaYpos, clientX, clientY)] in
      let st' := MapView.run systems st
                   (MapView.wheelEvents all ++ [MapView.EWheelFrame canvasRect]) in
      MapView.cameraRef st'
      = Viewport.wheelFrame (MapView.dimensions st) (MapView.cameraRef st)
          (clientX - rect_left canvasRect) (clientY - rect_top canvasRect)
          (MapView.accumulated (MapView.pendingZoomDelta st) all)
      /\ MapView.camera st' = MapView.cameraRef st'
      /\ MapView.pendingZoomDelta st' = 0
      /\ forall canvasRect', MapView.step systems st' (MapView.EWheelFrame canvasRect') = st')
  /\ (forall (st : SystemView.State)
             (ticks : list (bool * Q * Q)) (deltaYpos : bool) (clientX clientY : Q)
             (canvasRect : Rect),
         let all := ticks ++ [(deltaYpos, clientX, clientY)] in
         let st' := SystemView.run st
                      (SystemView.wheelEvents all ++ [SystemView.EWheelFrame canvasRect]) in
         SystemView.cameraRef st'
         = Viewport.wheelFrame (SystemView.dimensions st) (SystemView.cameraRef st)
             (clientX - rect_left canvasRect) (clientY - rect_top canvasRect)
             (SystemView.accumulated (SystemView.pendingZoomDelta st) all)
         /\ SystemView.camera st' = SystemView.cameraRef st'
         /\ SystemView.pendingZoomDelta st' = 0
         /\ forall canvasRect',
             SystemView.step st' (SystemView.EWheelFrame canvasRect') = st').
Proof. split; [exact mapview_wheel | exact systemview_wheel]. Qed.

Lemma clamp_in_range (v : Q) : 0.1 <= v <= 10 -> Js.clamp 0.1 10 v == v.
Proof.
  intros [Hl Hh]. unfold Js.clamp.
  rewrite (Q.min_r 10 v Hh). apply Q.max_r. exact Hl.
Qed.

Lemma clamp_compat (v w : Q) : v == w -> Js.clamp 0.1 10 v == Js.clamp 0.1 10 w.
Proof. intros E. unfold Js.clamp. rewrite E. reflexivity. Qed.

(** X12: zoom steps are relative to the zoom of the camera ref and the
    ticks of one frame are added up before the step.  From a camera ref
    in range with nothing pending, a wheel-down tick and a wheel-up tick,
    in either order, that fall into the same frame cancel: the frame
    leaves the zoom where it was, writes the camera state and resets the
    pending delta. *)
Theorem wheel_ticks_cancel_within_a_frame (systems : list MapView.SolarSystem)
        (st : MapView.State) (downFirst : bool) (x1 y1 x2 y2 : Q) (r : Rect) :
  MapView.pendingZoomDelta st = 0 ->
  Viewport.zoom_ok (MapView.cameraRef st) ->
  let same := MapView.run systems st
                [MapView.EWheel downFirst x1 y1; MapView.EWheel (negb downFirst) x2 y2;
                 MapView.EWheelFrame r] in
  cam_zoom (MapView.cameraRef same) == cam_zoom (MapView.cameraRef st)
  /\ MapView.camera same = MapView.cameraRef same
  /\ MapView.pendingZoomDelta same = 0
  /\ MapView.wheelRafId same = false.
Proof.
  intros Hp Hz same. subst same.
  destruct Hz as [Hlo Hhi].
  unfold MapView.run. cbn [fold_left MapView.step].
  unfold MapView.wheelRaf.
  cbn [MapView.handleWheelEvent MapView.wheelRafId MapView.cameraRef MapView.camera
       MapView.pendingZoomDelta MapView.lastWheelMouse MapView.dimensions fst snd].
  rewrite Hp.
  split; [|repeat split].
  rewrite wheelFrame_zoom.
  rewrite (clamp_compat _ (cam_zoom (MapView.cameraRef st)))
    by (destruct downFirst; cbn [negb]; ring).
  apply clamp_in_range. split; assumption.
Qed.

Lemma wheel_ticks_cancel_within_a_frame_witness :
  cam_zoom (MapView.cameraRef
              (MapView.run Examples.four_systems
                 (Examples.idle Examples.surface Examples.unit_camera (0, 0))
                 [MapView.EWheel true 10 10; MapView.EWheel (negb true) 20 20;
                  MapView.EWheelFrame Examples.noOffset]))
  == cam_zoom Examples.unit_camera.
Proof.
  apply (wheel_ticks_cancel_within_a_frame Examples.four_systems
           (Examples.idle Examples.surface Examples.unit_camera (0, 0))
           true 10 10 20 20 Examples.noOffset).
  - reflexivity.
  - split; discriminate.
Defined.

(** ** Search selection *)

Lemma select_cases (systems : list MapView.SolarSystem) (type : MapView.ResultType)
      (id : N) (st : MapView.State) :
  MapView.handleSelectResult systems type id st = st
  \/ exists c, MapView.handleSelectResult systems type id st = MapView.set_camera st c.
Proof.
  unfold MapView.handleSelectResult. destruct type.
  - destruct (MapView.systemMap systems id); [right; eexists; reflexivity | left; reflexivity].
  - destruct (List.filter _ systems); [left; reflexivity | right; eexists; reflexivity].
Qed.

(** X13: selecting a search result.  A known system is put at the centre
    of the surface at zoom 8, a region with systems has the mean of its
    systems' positions put there at zoom 4, and an unknown id changes
    nothing.  Only the camera state is written. *)
Theorem select_result_centres_target (systems : list MapView.SolarSystem)
        (id : N) (st : MapView.State) :
  let dims := MapView.dimensions st in
  let cd := MapView.coordinateData (MapView.bounds systems) dims in
  let centred (cam : Camera) (x y zoom : Q) :=
    Viewport.screenX dims cam (MapView.toCanvasX cd x) == width dims / 2
    /\ Viewport.screenY dims cam (MapView.toCanvasY cd dims y) == height dims / 2
    /\ cam_zoom cam = zoom in
  (forall system,
      MapView.systemMap systems id = Some system ->
      centred (MapView.camera (MapView.handleSelectResult systems MapView.RSystem id st))
              (MapView.posX system) (MapView.posY system) 8)
  /\ (MapView.systemMap systems id = None ->
      MapView.handleSelectResult systems MapView.RSystem id st = st)
  /\ (let regionSystems := List.filter (fun s => N.eqb (MapView.regionID s) id) systems in
      match regionSystems with
      | [] => MapView.handleSelectResult systems MapView.RRegion id st = st
      | _ =>
        centred (MapView.camera (MapView.handleSelectResult systems MapView.RRegion id st))
                (MapView.mean MapView.posX regionSystems)
                (MapView.mean MapView.posY regionSystems) 4
      end)
  /\ forall type,
      MapView.cameraRef (MapView.handleSelectResult systems type id st)
      = MapView.cameraRef st.
Proof.
  intros dims cd centred.
  assert (Hc : forall x y zoom,
             centred {| cam_x := - (MapView.toCanvasX cd x - width dims / 2) * zoom;
                        cam_y := - (MapView.toCanvasY cd dims y - height dims / 2) * zoom;
                        cam_zoom := zoom |} x y zoom).
  { intros x y zoom. subst centred. cbv beta.
    unfold Viewport.screenX, Viewport.screenY. cbn [cam_x cam_y cam_zoom].
    generalize (MapView.toCanvasX cd x) (MapView.toCanvasY cd dims y). intros u v.
    split; [ring | split; [ring | reflexivity]]. }
  split; [|split; [|split]].
  - intros system Hs. unfold MapView.handleSelectResult. rewrite Hs.
    cbn [MapView.set_camera MapView.camera]. apply Hc.
  - intros Hs. unfold MapView.handleSelectResult. rewrite Hs. reflexivity.
  - cbv zeta. unfold MapView.handleSelectResult.
    destruct (List.filter _ systems) as [|s0 l] eqn:E; [reflexivity|].
    cbn [MapView.set_camera MapView.camera]. apply Hc.
  - intros type.
    destruct (select_cases systems type id st) as [->|[c ->]]; reflexivity.
Qed.

(** X14: a selection is invisible to the handlers that read the camera
    ref.  The wheel frame that follows a selection computes the same
    state as without the selection, and a click is resolved against the
    camera of before the selection. *)
Theorem selection_not_seen_by_camera_ref (systems : list MapView.SolarSystem)
        (type : MapView.ResultType) (id : N) (st : MapView.State) :
  let selected := MapView.handleSelectResult systems type id st in
  (forall deltaYpos clientX clientY canvasRect,
      MapView.run systems selected
        [MapView.EWheel deltaYpos clientX clientY; MapView.EWheelFrame canvasRect]
      = MapView.run systems st
          [MapView.EWheel deltaYpos clientX clientY; MapView.EWheelFrame canvasRect])
  /\ (forall canvasRect clientX clientY,
         MapView.handleMouseUp systems canvasRect selected clientX clientY
         = MapView.handleMouseUp systems canvasRect st clientX clientY).
Proof.
  intros selected. subst selected.
  destruct (select_cases systems type id st) as [->|[c ->]].
  - split; reflexivity.
  - split; reflexivity.
Qed.

(** ** More on the relaxation *)

Lemma fold_inv {S A : Type} (P : S -> Prop) (f : S -> A -> S) (l : list A) (st : S) :
  (forall st x, P st -> P (f st x)) -> P st -> P (fold_left f l st).
Proof.
  intros Hf. revert st. induction l as [|x l IH]; intros st H; simpl; [exact H|].
  apply IH, Hf, H.
Qed.

Lemma iteration_inv (pushVector : Q -> Q -> Q * Q) (P : SystemView.RelaxState -> Prop)
      (objs0 : list SystemView.Marker) :
  (forall i j st, P st -> P (SystemView.checkPair pushVector i j st)) ->
  P {| SystemView.objs := objs0; SystemView.checkedPairs := ∅;
       SystemView.hadCollision := false |} ->
  exists st, P st
             /\ SystemView.iteration pushVector objs0
                = (SystemView.objs st, SystemView.hadCollision st).
Proof.
  intros Hstep H0. unfold SystemView.iteration. cbv zeta.
  eexists. split; [|reflexivity].
  apply fold_inv; [|exact H0].
  intros st i Hst. unfold SystemView.visitObject.
  destruct (SystemView.objs st !! i); [|exact Hst].
  apply fold_inv; [|exact Hst].
  intros st' [dx dy] Hst'. unfold SystemView.visitCell.
  destruct (_ !! _); [|exact Hst'].
  apply fold_inv; [|exact Hst'].
  intros st'' j. apply Hstep.
Qed.

Lemma checkPair_settled (pushVector : Q -> Q -> Q * Q) (objs0 : list SystemView.Marker)
      (i j : nat) (st : SystemView.RelaxState) :
  SystemView.settled objs0 ->
  SystemView.objs st = objs0 /\ SystemView.hadCollision st = false ->
  SystemView.objs (SystemView.checkPair pushVector i j st) = objs0
  /\ SystemView.hadCollision (SystemView.checkPair pushVector i j st) = false.
Proof.
  intros Hs [Ho Hh]. unfold SystemView.checkPair.
  destruct (i =? j)%nat eqn:Eij; [auto|]. apply Nat.eqb_neq in Eij.
  destruct (decide _); [auto|].
  destruct (SystemView.objs st !! i) as [o1|] eqn:E1; [|auto].
  destruct (SystemView.objs st !! j) as [o2|] eqn:E2; [|auto].
  rewrite Ho in E1, E2.
  pose proof (Hs i j o1 o2 Eij E1 E2) as Hc.
  unfold SystemView.collide, SystemView.distance2 in Hc. cbv zeta in Hc.
  cbv zeta. rewrite Hc. auto.
Qed.

Lemma iteration_settled (pushVector : Q -> Q -> Q * Q) (objs0 : list SystemView.Marker) :
  SystemView.settled objs0 -> SystemView.iteration pushVector objs0 = (objs0, false).
Proof.
  intros Hs.
  destruct (iteration_inv pushVector
              (fun st => SystemView.objs st = objs0 /\ SystemView.hadCollision st = false)
              objs0) as (st & [Ho Hh] & ->).
  - intros i j st. apply checkPair_settled, Hs.
  - split; reflexivity.
  - rewrite Ho, Hh. reflexivity.
Qed.

Lemma relax_count (pushVector : Q -> Q -> Q * Q) (budget : nat)
      (objs0 : list SystemView.Marker) :
  (1 <= snd (SystemView.relax pushVector (S budget) objs0))%nat.
Proof.
  cbn [SystemView.relax].
  destruct (SystemView.iteration pushVector objs0) as [objs1 [|]].
  - destruct (SystemView.relax pushVector budget objs1). simpl. lia.
  - simpl. lia.
Qed.

Lemma relax_settled (pushVector : Q -> Q -> Q * Q) (budget : nat)
      (objs0 : list SystemView.Marker) :
  SystemView.relax pushVector (S (S budget)) objs0 = (objs0, 1%nat)
  <-> SystemView.settled objs0.
Proof.
  change (SystemView.relax pushVector (S (S budget)) objs0)
    with (let '(objs1, had) := SystemView.iteration pushVector objs0 in
          if had then
            let '(objs2, n) := SystemView.relax pushVector (S budget) objs1 in (objs2, S n)
          else (objs1, 1%nat)).
  split.
  - intros H. pose proof (iteration_quiet pushVector objs0) as Hq.
    destruct (SystemView.iteration pushVector objs0) as [objs1 [|]].
    + pose proof (relax_count pushVector budget objs1) as Hc.
      destruct (SystemView.relax pushVector (S budget) objs1) as [objs2 n].
      simpl in Hc. injection H as _ Hn. lia.
    + apply Hq. reflexivity.
  - intros Hs. rewrite (iteration_settled pushVector objs0 Hs). reflexivity.
Qed.

(** X15: the pass stops after its first iteration with every marker
    where it was exactly when no two markers collide, that is, when
    every two of them are at distance 0 or at least [minSeparation]. *)
Theorem relaxation_leaves_settled_layout (pushVector : Q -> Q -> Q * Q)
        (objs0 : list SystemView.Marker) :
  SystemView.relaxation pushVector objs0 = (objs0, 1%nat)
  <-> (forall i j obj1 obj2,
          i <> j -> objs0 !! i = Some obj1 -> objs0 !! j = Some obj2 ->
          225 <= SystemView.distance2 obj1 obj2 \/ SystemView.distance2 obj1 obj2 == 0).
Proof.
  unfold SystemView.relaxation. change SystemView.maxIterations with 5%nat.
  rewrite relax_settled. unfold SystemView.settled. split.
  - intros H i j o1 o2 Hne H1 H2. apply collide_false. eapply H; eassumption.
  - intros H i j o1 o2 Hne H1 H2. apply collide_false. eapply H; eassumption.
Qed.






(** ** The cache of adjusted positions *)

Lemma checkPair_radius (pushVector : Q -> Q -> Q * Q) (i j : nat)
      (st : SystemView.RelaxState) :
  SystemView.m_radius <$> SystemView.objs (SystemView.checkPair pushVector i j st)
  = SystemView.m_radius <$> SystemView.objs st.
Proof.
  unfold SystemView.checkPair.
  destruct (i =? j)%nat; [reflexivity|].
  destruct (decide _); [reflexivity|].
  destruct (SystemView.objs st !! i) as [o1|] eqn:E1; [|reflexivity].
  destruct (SystemView.objs st !! j) as [o2|] eqn:E2; [|reflexivity].
  destruct (_ && _); [|reflexivity]. simpl.
  rewrite !list_fmap_insert. simpl.
  rewrite (list_insert_id (SystemView.m_radius <$> SystemView.objs st) i).
  - apply list_insert_id. rewrite list_lookup_fmap, E2. reflexivity.
  - rewrite list_lookup_fmap, E1. reflexivity.
Qed.

Lemma relax_radius (pushVector : Q -> Q -> Q * Q) (budget : nat)
      (objs0 : list SystemView.Marker) :
  SystemView.m_radius <$> fst (SystemView.relax pushVector budget objs0)
  = SystemView.m_radius <$> objs0.
Proof.
  revert objs0. induction budget as [|budget IH]; intros objs0; [reflexivity|].
  cbn [SystemView.relax].
  assert (Hit : SystemView.m_radius <$> fst (SystemView.iteration pushVector objs0)
                = SystemView.m_radius <$> objs0).
  { destruct (iteration_inv pushVector
                (fun st => SystemView.m_radius <$> SystemView.objs st
                           = SystemView.m_radius <$> objs0) objs0) as (st & H & ->).
    - intros i j st H. rewrite checkPair_radius. exact H.
    - reflexivity.
    - exact H. }
  destruct (SystemView.iteration pushVector objs0) as [objs1 had]. simpl in Hit.
  destruct had; [|exact Hit].
  specialize (IH objs1).
  destruct (SystemView.relax pushVector budget objs1) as [objs2 n]. simpl in *.
  rewrite IH. exact Hit.
Qed.

Lemma writeAdjusted_fold_notin (objs : list SystemView.Marker)
      (cache : gmap SystemView.Ref SystemView.Adjusted) (ref : SystemView.Ref) :
  ref ∉ SystemView.dataRef <$> objs ->
  fold_left (fun cache obj =>
               <[SystemView.dataRef obj :=
                   {| SystemView.adj_x := SystemView.m_x obj;
                      SystemView.adj_y := SystemView.m_y obj;
                      SystemView.adj_radius := SystemView.m_radius obj |}]> cache)
            objs cache !! ref
  = cache !! ref.
Proof.
  revert cache. induction objs as [|x objs IH]; intros cache Hn; simpl; [reflexivity|].
  rewrite fmap_cons, not_elem_of_cons in Hn. destruct Hn as [Hx Hn].
  rewrite (IH _ Hn). apply lookup_insert_ne. congruence.
Qed.

Lemma writeAdjusted_fold_in (objs : list SystemView.Marker)
      (cache : gmap SystemView.Ref SystemView.Adjusted) (obj : SystemView.Marker) :
  NoDup (SystemView.dataRef <$> objs) -> obj ∈ objs ->
  fold_left (fun cache obj =>
               <[SystemView.dataRef obj :=
                   {| SystemView.adj_x := SystemView.m_x obj;
                      SystemView.adj_y := SystemView.m_y obj;
                      SystemView.adj_radius := SystemView.m_radius obj |}]> cache)
            objs cache !! SystemView.dataRef obj
  = Some {| SystemView.adj_x := SystemView.m_x obj;
            SystemView.adj_y := SystemView.m_y obj;
            SystemView.adj_radius := SystemView.m_radius obj |}.
Proof.
  revert cache. induction objs as [|x objs IH]; intros cache Hnd Hin; [inversion Hin|].
  rewrite fmap_cons in Hnd. apply NoDup_cons in Hnd as [Hx Hnd]. simpl.
  apply elem_of_cons in Hin as [->|Hin].
  - rewrite (writeAdjusted_fold_notin _ _ _ Hx). apply lookup_insert_eq.
  - apply IH; assumption.
Qed.

Lemma writeAdjusted_dom (objs : list SystemView.Marker) (ref : SystemView.Ref) :
  is_Some (SystemView.writeAdjusted objs !! ref) <-> ref ∈ SystemView.dataRef <$> objs.
Proof.
  unfold SystemView.writeAdjusted.
  assert (H : forall cache : gmap SystemView.Ref SystemView.Adjusted,
             is_Some (fold_left (fun cache obj =>
                        <[SystemView.dataRef obj :=
                            {| SystemView.adj_x := SystemView.m_x obj;
                               SystemView.adj_y := SystemView.m_y obj;
                               SystemView.adj_radius := SystemView.m_radius obj |}]> cache)
                      objs cache !! ref)
             <-> is_Some (cache !! ref) \/ ref ∈ SystemView.dataRef <$> objs).
  { induction objs as [|x objs IH]; intros cache; simpl.
    - split; [auto|]. intros [H|H]; [exact H | inversion H].
    - rewrite IH, elem_of_cons.
      destruct (decide (SystemView.dataRef x = ref)) as [<-|Hne].
      + rewrite lookup_insert_eq. split; [auto|]. intros _. left. eauto.
      + rewrite lookup_insert_ne by exact Hne. split.
        * intros [H|H]; auto.
        * intros [H|[H|H]]; auto. congruence. }
  rewrite H, lookup_empty. split; [intros [[x Hx]|Hr]; [discriminate | exact Hr] | auto].
Qed.

Lemma omap_imap_refs {B : Type} (F : nat * B -> option SystemView.Marker)
      (kind : SystemView.Kind) (bodies : list B) (k : nat) :
  (forall i b m, F (i, b) = Some m -> SystemView.dataRef m = (kind, i)) ->
  sublist (SystemView.dataRef <$> omap F (imap (fun index body => ((k + index)%nat, body)) bodies))
          (imap (fun index _ => (kind, (k + index)%nat)) bodies).
Proof.
  intros HF. revert k. induction bodies as [|b bodies IH]; intros k; [constructor|].
  rewrite !imap_cons.
  assert (E1 : imap ((fun index body => ((k + index)%nat, body)) ∘ S) bodies
               = imap (fun index body => ((S k + index)%nat, body)) bodies).
  { apply imap_ext. intros i x _. simpl. f_equal. lia. }
  assert (E2 : imap ((fun index (_ : B) => (kind, (k + index)%nat)) ∘ S) bodies
               = imap (fun index _ => (kind, (S k + index)%nat)) bodies).
  { apply imap_ext. intros i x _. simpl. f_equal. lia. }
  rewrite E1, E2.
  change (omap F (((k + 0)%nat, b) :: imap (fun index body => ((S k + index)%nat, body)) bodies))
    with (match F ((k + 0)%nat, b) with
          | Some m => m :: omap F (imap (fun index body => ((S k + index)%nat, body)) bodies)
          | None => omap F (imap (fun index body => ((S k + index)%nat, body)) bodies)
          end).
  destruct (F ((k + 0)%nat, b)) as [m|] eqn:E.
  - rewrite fmap_cons, (HF _ _ _ E). apply sublist_skip, IH.
  - apply sublist_cons, IH.
Qed.

Lemma bodyMarkers_refs (cd : SystemView.CoordinateData) (dims : Dimensions)
      (kind : SystemView.Kind) (radius : Q) (withType : bool)
      (bodies : list SystemView.Body) :
  sublist (SystemView.dataRef <$> SystemView.bodyMarkers cd dims kind radius withType bodies)
          (SystemView.refsOf kind bodies).
Proof.
  unfold SystemView.bodyMarkers, SystemView.refsOf.
  apply (omap_imap_refs _ kind bodies 0%nat).
  intros i b m. destruct (SystemView.body_position b); [|discriminate].
  intros [= <-]. reflexivity.
Qed.

Lemma refsOf_spec (kind : SystemView.Kind) (bodies : list SystemView.Body) :
  SystemView.refsOf kind bodies = (fun i => (kind, i)) <$> seq 0 (length bodies).
Proof. unfold SystemView.refsOf. apply (imap_seq_0 bodies (fun i => (kind, i))). Qed.

Lemma candidates_NoDup (d : SystemView.SystemData) : NoDup (SystemView.candidates d).
Proof.
  unfold SystemView.candidates. rewrite !refsOf_spec.
  assert (Hk : forall (kind : SystemView.Kind) n,
             NoDup ((fun i : nat => (kind, i)) <$> seq 0 n)).
  { intros kind n. apply NoDup_fmap_2; [intros a b [=]; assumption | apply NoDup_seq]. }
  assert (Hin : forall (kind kind' : SystemView.Kind) n (i : nat),
             (kind', i) ∈ (fun i : nat => (kind, i)) <$> seq 0 n -> kind' = kind).
  { intros kind kind' n i H. apply list_elem_of_fmap in H as (j & [=] & _). assumption. }
  apply NoDup_app. split; [destruct (SystemView.star d); [apply NoDup_singleton | apply NoDup_nil_2]|].
  split.
  - intros ref Hs Hr. destruct (SystemView.star d); [|inversion Hs].
    apply list_elem_of_singleton in Hs. subst ref.
    rewrite !elem_of_app in Hr. destruct Hr as [H|[H|H]]; apply Hin in H; discriminate.
  - apply NoDup_app. split; [apply Hk|]. split.
    + intros [k i] Hs Hr. apply Hin in Hs. subst k.
      rewrite elem_of_app in Hr. destruct Hr as [H|H]; apply Hin in H; discriminate.
    + apply NoDup_app. split; [apply Hk|]. split; [|apply Hk].
      intros [k i] Hs Hr. apply Hin in Hs. subst k. apply Hin in Hr. discriminate.
Qed.

Lemma objectsToRender_refs (cd : SystemView.CoordinateData) (dims : Dimensions)
      (d : SystemView.SystemData) :
  sublist (SystemView.dataRef <$> SystemView.objectsToRender cd dims d)
          (SystemView.candidates d).
Proof.
  unfold SystemView.objectsToRender, SystemView.candidates.
  rewrite !fmap_app.
  apply sublist_app; [destruct (SystemView.star d); reflexivity|].
  apply sublist_app; [apply bodyMarkers_refs|].
  apply sublist_app; apply bodyMarkers_refs.
Qed.

(** X17: the cache of adjusted positions after a frame.  Every marker
    of [objectsToRender] has an entry under its own data object, holding
    the position the relaxation left that marker at and the marker's
    radius; nothing else has an entry, and every entry belongs to a
    candidate of the hit test. *)
Theorem adjusted_cache_round_trip (pushVector : Q -> Q -> Q * Q)
        (cd : SystemView.CoordinateData) (dims : Dimensions) (d : SystemView.SystemData) :
  let objs0 := SystemView.objectsToRender cd dims d in
  let objs1 := fst (SystemView.relaxation pushVector objs0) in
  let cache := SystemView.writeAdjusted objs1 in
  (forall i obj,
      objs0 !! i = Some obj ->
      exists moved,
        objs1 !! i = Some moved
        /\ cache !! SystemView.dataRef obj
           = Some {| SystemView.adj_x := SystemView.m_x moved;
                     SystemView.adj_y := SystemView.m_y moved;
                     SystemView.adj_radius := SystemView.m_radius obj |})
  /\ (forall ref, is_Some (cache !! ref) <-> ref ∈ SystemView.dataRef <$> objs0)
  /\ (forall ref, is_Some (cache !! ref) -> ref ∈ SystemView.candidates d).
Proof.
  intros objs0 objs1 cache.
  pose proof (relax_refs pushVector SystemView.maxIterations objs0) as Hrefs.
  pose proof (relax_radius pushVector SystemView.maxIterations objs0) as Hrad.
  fold (SystemView.relaxation pushVector objs0) in Hrefs, Hrad. fold objs1 in Hrefs, Hrad.
  assert (Hnd : NoDup (SystemView.dataRef <$> objs0)).
  { eapply sublist_NoDup; [apply candidates_NoDup | apply objectsToRender_refs]. }
  assert (Hdom : forall ref, is_Some (cache !! ref) <-> ref ∈ SystemView.dataRef <$> objs0).
  { intros ref. subst cache. rewrite writeAdjusted_dom, Hrefs. reflexivity. }
  split; [|split; [exact Hdom|]].
  - intros i obj Hi.
    assert (Hr : (SystemView.dataRef <$> objs1) !! i = Some (SystemView.dataRef obj))
      by (rewrite Hrefs, list_lookup_fmap, Hi; reflexivity).
    assert (Hq : (SystemView.m_radius <$> objs1) !! i = Some (SystemView.m_radius obj))
      by (rewrite Hrad, list_lookup_fmap, Hi; reflexivity).
    rewrite list_lookup_fmap in Hr. rewrite list_lookup_fmap in Hq.
    destruct (objs1 !! i) as [moved|] eqn:Em; [|discriminate].
    simpl in Hr, Hq. injection Hr as Hr. injection Hq as Hq.
    exists moved. split; [reflexivity|].
    rewrite <- Hr, <- Hq. subst cache. unfold SystemView.writeAdjusted.
    apply writeAdjusted_fold_in.
    + rewrite Hrefs. exact Hnd.
    + eapply list_elem_of_lookup_2, Em.
  - intros ref Href. apply Hdom in Href.
    eapply elem_of_sublist; [exact Href|]. apply objectsToRender_refs.
Qed.

(** ** The hit area of a marker on the screen *)

(** X18: for a positive zoom, the test of [findObjectAtPosition]
    against [radius / zoom + detectionBuffer] around the cached position
    is the test, on the screen, against [radius + detectionBuffer * zoom]
    pixels around the drawn marker: the marker's own radius is a fixed
    number of pixels, the buffer grows with the zoom. *)
Theorem local_hit_area_in_screen_pixels (dims : Dimensions) (cam : Camera)
        (adjusted : SystemView.Adjusted) (mouseX mouseY detectionBuffer : Q) :
  0 < cam_zoom cam ->
  Js.sqrt_lt (SystemView.reach2 (Viewport.worldX dims cam mouseX)
                                (Viewport.worldY dims cam mouseY) adjusted)
             (Js.Num (SystemView.detectionRadius adjusted cam detectionBuffer))
  = Js.sqrt_lt (Js.dist2 mouseX mouseY
                         (Viewport.screenX dims cam (SystemView.adj_x adjusted))
                         (Viewport.screenY dims cam (SystemView.adj_y adjusted)))
               (Js.Num (SystemView.adj_radius adjusted + detectionBuffer * cam_zoom cam)).
Proof.
  intros Hz.
  assert (Hz0 : ~ cam_zoom cam == 0) by lra.
  unfold SystemView.reach2, SystemView.detectionRadius. cbv zeta.
  pose proof (screen_distance dims cam mouseX mouseY (SystemView.adj_x adjusted)
                              (SystemView.adj_y adjusted) Hz0) as Hs.
  set (dw := Js.dist2 (Viewport.worldX dims cam mouseX) (Viewport.worldY dims cam mouseY)
                      _ _) in *.
  set (ds := Js.dist2 mouseX mouseY _ _) in *.
  set (z := cam_zoom cam) in *. set (r := SystemView.adj_radius adjusted).
  set (b := detectionBuffer).
  assert (Hq : (r / z + b) * z == r + b * z) by (field; exact Hz0).
  unfold Js.sqrt_lt.
  assert (E1 : Js.ltb 0 (r / z + b) = Js.ltb 0 (r + b * z)).
  { destruct (Js.ltb 0 (r / z + b)) eqn:Ea, (Js.ltb 0 (r + b * z)) eqn:Eb;
      try reflexivity; exfalso.
    - apply ltb_lt in Ea. apply ltb_ge in Eb. nra.
    - apply ltb_ge in Ea. apply ltb_lt in Eb. nra. }
  assert (E2 : Js.ltb dw ((r / z + b) * (r / z + b))
               = Js.ltb ds ((r + b * z) * (r + b * z))).
  { assert (Hsq : (r + b * z) * (r + b * z) == z * z * ((r / z + b) * (r / z + b)))
      by (field; exact Hz0).
    assert (Hzz : 0 < z * z) by nra.
    revert Hsq. generalize ((r / z + b) * (r / z + b)). intros q Hsq.
    destruct (Js.ltb dw q) eqn:Ea, (Js.ltb ds ((r + b * z) * (r + b * z))) eqn:Eb;
      try reflexivity; exfalso.
    - apply ltb_lt in Ea. apply ltb_ge in Eb. nra.
    - apply ltb_ge in Ea. apply ltb_lt in Eb. nra. }
  rewrite E1, E2. reflexivity.
Qed.

Lemma local_hit_area_in_screen_pixels_witness :
  Js.sqrt_lt (SystemView.reach2 (Viewport.worldX Examples.surface Examples.zoom2_camera 400)
                                (Viewport.worldY Examples.surface Examples.zoom2_camera 300)
                                {| SystemView.adj_x := 700; SystemView.adj_y := 500;
                                   SystemView.adj_radius := 6 |})
             (Js.Num (SystemView.detectionRadius
                        {| SystemView.adj_x := 700; SystemView.adj_y := 500;
                           SystemView.adj_radius := 6 |} Examples.zoom2_camera 3))
  = Js.sqrt_lt (Js.dist2 400 300
                         (Viewport.screenX Examples.surface Examples.zoom2_camera 700)
                         (Viewport.screenY Examples.surface Examples.zoom2_camera 500))
               (Js.Num (6 + 3 * cam_zoom Examples.zoom2_camera)).
Proof.
  apply (local_hit_area_in_screen_pixels Examples.surface Examples.zoom2_camera
           {| SystemView.adj_x := 700; SystemView.adj_y := 500;
              SystemView.adj_radius := 6 |} 400 300 3).
  reflexivity.
Defined.

(** ** Icons: finished loads and the drawing loop *)

Lemma imageStep_final (st : SystemView.ImageStore) (e : SystemView.ImageEvent)
      (t : N) (s : SystemView.LoadStatus) :
  s <> SystemView.Loading ->
  SystemView.imageCache st !! t = Some s ->
  SystemView.imageCache (SystemView.imageStep st e) !! t = Some s.
Proof.
  intros Hs Ht. destruct e as [u|u|u|]; simpl.
  - unfold SystemView.loadImage.
    destruct (SystemView.imageCache st !! u) eqn:E; simpl; [exact Ht|].
    rewrite lookup_insert_ne; [exact Ht | congruence].
  - unfold SystemView.onload.
    destruct (SystemView.imageCache st !! u) as [[]|] eqn:E; simpl; try exact Ht.
    rewrite lookup_insert_ne; [exact Ht | congruence].
  - unfold SystemView.onerror.
    destruct (SystemView.imageCache st !! u) as [[]|] eqn:E; simpl; try exact Ht.
    rewrite lookup_insert_ne; [exact Ht | congruence].
  - rewrite imageFrame_cache. exact Ht.
Qed.

(** X19: a finished load is final.  Once the cache holds, for a type
    identifier, an element that has loaded or has failed, no later call
    of [loadImage], load event or frame changes that entry: [loadImage]
    hands out the same element again and starts no second load, and a
    failed load is never retried. *)
Theorem finished_load_is_final (st : SystemView.ImageStore)
        (es : list SystemView.ImageEvent) (t : N) (s : SystemView.LoadStatus) :
  s <> SystemView.Loading ->
  SystemView.imageCache st !! t = Some s ->
  SystemView.imageCache (SystemView.imageRun st es) !! t = Some s
  /\ SystemView.loadImage t (SystemView.imageRun st es) = (s, SystemView.imageRun st es).
Proof.
  intros Hs Ht.
  assert (H : SystemView.imageCache (SystemView.imageRun st es) !! t = Some s).
  { unfold SystemView.imageRun. revert st Ht.
    induction es as [|e es IH]; intros st Ht; simpl; [exact Ht|].
    apply IH, imageStep_final; assumption. }
  split; [exact H|]. unfold SystemView.loadImage. rewrite H. reflexivity.
Qed.

Lemma finished_load_is_final_witness :
  let st := SystemView.imageRun SystemView.emptyStore
              [SystemView.CallLoadImage 7; SystemView.LoadFailed 7] in
  let es := [SystemView.CallLoadImage 7; SystemView.LoadSucceeded 7; SystemView.ImageFrame] in
  SystemView.imageCache (SystemView.imageRun st es) !! 7%N = Some SystemView.Failed
  /\ SystemView.loadImage 7 (SystemView.imageRun st es)
     = (SystemView.Failed, SystemView.imageRun st es).
Proof.
  apply (finished_load_is_final
           (SystemView.imageRun SystemView.emptyStore
              [SystemView.CallLoadImage 7; SystemView.LoadFailed 7])
           [SystemView.CallLoadImage 7; SystemView.LoadSucceeded 7; SystemView.ImageFrame]
           7%N SystemView.Failed).
  - discriminate.
  - reflexivity.
Defined.




(** ** Security bands *)

Lemma floor_ge (n : Z) (x : Q) : (n <= Qfloor x)%Z <-> inject_Z n <= x.
Proof.
  split.
  - intros H. apply Qle_trans with (inject_Z (Qfloor x)); [|apply Qfloor_le].
    rewrite <- Zle_Qle. exact H.
  - intros H. rewrite <- (Qfloor_Z n). apply Qfloor_resp_le, H.
Qed.

Lemma ceiling_ge (n : Z) (x : Q) : (n <= Qceiling x)%Z <-> inject_Z (n - 1) < x.
Proof.
  unfold Qceiling.
  assert (E1 : inject_Z (n - 1) == inject_Z n - 1)
    by (unfold Qeq, Qminus, Qplus, Qopp, inject_Z; simpl; lia).
  assert (E2 : forall k, inject_Z (k + 1) == inject_Z k + 1)
    by (intros k; unfold Qeq, Qplus, inject_Z; simpl; lia).
  assert (E3 : forall k, inject_Z (- k) == - inject_Z k)
    by (intros k; unfold Qeq, Qopp, inject_Z; simpl; lia).
  rewrite E1. split.
  - intros H. assert (Hf : (Qfloor (- x) <= - n)%Z) by lia.
    pose proof (Qlt_floor (- x)) as Hlt. rewrite E2 in Hlt.
    rewrite Zle_Qle, E3 in Hf. lra.
  - intros H. destruct (Z_lt_le_dec (- Qfloor (- x)) n) as [Hlt|Hge]; [|exact Hge].
    exfalso.
    assert (Hf : (- n + 1 <= Qfloor (- x))%Z) by lia.
    apply floor_ge in Hf. rewrite E2, E3 in Hf. lra.
Qed.

Lemma tenth_ge (k n : Z) : inject_Z n / 10 <= inject_Z k / 10 <-> (n <= k)%Z.
Proof.
  rewrite Zle_Qle. unfold Qdiv. change (/ 10) with (1 # 10). split; intros H; lra.
Qed.

Lemma round_high (security : Q) :
  Qle_bool 0.5 (Security.systemSecurityRound security) = true <-> 0.45 <= security.
Proof.
  rewrite Qle_bool_iff. unfold Security.systemSecurityRound.
  destruct (Qle_bool 0 security && Qle_bool security 0.05) eqn:E.
  - apply andb_true_iff in E as [E0 E1]. apply Qle_bool_iff in E0, E1.
    change 0.5 with (inject_Z 5 / 10). rewrite tenth_ge, ceiling_ge.
    change (inject_Z (5 - 1)) with 4. split; intros H; lra.
  - change 0.5 with (inject_Z 5 / 10). rewrite tenth_ge, floor_ge.
    change (inject_Z 5) with 5. split; intros H; lra.
Qed.

Lemma round_positive (security : Q) :
  Js.ltb 0 (Security.systemSecurityRound security) = true <-> 0 < security.
Proof.
  rewrite ltb_lt. unfold Security.systemSecurityRound.
  assert (Hpos : forall k : Z, 0 < inject_Z k / 10 <-> (1 <= k)%Z).
  { intros k. unfold Qdiv. change (/ 10) with (1 # 10).
    assert (H1 : (1 <= k)%Z <-> (0 < k)%Z) by lia. rewrite H1, Zlt_Qlt.
    change (inject_Z 0) with 0. split; intros H; lra. }
  destruct (Qle_bool 0 security && Qle_bool security 0.05) eqn:E.
  - rewrite Hpos, ceiling_ge. change (inject_Z (1 - 1)) with 0.
    apply andb_true_iff in E as [E0 E1]. apply Qle_bool_iff in E0, E1.
    split; intros H; lra.
  - rewrite Hpos, floor_ge. change (inject_Z 1) with 1.
    apply andb_false_iff in E.
    assert (Hs : security < 0 \/ 0.05 < security).
    { destruct E as [E|E].
      - left. apply Qnot_le_lt. intros H. apply Qle_bool_iff in H. congruence.
      - right. apply Qnot_le_lt. intros H. apply Qle_bool_iff in H. congruence. }
    split; intros H; destruct Hs; lra.
Qed.

(** X21: the security bands.  A security of 0.45 or more counts as
    high-sec (it rounds to 0.5 or more), a security of 0 or less, and no
    other, as null-sec, and low-sec lies in between: every positive
    security up to 0.449 is low-sec and every low-sec security is
    positive and below 0.45.  A positive security of at most 0.05 is
    rounded up to 0.1, never down to 0.  The colour of the map view
    follows the same bands: hue 0 for null-sec, hue 30 for low-sec and a
    hue from 60 up, at most 240 for a security of at most 1, for
    high-sec. *)
Theorem security_bands (security : Q) :
  let class := Security.getSecurityClass security in
  let color := Security.getSecurityColor security in
  (0.45 <= security -> class = Security.HighSec)
  /\ (0 < security <= 0.449 -> class = Security.LowSec)
  /\ (class = Security.LowSec -> 0 < security < 0.45)
  /\ (class = Security.NullSec <-> security <= 0)
  /\ (0 < security <= 0.05 -> Security.systemSecurityRound security == 0.1)
  /\ match class with
     | Security.HighSec =>
       60 <= Security.hue color /\ (security <= 1 -> Security.hue color <= 240)
     | Security.LowSec => Security.hue color = 30
     | Security.NullSec => Security.hue color = 0
     end.
Proof.
  intros class color. subst class color.
  pose proof (round_high security) as Hh. pose proof (round_positive security) as Hp.
  unfold Security.getSecurityClass, Security.getSecurityColor. cbv zeta.
  destruct (Qle_bool 0.5 (Security.systemSecurityRound security)) eqn:E1;
    [|destruct (Js.ltb 0 (Security.systemSecurityRound security)) eqn:E2].
  - assert (H45 : 0.45 <= security) by (apply Hh; reflexivity).
    split; [reflexivity|]. split; [intros [_ H]; lra|].
    split; [discriminate|].
    split; [split; [discriminate | lra]|]. split; [lra|].
    cbn [Security.hue].
    apply Qle_bool_iff in E1.
    assert (Hr1 : security <= 1 -> Security.systemSecurityRound security <= 1).
    { intros H1. unfold Security.systemSecurityRound.
      destruct (Qle_bool 0 security && Qle_bool security 0.05) eqn:E.
      - apply andb_true_iff in E as [_ E]. apply Qle_bool_iff in E. lra.
      - destruct (Qlt_le_dec 1 (inject_Z (Qfloor (security * 10 + (1 # 2))) / 10))
          as [Hgt|Hle]; [|exact Hle].
        exfalso.
        assert (H11 : (11 <= Qfloor (security * 10 + (1 # 2)))%Z).
        { assert (Hz : inject_Z 10 < inject_Z (Qfloor (security * 10 + (1 # 2)))).
          { unfold Qdiv in Hgt. change (/ 10) with (1 # 10) in Hgt.
            change (inject_Z 10) with 10. lra. }
          rewrite <- Zlt_Qlt in Hz. lia. }
        apply floor_ge in H11. change (inject_Z 11) with 11 in H11. lra. }
    revert E1 Hr1. generalize (Security.systemSecurityRound security). intros r E1 Hr1.
    assert (Hi : (r - 0.5) / 0.5 == 2 * (r - 0.5)) by field.
    revert Hi. generalize ((r - 0.5) / 0.5). intros i Hi.
    split; [lra|]. intros H1. specialize (Hr1 H1). lra.
  - assert (H0 : 0 < security) by (apply Hp; reflexivity).
    assert (H45 : ~ 0.45 <= security) by (intros H; apply Hh in H; discriminate).
    split; [intros H; tauto|]. split; [reflexivity|].
    split; [intros _; lra|].
    split; [split; [discriminate | lra]|].
    split; [|reflexivity].
    intros [_ H5]. unfold Security.systemSecurityRound.
    assert (E : Qle_bool 0 security && Qle_bool security 0.05 = true).
    { apply andb_true_iff. split; apply Qle_bool_iff; lra. }
    rewrite E.
    assert (Hc : Qceiling (security * 10) = 1%Z).
    { assert (Hl : (1 <= Qceiling (security * 10))%Z)
        by (apply ceiling_ge; change (inject_Z (1 - 1)) with 0; lra).
      assert (Hu : ~ (2 <= Qceiling (security * 10))%Z).
      { intros H. apply ceiling_ge in H. change (inject_Z (2 - 1)) with 1 in H. lra. }
      lia. }
    rewrite Hc. reflexivity.
  - assert (H0 : ~ 0 < security) by (intros H; apply Hp in H; discriminate).
    assert (H45 : ~ 0.45 <= security) by (intros H; apply Hh in H; discriminate).
    split; [intros H; tauto|]. split; [intros [H _]; tauto|].
    split; [discriminate|].
    split; [split; [intros _; lra | reflexivity]|].
    split; [intros [H _]; tauto | reflexivity].
Qed.

(** ** The content of the alliance overlay *)

Lemma uniq_spec (xs : list N) :
  NoDup (AllianceSovereignty.uniq xs)
  /\ forall x, x ∈ AllianceSovereignty.uniq xs <-> x ∈ xs.
Proof.
  unfold AllianceSovereignty.uniq.
  assert (H : forall acc,
             NoDup acc ->
             NoDup (fold_left (fun acc x => if bool_decide (x ∈ acc) then acc else acc ++ [x])
                              xs acc)
             /\ forall x, x ∈ fold_left (fun acc x => if bool_decide (x ∈ acc)
                                                       then acc else acc ++ [x]) xs acc
                          <-> x ∈ acc \/ x ∈ xs).
  { induction xs as [|y xs IH]; intros acc Hnd; simpl.
    - split; [exact Hnd|]. intros x. split; [auto|]. intros [H|H]; [exact H | inversion H].
    - destruct (bool_decide_reflect (y ∈ acc)) as [Hy|Hy].
      + destruct (IH acc Hnd) as [H1 H2]. split; [exact H1|].
        intros x. rewrite H2, elem_of_cons. split.
        * intros [H|H]; auto.
        * intros [H|[->|H]]; auto.
      + assert (Hnd' : NoDup (acc ++ [y])).
        { apply NoDup_app. split; [exact Hnd|]. split; [|apply NoDup_singleton].
          intros x Hx Hx'. apply list_elem_of_singleton in Hx'. subst x. contradiction. }
        destruct (IH (acc ++ [y]) Hnd') as [H1 H2]. split; [exact H1|].
        intros x. rewrite H2, elem_of_app, list_elem_of_singleton, elem_of_cons. tauto. }
  destruct (H [] (NoDup_nil_2)) as [H1 H2]. split; [exact H1|].
  intros x. rewrite H2. split; [intros [H'|H']; [inversion H' | exact H'] | auto].
Qed.

Lemma result_fold_entry (names : gmap N string)
      (entries : list AllianceSovereignty.SovEntry)
      (acc : gmap N MapView.AllianceInfo) (s : N) (info : MapView.AllianceInfo) :
  fold_left
    (fun res entry =>
       if AllianceSovereignty.truthy (AllianceSovereignty.alliance_id entry) then
         let aid := default 0%N (AllianceSovereignty.alliance_id entry) in
         <[AllianceSovereignty.system_id entry :=
             {| MapView.info_alliance_id := aid;
                MapView.info_alliance_name := AllianceSovereignty.nameOf names aid |}]> res
       else res) entries acc !! s = Some info ->
  acc !! s = Some info
  \/ exists entry, entry ∈ entries
                   /\ AllianceSovereignty.system_id entry = s
                   /\ AllianceSovereignty.truthy (AllianceSovereignty.alliance_id entry) = true
                   /\ info = {| MapView.info_alliance_id :=
                                  default 0%N (AllianceSovereignty.alliance_id entry);
                                MapView.info_alliance_name :=
                                  AllianceSovereignty.nameOf names
                                    (default 0%N (AllianceSovereignty.alliance_id entry)) |}.
Proof.
  revert acc. induction entries as [|e entries IH]; intros acc; simpl; [auto|].
  intros H. apply IH in H. destruct H as [H|(x & Hx & H)].
  - destruct (AllianceSovereignty.truthy (AllianceSovereignty.alliance_id e)) eqn:Et;
      [|left; exact H].
    rewrite lookup_insert in H.
    destruct (decide (AllianceSovereignty.system_id e = s)) as [Es|Hne].
    + injection H as <-. right. exists e.
      split; [apply elem_of_cons; left; reflexivity|]. auto.
    + left. exact H.
  - right. exists x. split; [apply elem_of_cons; right; exact Hx | exact H].
Qed.

Lemma nameOf_nonempty (names : gmap N string) (allianceId : N) :
  AllianceSovereignty.nameOf names allianceId <> "".
Proof.
  unfold AllianceSovereignty.nameOf.
  destruct (names !! allianceId) as [n|]; [|discriminate].
  destruct (String.eqb_spec n ""); [discriminate | assumption].
Qed.

(** X22: what an entry of the alliance overlay holds.  The alliance
    identifier of an entry is never 0, it is one of the identifiers
    whose names the endpoint asked for, and the name is never empty (it
    is the resolved name or the text [Alliance <id>]); so in alliance
    mode a system of the overlay is always drawn in its alliance's hue,
    never in the neutral colour. *)
Theorem overlay_entry_content (sovMap : list AllianceSovereignty.SovEntry)
        (allianceNames : list AllianceSovereignty.NameEntry) (s : N)
        (info : MapView.AllianceInfo) :
  AllianceSovereignty.result sovMap allianceNames !! s = Some info ->
  let allianceId := MapView.info_alliance_id info in
  allianceId <> 0%N
  /\ allianceId ∈ AllianceSovereignty.allianceIds sovMap
  /\ NoDup (AllianceSovereignty.allianceIds sovMap)
  /\ MapView.info_alliance_name info
     = AllianceSovereignty.nameOf (AllianceSovereignty.allianceNameMap allianceNames)
                                  allianceId
  /\ MapView.info_alliance_name info <> ""
  /\ forall system,
      MapView._key system = s ->
      MapView.allianceModeColor
        (Some (AllianceSovereignty.result sovMap allianceNames)) system
      = MapView.AllianceHue allianceId.
Proof.
  intros Hs allianceId. subst allianceId.
  pose proof Hs as Hs'. unfold AllianceSovereignty.result in Hs'.
  apply result_fold_entry in Hs'. rewrite lookup_empty in Hs'.
  destruct Hs' as [Hs'|(e & He & Hk & Ht & ->)]; [discriminate|].
  cbn [MapView.info_alliance_id MapView.info_alliance_name].
  assert (Hne : default 0%N (AllianceSovereignty.alliance_id e) <> 0%N).
  { destruct (AllianceSovereignty.alliance_id e) as [n|]; [|discriminate Ht].
    simpl in *. apply negb_true_iff, N.eqb_neq in Ht. exact Ht. }
  destruct (uniq_spec (map (fun entry => default 0%N (AllianceSovereignty.alliance_id entry))
                           (AllianceSovereignty.allianceSystems sovMap))) as [Hnd Hin].
  split; [exact Hne|].
  split.
  { unfold AllianceSovereignty.allianceIds. apply Hin.
    apply list_elem_of_In, in_map_iff. exists e. split; [reflexivity|].
    apply list_elem_of_In, He. }
  split; [exact Hnd|]. split; [reflexivity|]. split; [apply nameOf_nonempty|].
  intros system Hkey. unfold MapView.allianceModeColor, MapView.allianceInfoOf.
  rewrite Hkey, Hs. cbn [MapView.info_alliance_id]. unfold MapView.getAllianceColor.
  apply N.eqb_neq in Hne. rewrite Hne. reflexivity.
Qed.

Lemma overlay_entry_content_witness :
  let info := {| MapView.info_alliance_id := 99003581;
                 MapView.info_alliance_name := "Fraternity." |} in
  let allianceId := MapView.info_alliance_id info in
  allianceId <> 0%N
  /\ allianceId ∈ AllianceSovereignty.allianceIds Examples.sov_map
  /\ NoDup (AllianceSovereignty.allianceIds Examples.sov_map)
  /\ MapView.info_alliance_name info
     = AllianceSovereignty.nameOf (AllianceSovereignty.allianceNameMap Examples.sov_names)
                                  allianceId
  /\ MapView.info_alliance_name info <> ""
  /\ forall system,
      MapView._key system = 30000721%N ->
      MapView.allianceModeColor
        (Some (AllianceSovereignty.result Examples.sov_map Examples.sov_names)) system
      = MapView.AllianceHue allianceId.
Proof.
  apply (overlay_entry_content Examples.sov_map Examples.sov_names 30000721%N
           {| MapView.info_alliance_id := 99003581;
              MapView.info_alliance_name := "Fraternity." |}).
  vm_compute. reflexivity.
Defined.

(** ** Alliance groups *)

Lemma pushMember_None (id : N) (p : MapView.Point) (groups : list (N * list MapView.Point)) :
  MapView.pushMember id p groups = None <-> id ∉ groups.*1.
Proof.
  induction groups as [|[k m] groups IH]; simpl.
  - split; [intros _ H; inversion H | reflexivity].
  - destruct (N.eqb_spec k id) as [->|Hne].
    + split; [discriminate|]. intros H. exfalso. apply H. apply elem_of_cons. left. reflexivity.
    + rewrite not_elem_of_cons. destruct (MapView.pushMember id p groups); simpl.
      * split; [discriminate|]. intros [_ H]. apply IH in H. discriminate.
      * split; [|reflexivity]. intros _. split; [congruence | apply IH; reflexivity].
Qed.

Lemma pushMember_Some (id : N) (p : MapView.Point)
      (groups groups' : list (N * list MapView.Point)) :
  NoDup groups.*1 ->
  MapView.pushMember id p groups = Some groups' ->
  groups'.*1 = groups.*1
  /\ forall k m, (k, m) ∈ groups'
                 <-> (k <> id /\ (k, m) ∈ groups)
                     \/ (k = id /\ exists m0, m = m0 ++ [p] /\ (id, m0) ∈ groups).
Proof.
  revert groups'. induction groups as [|[k0 m0] groups IH]; intros groups' Hnd; simpl.
  - discriminate.
  - apply NoDup_cons in Hnd as [Hk0 Hnd].
    assert (Hfresh : forall m, (k0, m) ∈ groups -> False).
    { intros m H. apply Hk0. apply list_elem_of_fmap. exists (k0, m).
      split; [reflexivity | exact H]. }
    destruct (N.eqb_spec k0 id) as [->|Hne].
    + intros [= <-]. split; [reflexivity|].
      intros k m. rewrite !elem_of_cons. split.
      * intros [H|H].
        -- injection H as H1 H2. subst k m. right. split; [reflexivity|].
           exists m0. split; [reflexivity | apply elem_of_cons; left; reflexivity].
        -- left. split; [|right; exact H]. intros ->. exact (Hfresh m H).
      * intros [[Hk [H|H]]|[-> (m1 & -> & H)]].
        -- injection H as H1 H2. congruence.
        -- right. exact H.
        -- apply elem_of_cons in H as [H|H].
           ++ injection H as H1. subst m1. left. reflexivity.
           ++ destruct (Hfresh m1 H).
    + destruct (MapView.pushMember id p groups) as [g|] eqn:E; [|discriminate].
      simpl. intros [= <-]. destruct (IH g Hnd eq_refl) as [I1 I2].
      split; [rewrite !fmap_cons, I1; reflexivity|].
      intros k m. rewrite !elem_of_cons, I2. split.
      * intros [H|[[Hk H]|[-> (m1 & -> & H)]]].
        -- injection H as H1 H2. subst k m. left. split; [exact Hne | left; reflexivity].
        -- left. split; [exact Hk | right; exact H].
        -- right. split; [reflexivity|].
           exists m1. split; [reflexivity | apply elem_of_cons; right; exact H].
      * intros [[Hk [H|H]]|[-> (m1 & -> & H)]].
        -- left. exact H.
        -- right. left. split; assumption.
        -- apply elem_of_cons in H as [H|H].
           ++ injection H as H1 H2. congruence.
           ++ right. right. split; [reflexivity|].
              exists m1. split; [reflexivity | exact H].
Qed.

(** X23: the grouping loop of the alliance labels.  No alliance
    identifier has two groups, and the group of an identifier holds the
    canvas positions of the systems that the overlay assigns to that
    alliance, all of them, once each and in the order of the system
    array; an alliance with no system has no group. *)
Theorem alliance_groups_partition (systems : list MapView.SolarSystem)
        (cd : MapView.CoordinateData) (dims : Dimensions)
        (allianceData : gmap N MapView.AllianceInfo) :
  let groups := MapView.allianceSystems systems cd dims allianceData in
  let point system :=
    {| MapView.pt_x := MapView.toCanvasX cd (MapView.posX system);
       MapView.pt_y := MapView.toCanvasY cd dims (MapView.posY system) |} in
  let membersOf id :=
    List.map point
      (List.filter (fun system =>
                      match MapView.allianceInfoOf allianceData system with
                      | Some allianceInfo => N.eqb (MapView.info_alliance_id allianceInfo) id
                      | None => false
                      end) systems) in
  NoDup groups.*1
  /\ forall id members,
      (id, members) ∈ groups <-> members = membersOf id /\ members <> [].
Proof.
  intros groups point membersOf. subst groups membersOf.
  unfold MapView.allianceSystems.
  induction systems as [|s l IH] using rev_ind.
  - simpl. split; [apply NoDup_nil_2|].
    intros id members. split; [intros H; inversion H | intros [-> H]; congruence].
  - rewrite fold_left_app. cbn [fold_left].
    set (G := fold_left _ l []) in *.
    destruct IH as [Hnd Hmem].
    assert (Hfilter : forall id,
               List.map point
                 (List.filter (fun system =>
                                 match MapView.allianceInfoOf allianceData system with
                                 | Some allianceInfo =>
                                   N.eqb (MapView.info_alliance_id allianceInfo) id
                                 | None => false
                                 end) (l ++ [s]))
               = List.map point
                   (List.filter (fun system =>
                                   match MapView.allianceInfoOf allianceData system with
                                   | Some allianceInfo =>
                                     N.eqb (MapView.info_alliance_id allianceInfo) id
                                   | None => false
                                   end) l)
                 ++ match MapView.allianceInfoOf allianceData s with
                    | Some allianceInfo =>
                      if N.eqb (MapView.info_alliance_id allianceInfo) id
                      then [point s] else []
                    | None => []
                    end).
    { intros id. rewrite List.filter_app, List.map_app. f_equal. simpl.
      destruct (MapView.allianceInfoOf allianceData s) as [i|]; [|reflexivity].
      destruct (N.eqb (MapView.info_alliance_id i) id); reflexivity. }
    destruct (MapView.allianceInfoOf allianceData s) as [info|] eqn:Einfo.
    + set (id0 := MapView.info_alliance_id info) in *.
      fold (point s).
      destruct (MapView.pushMember id0 (point s) G) as [G'|] eqn:Epush.
      * destruct (pushMember_Some id0 (point s) G G' Hnd Epush) as [Hkeys Hin].
        split; [rewrite Hkeys; exact Hnd|].
        intros id members. rewrite Hin, Hfilter. clear Hin Hfilter.
        destruct (N.eqb_spec id0 id) as [<-|Hne].
        -- split.
           ++ intros [[Hk _]|[_ (m0 & -> & Hm0)]]; [congruence|].
              apply Hmem in Hm0 as [-> _]. split; [reflexivity|].
              intros H. apply app_eq_nil in H as [_ H]. discriminate.
           ++ intros [-> _]. right. split; [reflexivity|].
              eexists. split; [reflexivity|].
              apply Hmem. split; [reflexivity|].
              intros Hnil.
              assert (Hk : id0 ∈ G.*1).
              { destruct (decide (id0 ∈ G.*1)) as [H|H]; [exact H|].
                apply pushMember_None with (p := point s) in H. congruence. }
              apply list_elem_of_fmap in Hk as ([k m] & Hk & Hkm). simpl in Hk. subst k.
              apply Hmem in Hkm as [-> Hne]. contradiction.
        -- rewrite app_nil_r, Hmem. split.
           ++ intros [[_ H]|[-> _]]; [exact H | congruence].
           ++ intros H. left. split; [congruence | exact H].
      * apply pushMember_None in Epush.
        split.
        { rewrite fmap_app. apply NoDup_app. split; [exact Hnd|].
          split; [|apply NoDup_singleton].
          intros k Hk Hk'. apply list_elem_of_singleton in Hk'. simpl in Hk'. subst k.
          contradiction. }
        intros id members. rewrite elem_of_app, list_elem_of_singleton, Hmem, Hfilter.
        clear Hfilter.
        destruct (N.eqb_spec id0 id) as [<-|Hne].
        -- assert (Hnil : List.map point
                            (List.filter (fun system =>
                               match MapView.allianceInfoOf allianceData system with
                               | Some allianceInfo =>
                                 N.eqb (MapView.info_alliance_id allianceInfo) id0
                               | None => false
                               end) l) = []).
           { destruct (List.map point _) as [|x xs] eqn:E; [reflexivity|].
             exfalso. apply Epush. apply list_elem_of_fmap.
             exists (id0, x :: xs). split; [reflexivity|].
             apply Hmem. rewrite E. split; [reflexivity | discriminate]. }
           rewrite Hnil. simpl. split.
           ++ intros [[-> H]|[= ->]]; [congruence|]. split; [reflexivity | discriminate].
           ++ intros [-> _]. right. reflexivity.
        -- rewrite app_nil_r. split.
           ++ intros [H|[= Hid _]]; [exact H | congruence].
           ++ intros H. left. exact H.
    + split; [exact Hnd|].
      intros id members. rewrite Hmem, Hfilter, app_nil_r. reflexivity.
Qed.

(** ** Region labels and the selection of a region *)



Lemma fold_sum_acc {A : Type} (f : A -> Q) (l : list A) (a0 : Q) :
  fold_left (fun sum s => sum + f s) l a0 == a0 + fold_left (fun sum s => sum + f s) l 0.
Proof.
  revert a0. induction l as [|x l IH]; intros a0; simpl; [ring|].
  rewrite (IH (a0 + f x)), (IH (0 + f x)). ring.
Qed.






(** ** The loaders of the static data *)

Lemma jsMapSet_keys {R : Type} (key : N) (record : R) (records : list (N * R)) :
  (SdeLoader.jsMapSet key record records).*1
  = if bool_decide (key ∈ records.*1) then records.*1 else records.*1 ++ [key].
Proof.
  induction records as [|[k r] rest IH]; [reflexivity|].
  cbn [SdeLoader.jsMapSet]. rewrite !fmap_cons. cbn [fst].
  destruct (N.eqb_spec k key) as [->|Hne].
  - rewrite bool_decide_eq_true_2 by (apply elem_of_cons; left; reflexivity). reflexivity.
  - rewrite fmap_cons, IH. cbn [fst].
    destruct (bool_decide_reflect (key ∈ rest.*1)) as [H|H].
    + rewrite bool_decide_eq_true_2 by (apply elem_of_cons; right; exact H). reflexivity.
    + rewrite bool_decide_eq_false_2; [reflexivity|].
      intros H'. apply elem_of_cons in H' as [H'|H']; [congruence | contradiction].
Qed.

Lemma jsMapSet_NoDup {R : Type} (key : N) (record : R) (records : list (N * R)) :
  NoDup records.*1 -> NoDup (SdeLoader.jsMapSet key record records).*1.
Proof.
  intros Hnd. rewrite jsMapSet_keys.
  destruct (bool_decide_reflect (key ∈ records.*1)) as [H|H]; [exact Hnd|].
  apply NoDup_app. split; [exact Hnd|]. split; [|apply NoDup_singleton].
  intros k Hk Hk'. apply list_elem_of_singleton in Hk'. subst k. contradiction.
Qed.

Lemma jsMapSet_elem {R : Type} (key : N) (record : R) (records : list (N * R))
      (k : N) (r : R) :
  NoDup records.*1 ->
  (k, r) ∈ SdeLoader.jsMapSet key record records
  <-> (k = key /\ r = record) \/ (k <> key /\ (k, r) ∈ records).
Proof.
  induction records as [|[k0 r0] rest IH]; intros Hnd; cbn [SdeLoader.jsMapSet].
  - rewrite list_elem_of_singleton. split.
    + intros H. injection H as H1 H2. left. auto.
    + intros [[-> ->]|[_ H]]; [reflexivity | inversion H].
  - rewrite fmap_cons in Hnd. apply NoDup_cons in Hnd as [Hk0 Hnd]. cbn [fst] in Hk0.
    destruct (N.eqb_spec k0 key) as [->|Hne].
    + rewrite !elem_of_cons. split.
      * intros [H|H].
        -- injection H as H1 H2. left. auto.
        -- right. split; [|right; exact H]. intros ->. apply Hk0.
           apply list_elem_of_fmap. exists (key, r). split; [reflexivity | exact H].
      * intros [[-> ->]|[Hk [H|H]]].
        -- left. reflexivity.
        -- injection H as H1 H2. congruence.
        -- right. exact H.
    + rewrite !elem_of_cons, (IH Hnd). split.
      * intros [H|[[-> ->]|[Hk H]]].
        -- injection H as H1 H2. subst k r. right. split; [exact Hne | left; reflexivity].
        -- left. auto.
        -- right. split; [exact Hk | right; exact H].
      * intros [[-> ->]|[Hk [H|H]]].
        -- right. left. auto.
        -- left. exact H.
        -- right. right. split; assumption.
Qed.

Lemma loadAllRecords_snoc {R : Type} (_key : R -> N) (lines : list (SdeLoader.Line R))
      (line : SdeLoader.Line R) (filter : option (R -> bool)) :
  SdeLoader.loadAllRecords _key (lines ++ [line]) filter
  = match SdeLoader.loadAllRecords _key lines filter with
    | None => None
    | Some records =>
      match line with
      | SdeLoader.Blank => Some records
      | SdeLoader.Malformed => None
      | SdeLoader.Json record =>
        if match filter with None => true | Some f => f record end
        then Some (SdeLoader.jsMapSet (_key record) record records)
        else Some records
      end
    end.
Proof. unfold SdeLoader.loadAllRecords. rewrite fold_left_app. reflexivity. Qed.

Lemma recordsOf_snoc {R : Type} (lines : list (SdeLoader.Line R)) (line : SdeLoader.Line R) :
  SdeLoader.recordsOf (lines ++ [line])
  = SdeLoader.recordsOf lines
    ++ match line with SdeLoader.Json record => [record] | _ => [] end.
Proof.
  unfold SdeLoader.recordsOf. rewrite omap_app. f_equal. destruct line; reflexivity.
Qed.

(** What [loadAllRecords] resolves to. *)
Lemma loadAllRecords_spec {R : Type} (_key : R -> N) (lines : list (SdeLoader.Line R))
      (filter : option (R -> bool)) (records : list (N * R)) :
  SdeLoader.loadAllRecords _key lines filter = Some records ->
  let passes record := match filter with None => true | Some f => f record end in
  NoDup records.*1
  /\ (forall k r, (k, r) ∈ records ->
                  _key r = k /\ r ∈ SdeLoader.recordsOf lines /\ passes r = true)
  /\ (forall r, r ∈ SdeLoader.recordsOf lines -> passes r = true -> _key r ∈ records.*1)
  /\ forall before r after,
      lines = before ++ SdeLoader.Json r :: after -> passes r = true ->
      (forall r', r' ∈ SdeLoader.recordsOf after -> passes r' = true -> _key r' <> _key r) ->
      (_key r, r) ∈ records.
Proof.
  cbv zeta. revert records. induction lines as [|line lines IH] using rev_ind; intros records.
  - intros [= <-]. split; [apply NoDup_nil_2|]. split; [intros k r H; inversion H|].
    split; [intros r H; inversion H|].
    intros before r after H. destruct before; discriminate H.
  - rewrite loadAllRecords_snoc.
    destruct (SdeLoader.loadAllRecords _key lines filter) as [recs|] eqn:El; [|discriminate].
    destruct (IH recs eq_refl) as (Hnd & Hsound & Hcompl & Hlast). clear IH.
    rewrite recordsOf_snoc.
    assert (Hkeep : Some recs = Some records ->
                    (forall r, line = SdeLoader.Json r ->
                               match filter with None => true | Some f => f r end = false) ->
                    NoDup records.*1
                    /\ (forall k r, (k, r) ∈ records ->
                          _key r = k
                          /\ r ∈ SdeLoader.recordsOf lines
                                 ++ match line with SdeLoader.Json record => [record] | _ => [] end
                          /\ match filter with None => true | Some f => f r end = true)
                    /\ (forall r, r ∈ SdeLoader.recordsOf lines
                                      ++ match line with
                                         | SdeLoader.Json record => [record] | _ => [] end ->
                                  match filter with None => true | Some f => f r end = true ->
                                  _key r ∈ records.*1)
                    /\ forall before r after,
                        lines ++ [line] = before ++ SdeLoader.Json r :: after ->
                        match filter with None => true | Some f => f r end = true ->
                        (forall r', r' ∈ SdeLoader.recordsOf after ->
                                    match filter with None => true | Some f => f r' end = true ->
                                    _key r' <> _key r) ->
                        (_key r, r) ∈ records).
    { intros [= <-] Hline. split; [exact Hnd|]. split; [|split].
      - intros k r H. destruct (Hsound k r H) as (H1 & H2 & H3).
        split; [exact H1|]. split; [apply elem_of_app; left; exact H2 | exact H3].
      - intros r H Hp. apply elem_of_app in H as [H|H]; [apply Hcompl; assumption|].
        destruct line as [|r0|]; try (inversion H; fail).
        apply list_elem_of_singleton in H. subst r0. rewrite (Hline r eq_refl) in Hp.
        discriminate.
      - intros before r after Heq Hp Hafter.
        destruct after as [|a after _] using rev_ind.
        + apply app_inj_tail in Heq as [_ Heq]. rewrite (Hline r Heq) in Hp. discriminate.
        + rewrite app_comm_cons, app_assoc in Heq. apply app_inj_tail in Heq as [Heq _].
          apply (Hlast before r after Heq Hp).
          intros r' Hr'. apply Hafter. rewrite recordsOf_snoc. apply elem_of_app. left.
          exact Hr'. }
    destruct line as [|r0|];
      [intros H; apply (Hkeep H); discriminate | | discriminate].
    destruct (match filter with None => true | Some f => f r0 end) eqn:Ep;
      [|intros H; apply (Hkeep H); intros r [= <-]; exact Ep].
    intros [= <-].
    split; [apply jsMapSet_NoDup, Hnd|]. split; [|split].
    + intros k r H. apply jsMapSet_elem in H; [|exact Hnd].
      destruct H as [[-> ->]|[Hk H]].
      * split; [reflexivity|].
        split; [apply elem_of_app; right; apply list_elem_of_singleton; reflexivity | exact Ep].
      * destruct (Hsound k r H) as (H1 & H2 & H3).
        split; [exact H1|]. split; [apply elem_of_app; left; exact H2 | exact H3].
    + intros r H Hp. rewrite jsMapSet_keys.
      apply elem_of_app in H as [H|H].
      * specialize (Hcompl r H Hp). destruct (bool_decide _); [exact Hcompl|].
        apply elem_of_app. left. exact Hcompl.
      * apply list_elem_of_singleton in H. subst r0.
        destruct (bool_decide_reflect (_key r ∈ recs.*1)) as [Hin|Hin]; [exact Hin|].
        apply elem_of_app. right. apply list_elem_of_singleton. reflexivity.
    + intros before r after Heq Hp Hafter. apply jsMapSet_elem; [exact Hnd|].
      destruct after as [|a after _] using rev_ind.
      * apply app_inj_tail in Heq as [_ Heq]. injection Heq as <-. left. auto.
      * rewrite app_comm_cons, app_assoc in Heq. apply app_inj_tail in Heq as [Heq <-].
        right. split.
        -- intros E. apply (Hafter r0); [|exact Ep | symmetry; exact E].
           rewrite recordsOf_snoc. apply elem_of_app. right.
           apply list_elem_of_singleton. reflexivity.
        -- apply (Hlast before r after Heq Hp).
           intros r' Hr'. apply Hafter. rewrite recordsOf_snoc. apply elem_of_app. left.
           exact Hr'.
Qed.

(** X25: what [loadAllRecords] resolves to.  The map has one entry per
    key; every entry is a record of the file that passes the filter,
    stored under its own key; every record that passes the filter has
    its key in the map; and of several records with one key, the last
    that passes the filter is the one kept.  The promise is rejected
    exactly when the file has a malformed line. *)
Theorem loadAllRecords_keeps_last_record (R : Type) (_key : R -> N)
        (lines : list (SdeLoader.Line R)) (filter : option (R -> bool)) :
  let passes record := match filter with None => true | Some f => f record end in
  match SdeLoader.loadAllRecords _key lines filter with
  | Some records =>
    (SdeLoader.Malformed ∉ lines)
    /\ NoDup records.*1
    /\ (forall k r, (k, r) ∈ records ->
                    _key r = k /\ r ∈ SdeLoader.recordsOf lines /\ passes r = true)
    /\ (forall r, r ∈ SdeLoader.recordsOf lines -> passes r = true -> _key r ∈ records.*1)
    /\ forall before r after,
        lines = before ++ SdeLoader.Json r :: after -> passes r = true ->
        (forall r', r' ∈ SdeLoader.recordsOf after -> passes r' = true ->
                    _key r' <> _key r) ->
        (_key r, r) ∈ records
  | None => SdeLoader.Malformed ∈ lines
  end.
Proof.
  intros passes.
  assert (Hmal : SdeLoader.loadAllRecords _key lines filter = None
                 <-> SdeLoader.Malformed ∈ lines).
  { induction lines as [|line lines IH] using rev_ind.
    - split; [discriminate | intros H; inversion H].
    - rewrite loadAllRecords_snoc, elem_of_app, list_elem_of_singleton.
      destruct (SdeLoader.loadAllRecords _key lines filter) as [recs|].
      + destruct line as [|r0|].
        * split; [discriminate|]. intros [H|H]; [apply IH in H | ]; discriminate.
        * destruct (match filter with None => true | Some f => f r0 end);
            (split; [discriminate|]); intros [H|H]; [apply IH in H | | apply IH in H | ];
            discriminate.
        * split; [intros _; right; reflexivity | reflexivity].
      + split; [intros _; left; apply IH; reflexivity | reflexivity]. }
  destruct (SdeLoader.loadAllRecords _key lines filter) as [records|] eqn:E.
  - split; [intros H; apply Hmal in H; discriminate|].
    apply (loadAllRecords_spec _key lines filter records E).
  - apply Hmal. reflexivity.
Qed.

Lemma findRecordByKey_app {R : Type} (_key : R -> N) (l l' : list (SdeLoader.Line R))
      (key : N) :
  SdeLoader.findRecordByKey _key (l ++ l') key
  = match SdeLoader.findRecordByKey _key l key with
    | Some None => SdeLoader.findRecordByKey _key l' key
    | found => found
    end.
Proof.
  induction l as [|line l IH]; [reflexivity|].
  destruct line as [|r|]; simpl; [exact IH | | reflexivity].
  destruct (N.eqb (_key r) key); [reflexivity | exact IH].
Qed.

Lemma jsMapSet_fresh {R : Type} (key : N) (record : R) (records : list (N * R)) :
  key ∉ records.*1 -> SdeLoader.jsMapSet key record records = records ++ [(key, record)].
Proof.
  induction records as [|[k r] rest IH]; intros Hk; [reflexivity|].
  rewrite fmap_cons, not_elem_of_cons in Hk. destruct Hk as [Hne Hk]. cbn [fst] in Hne.
  cbn [SdeLoader.jsMapSet]. destruct (N.eqb_spec k key) as [E|_]; [congruence|].
  rewrite (IH Hk). reflexivity.
Qed.

Lemma jsMapGet_app {R : Type} (key : N) (m m' : list (N * R)) :
  SdeLoader.jsMapGet key (m ++ m')
  = match SdeLoader.jsMapGet key m with
    | Some r => Some r
    | None => SdeLoader.jsMapGet key m'
    end.
Proof.
  unfold SdeLoader.jsMapGet. induction m as [|[k r] m IH]; [reflexivity|].
  simpl. destruct (N.eqb k key); [reflexivity | exact IH].
Qed.

Lemma findRecords_snoc {R : Type} (lines : list (SdeLoader.Line R))
      (line : SdeLoader.Line R) (predicate : R -> bool) :
  SdeLoader.findRecords (lines ++ [line]) predicate
  = match SdeLoader.findRecords lines predicate with
    | None => None
    | Some results =>
      match line with
      | SdeLoader.Blank => Some results
      | SdeLoader.Malformed => None
      | SdeLoader.Json record =>
        if predicate record then Some (results ++ [record]) else Some results
      end
    end.
Proof. unfold SdeLoader.findRecords. rewrite fold_left_app. reflexivity. Qed.

(** X26: the two other loaders.  [findRecordByKey] returns the first
    record with the key and reads no line after it, so that it succeeds
    whatever follows the match; on a file whose keys are unique it finds
    what [loadAllRecords] stores under the key.  [findRecords] returns
    the records of a well-formed file that satisfy the predicate, in
    file order. *)
Theorem loaders_agree (R : Type) (_key : R -> N) :
  (forall (before : list (SdeLoader.Line R)) r after,
      SdeLoader.Malformed ∉ before ->
      (forall r', r' ∈ SdeLoader.recordsOf before -> _key r' <> _key r) ->
      SdeLoader.findRecordByKey _key (before ++ SdeLoader.Json r :: after) (_key r)
      = Some (Some r))
  /\ (forall lines key records,
         SdeLoader.loadAllRecords _key lines None = Some records ->
         NoDup (_key <$> SdeLoader.recordsOf lines) ->
         SdeLoader.findRecordByKey _key lines key = Some (SdeLoader.jsMapGet key records))
  /\ (forall (lines : list (SdeLoader.Line R)) predicate,
         SdeLoader.Malformed ∉ lines ->
         SdeLoader.findRecords lines predicate
         = Some (List.filter predicate (SdeLoader.recordsOf lines))).
Proof.
  split; [|split].
  - intros before r after Hmal Hkeys.
    rewrite findRecordByKey_app.
    assert (Hb : SdeLoader.findRecordByKey _key before (_key r) = Some None).
    { induction before as [|line before IH]; [reflexivity|].
      rewrite not_elem_of_cons in Hmal. destruct Hmal as [Hline Hmal].
      destruct line as [|r0|]; simpl; [| |congruence].
      - apply IH; [exact Hmal | exact Hkeys].
      - assert (Hne : _key r0 <> _key r).
        { apply Hkeys. unfold SdeLoader.recordsOf. simpl. apply elem_of_cons. left.
          reflexivity. }
        apply N.eqb_neq in Hne. rewrite Hne. apply IH; [exact Hmal|].
        intros r' Hr'. apply Hkeys. unfold SdeLoader.recordsOf. simpl.
        apply elem_of_cons. right. exact Hr'. }
    rewrite Hb. simpl. rewrite N.eqb_refl. reflexivity.
  - intros lines key. induction lines as [|line lines IH] using rev_ind; intros records.
    + intros [= <-] _. reflexivity.
    + rewrite loadAllRecords_snoc, recordsOf_snoc, findRecordByKey_app.
      destruct (SdeLoader.loadAllRecords _key lines None) as [recs|] eqn:El; [|discriminate].
      intros Hload Hnd. rewrite fmap_app in Hnd. apply NoDup_app in Hnd as (Hnd & Hdisj & _).
      rewrite (IH recs eq_refl Hnd).
      destruct line as [|r0|]; [| |discriminate].
      * injection Hload as <-. simpl. destruct (SdeLoader.jsMapGet key recs); reflexivity.
      * injection Hload as <-.
        assert (Hfresh : _key r0 ∉ recs.*1).
        { intros Hin. apply list_elem_of_fmap in Hin as ([k r] & Hk & Hin). simpl in Hk.
          subst k.
          destruct (loadAllRecords_spec _key lines None recs El) as (_ & Hsound & _).
          destruct (Hsound _ _ Hin) as (Hkr & Hr & _).
          apply (Hdisj (_key r0)).
          - apply list_elem_of_fmap. exists r. split; [symmetry; exact Hkr | exact Hr].
          - apply list_elem_of_singleton. reflexivity. }
        rewrite (jsMapSet_fresh _ _ _ Hfresh), jsMapGet_app.
        destruct (SdeLoader.jsMapGet key recs); [reflexivity|].
        unfold SdeLoader.jsMapGet. simpl.
        destruct (N.eqb (_key r0) key); reflexivity.
  - intros lines predicate. induction lines as [|line lines IH] using rev_ind; intros Hmal.
    + reflexivity.
    + rewrite elem_of_app, list_elem_of_singleton in Hmal.
      rewrite findRecords_snoc, recordsOf_snoc, IH by tauto.
      rewrite List.filter_app.
      destruct line as [|r0|]; simpl.
      * rewrite app_nil_r. reflexivity.
      * destruct (predicate r0); [reflexivity | rewrite app_nil_r; reflexivity].
      * exfalso. apply Hmal. right. reflexivity.
Qed.

(** ** The map-data endpoint as a whole *)

Lemma values_keys {R : Type} (_key : R -> N) (records : list (N * R)) :
  (forall k r, (k, r) ∈ records -> _key r = k) ->
  _key <$> SdeLoader.values records = records.*1.
Proof.
  unfold SdeLoader.values. induction records as [|[k r] rest IH]; intros H; [reflexivity|].
  rewrite !fmap_cons. cbn [fst snd]. f_equal.
  - apply H. apply elem_of_cons. left. reflexivity.
  - apply IH. intros k' r' Hin. apply H. apply elem_of_cons. right. exact Hin.
Qed.

Lemma values_elem {R : Type} (records : list (N * R)) (r : R) :
  r ∈ SdeLoader.values records <-> exists k, (k, r) ∈ records.
Proof.
  unfold SdeLoader.values. rewrite list_elem_of_fmap. split.
  - intros ([k r'] & -> & H). exists k. exact H.
  - intros (k & H). exists (k, r). split; [reflexivity | exact H].
Qed.

(** X27: the answer of the map-data endpoint is closed under its own
    references.  When the endpoint answers from the files, each array
    has one record per key, every region is an allowed region, every
    constellation lies in an allowed region, every system lies in a
    constellation of the answer, and both ends of every connection are
    systems of the answer.  The answer is stored and every later
    request gets it again, whatever the files then hold. *)
Theorem map_data_is_closed (files : MapData.Files) (data : MapData.MapDataResponse)
        (cache : option MapData.MapDataResponse) :
  MapData.GET None files = (MapData.Ok data, cache) ->
  cache = Some data
  /\ (forall files', MapData.GET cache files' = (MapData.Ok data, cache))
  /\ NoDup (MapData.region_key <$> MapData.regions data)
  /\ NoDup (MapData.constellation_key <$> MapData.constellations data)
  /\ NoDup (MapData.system_key <$> MapData.systems data)
  /\ (forall r, r ∈ MapData.regions data ->
                MapData.region_key r ∈ MapData.ALLOWED_REGION_IDS)
  /\ (forall c, c ∈ MapData.constellations data ->
                MapData.constellation_regionID c ∈ MapData.ALLOWED_REGION_IDS)
  /\ (forall s, s ∈ MapData.systems data ->
                exists c, c ∈ MapData.constellations data
                          /\ MapData.constellation_key c = MapData.constellationID s)
  /\ (forall conn, conn ∈ MapData.connections data ->
                   exists s1 s2, s1 ∈ MapData.systems data /\ s2 ∈ MapData.systems data
                                 /\ MapData.system_key s1 = MapData.conn_from conn
                                 /\ MapData.system_key s2 = MapData.conn_to conn).
Proof.
  unfold MapData.GET, MapData.build.
  destruct (SdeLoader.loadAllRecords MapData.region_key (MapData.mapRegions files) _)
    as [regionsMap|] eqn:Er; [|discriminate].
  destruct (SdeLoader.loadAllRecords MapData.constellation_key
              (MapData.mapConstellations files) _)
    as [constellationsMap|] eqn:Ec; [|discriminate].
  cbn [mbind option_bind].
  destruct (SdeLoader.loadAllRecords MapData.system_key (MapData.mapSolarSystems files) _)
    as [systemsMap|] eqn:Es; [|discriminate].
  cbn [mbind option_bind].
  destruct (SdeLoader.loadAllRecords MapData._key (MapData.mapStargates files) _)
    as [stargatesMap|] eqn:Eg; [|discriminate].
  cbn [mbind option_bind].
  intros [= <- <-].
  cbn [MapData.regions MapData.constellations MapData.systems MapData.connections].
  destruct (loadAllRecords_spec _ _ _ _ Er) as (Rnd & Rsound & _).
  destruct (loadAllRecords_spec _ _ _ _ Ec) as (Cnd & Csound & _).
  destruct (loadAllRecords_spec _ _ _ _ Es) as (Snd & Ssound & _).
  cbv beta in Rsound, Csound, Ssound.
  split; [reflexivity|]. split; [reflexivity|].
  split; [rewrite (values_keys MapData.region_key);
          [exact Rnd | intros k r H; apply (Rsound k r H)]|].
  split; [rewrite (values_keys MapData.constellation_key);
          [exact Cnd | intros k r H; apply (Csound k r H)]|].
  split; [rewrite (values_keys MapData.system_key);
          [exact Snd | intros k r H; apply (Ssound k r H)]|].
  assert (Hsys : forall id,
             id ∈ (list_to_set (MapData.system_key <$> SdeLoader.values systemsMap) : gset N) ->
             exists s, s ∈ SdeLoader.values systemsMap /\ MapData.system_key s = id).
  { intros id Hid. apply elem_of_list_to_set, list_elem_of_fmap in Hid as (s & -> & Hs).
    exists s. split; [exact Hs | reflexivity]. }
  split; [|split; [|split]].
  - intros r Hr. apply values_elem in Hr as (k & Hr).
    destruct (Rsound k r Hr) as (_ & _ & Hp). apply bool_decide_eq_true in Hp. exact Hp.
  - intros c Hc. apply values_elem in Hc as (k & Hc).
    destruct (Csound k c Hc) as (_ & _ & Hp). apply bool_decide_eq_true in Hp. exact Hp.
  - intros s Hs. apply values_elem in Hs as (k & Hs).
    destruct (Ssound k s Hs) as (_ & _ & Hp). apply bool_decide_eq_true in Hp.
    apply elem_of_list_to_set, list_elem_of_fmap in Hp as (c & Hkc & Hc).
    exists c. split; [exact Hc | symmetry; exact Hkc].
  - intros conn Hconn. unfold MapData.stargateConnections in Hconn.
    pose proof (dedup_invariant
                  (list_to_set (MapData.system_key <$> SdeLoader.values systemsMap))
                  (SdeLoader.values stargatesMap)) as [_ _ Hsound _].
    destruct (Hsound conn Hconn) as (Hfrom & Hto & _).
    destruct (Hsys _ Hfrom) as (s1 & Hs1 & Hk1).
    destruct (Hsys _ Hto) as (s2 & Hs2 & Hk2).
    exists s1, s2. auto.
Qed.

Lemma map_data_is_closed_witness :
  Some Examples.small_response = Some Examples.small_response
  /\ (forall files', MapData.GET (Some Examples.small_response) files'
                     = (MapData.Ok Examples.small_response, Some Examples.small_response))
  /\ NoDup (MapData.region_key <$> MapData.regions Examples.small_response)
  /\ NoDup (MapData.constellation_key <$> MapData.constellations Examples.small_response)
  /\ NoDup (MapData.system_key <$> MapData.systems Examples.small_response)
  /\ (forall r, r ∈ MapData.regions Examples.small_response ->
                MapData.region_key r ∈ MapData.ALLOWED_REGION_IDS)
  /\ (forall c, c ∈ MapData.constellations Examples.small_response ->
                MapData.constellation_regionID c ∈ MapData.ALLOWED_REGION_IDS)
  /\ (forall s, s ∈ MapData.systems Examples.small_response ->
                exists c, c ∈ MapData.constellations Examples.small_response
                          /\ MapData.constellation_key c = MapData.constellationID s)
  /\ (forall conn, conn ∈ MapData.connections Examples.small_response ->
                   exists s1 s2, s1 ∈ MapData.systems Examples.small_response
                                 /\ s2 ∈ MapData.systems Examples.small_response
                                 /\ MapData.system_key s1 = MapData.conn_from conn
                                 /\ MapData.system_key s2 = MapData.conn_to conn).
Proof.
  apply (map_data_is_closed Examples.small_files Examples.small_response
           (Some Examples.small_response)).
  vm_compute. reflexivity.
Defined.

(** ** The cache of the alliance-sovereignty endpoint *)

Lemma serve_snoc (cachedData : option (gmap N MapView.AllianceInfo * Z))
      (requests : list AllianceSovereignty.Request) (request : AllianceSovereignty.Request) :
  AllianceSovereignty.serve cachedData (requests ++ [request])
  = let acc := AllianceSovereignty.serve cachedData requests in
    let '(response, cachedData') :=
      AllianceSovereignty.GET (AllianceSovereignty.req_now request) (snd acc)
        (AllianceSovereignty.req_getSovereigntyMap request)
        (AllianceSovereignty.req_getNames request) in
    (fst acc ++ [response], cachedData').
Proof. unfold AllianceSovereignty.serve. rewrite fold_left_app. reflexivity. Qed.

(** The cache holds the result of an earlier successful fetch and the
    time of that fetch. *)
Lemma serve_spec (requests : list AllianceSovereignty.Request) :
  let acc := AllianceSovereignty.serve None requests in
  length (fst acc) = length requests
  /\ (forall data timestamp,
         snd acc = Some (data, timestamp) ->
         exists j fill sovMap allianceNames,
           requests !! j = Some fill
           /\ AllianceSovereignty.req_now fill = timestamp
           /\ AllianceSovereignty.req_getSovereigntyMap fill = Some sovMap
           /\ AllianceSovereignty.req_getNames fill (AllianceSovereignty.allianceIds sovMap)
              = Some allianceNames
           /\ data = AllianceSovereignty.result sovMap allianceNames)
  /\ forall i request data,
      requests !! i = Some request ->
      fst acc !! i = Some (AllianceSovereignty.Ok data) ->
      exists j fill sovMap allianceNames,
        (j <= i)%nat
        /\ requests !! j = Some fill
        /\ AllianceSovereignty.req_getSovereigntyMap fill = Some sovMap
        /\ AllianceSovereignty.req_getNames fill (AllianceSovereignty.allianceIds sovMap)
           = Some allianceNames
        /\ data = AllianceSovereignty.result sovMap allianceNames
        /\ (j = i
            \/ (AllianceSovereignty.req_now request - AllianceSovereignty.req_now fill
                < AllianceSovereignty.CACHE_DURATION)%Z).
Proof.
  induction requests as [|request requests IH] using rev_ind.
  - simpl. split; [reflexivity|]. split; [intros d t H; discriminate H|].
    intros i r d H. discriminate H.
  - cbv zeta in *. rewrite serve_snoc. cbv zeta.
    destruct (AllianceSovereignty.serve None requests) as [responses cache].
    cbn [fst snd] in *. destruct IH as (Hlen & Hcache & Hresp).
    assert (Hold : forall j (fill : AllianceSovereignty.Request),
               requests !! j = Some fill -> (requests ++ [request]) !! j = Some fill).
    { intros j fill H. apply lookup_app_l_Some, H. }
    assert (Hlast : (requests ++ [request]) !! length requests = Some request).
    { rewrite lookup_app_r by lia. rewrite Nat.sub_diag. reflexivity. }
    (* the three outcomes of the request *)
    assert (Hget :
      (exists d t, cache = Some (d, t)
                   /\ (AllianceSovereignty.req_now request - t
                       < AllianceSovereignty.CACHE_DURATION)%Z
                   /\ AllianceSovereignty.GET (AllianceSovereignty.req_now request) cache
                        (AllianceSovereignty.req_getSovereigntyMap request)
                        (AllianceSovereignty.req_getNames request)
                      = (AllianceSovereignty.Ok d, cache))
      \/ (exists sovMap allianceNames,
             AllianceSovereignty.req_getSovereigntyMap request = Some sovMap
             /\ AllianceSovereignty.req_getNames request
                  (AllianceSovereignty.allianceIds sovMap) = Some allianceNames
             /\ AllianceSovereignty.GET (AllianceSovereignty.req_now request) cache
                  (AllianceSovereignty.req_getSovereigntyMap request)
                  (AllianceSovereignty.req_getNames request)
                = (AllianceSovereignty.Ok (AllianceSovereignty.result sovMap allianceNames),
                   Some (AllianceSovereignty.result sovMap allianceNames,
                         AllianceSovereignty.req_now request)))
      \/ AllianceSovereignty.GET (AllianceSovereignty.req_now request) cache
           (AllianceSovereignty.req_getSovereigntyMap request)
           (AllianceSovereignty.req_getNames request)
         = (AllianceSovereignty.Error500, cache)).
    { unfold AllianceSovereignty.GET.
      assert (Hfetch :
        (exists sovMap allianceNames,
            AllianceSovereignty.req_getSovereigntyMap request = Some sovMap
            /\ AllianceSovereignty.req_getNames request
                 (AllianceSovereignty.allianceIds sovMap) = Some allianceNames
            /\ match AllianceSovereignty.req_getSovereigntyMap request with
               | Some sovMap =>
                 match AllianceSovereignty.req_getNames request
                         (AllianceSovereignty.allianceIds sovMap) with
                 | Some allianceNames =>
                   (AllianceSovereignty.Ok (AllianceSovereignty.result sovMap allianceNames),
                    Some (AllianceSovereignty.result sovMap allianceNames,
                          AllianceSovereignty.req_now request))
                 | None => (AllianceSovereignty.Error500, cache)
                 end
               | None => (AllianceSovereignty.Error500, cache)
               end
               = (AllianceSovereignty.Ok (AllianceSovereignty.result sovMap allianceNames),
                  Some (AllianceSovereignty.result sovMap allianceNames,
                        AllianceSovereignty.req_now request)))
        \/ match AllianceSovereignty.req_getSovereigntyMap request with
           | Some sovMap =>
             match AllianceSovereignty.req_getNames request
                     (AllianceSovereignty.allianceIds sovMap) with
             | Some allianceNames =>
               (AllianceSovereignty.Ok (AllianceSovereignty.result sovMap allianceNames),
                Some (AllianceSovereignty.result sovMap allianceNames,
                      AllianceSovereignty.req_now request))
             | None => (AllianceSovereignty.Error500, cache)
             end
           | None => (AllianceSovereignty.Error500, cache)
           end = (AllianceSovereignty.Error500, cache)).
      { destruct (AllianceSovereignty.req_getSovereigntyMap request) as [sovMap|];
          [|right; reflexivity].
        destruct (AllianceSovereignty.req_getNames request _) as [names|] eqn:En;
          [|right; reflexivity].
        left. exists sovMap, names. rewrite En. auto. }
      destruct cache as [[d t]|].
      - destruct (AllianceSovereignty.req_now request - t
                  <? AllianceSovereignty.CACHE_DURATION)%Z eqn:Efresh.
        + left. exists d, t. apply Z.ltb_lt in Efresh. auto.
        + right. destruct Hfetch as [(s & n & H1 & H2 & H3)|H]; [left | right; exact H].
          exists s, n. auto.
      - right. destruct Hfetch as [(s & n & H1 & H2 & H3)|H]; [left | right; exact H].
        exists s, n. auto. }
    assert (Hearlier : forall i r d,
               (requests ++ [request]) !! i = Some r ->
               responses !! i = Some (AllianceSovereignty.Ok d) ->
               exists j fill sovMap allianceNames,
                 (j <= i)%nat
                 /\ (requests ++ [request]) !! j = Some fill
                 /\ AllianceSovereignty.req_getSovereigntyMap fill = Some sovMap
                 /\ AllianceSovereignty.req_getNames fill
                      (AllianceSovereignty.allianceIds sovMap) = Some allianceNames
                 /\ d = AllianceSovereignty.result sovMap allianceNames
                 /\ (j = i
                     \/ (AllianceSovereignty.req_now r - AllianceSovereignty.req_now fill
                         < AllianceSovereignty.CACHE_DURATION)%Z)).
    { intros i r d Hr Hd.
      assert (Hi : (i < length requests)%nat)
        by (rewrite <- Hlen; eapply lookup_lt_Some, Hd).
      rewrite lookup_app_l in Hr by exact Hi.
      destruct (Hresp i r d Hr Hd) as (j & fill & s & n & H1 & H2 & H3).
      exists j, fill, s, n. split; [exact H1|]. split; [apply Hold, H2 | exact H3]. }
    assert (Hsplit : forall (response : AllianceSovereignty.Response) i,
               (responses ++ [response]) !! i
               = if decide (i < length requests)%nat then responses !! i
                 else if decide (i = length requests) then Some response else None).
    { intros response i. destruct (decide (i < length requests)%nat) as [Hi|Hi].
      - apply lookup_app_l. lia.
      - rewrite lookup_app_r by lia. rewrite Hlen.
        destruct (decide (i = length requests)) as [->|Hne].
        + rewrite Nat.sub_diag. reflexivity.
        + destruct (i - length requests)%nat as [|k] eqn:E; [lia | reflexivity]. }
    destruct Hget as [(d & t & -> & Hfresh & ->)|[(s & n & Hs & Hn & ->)| ->]];
      cbn [fst snd].
    + split; [rewrite !length_app, Hlen; reflexivity|]. split.
      * intros data timestamp [= <- <-].
        destruct (Hcache d t eq_refl) as (j & fill & s & n & H1 & H2).
        exists j, fill, s, n. split; [apply Hold, H1 | exact H2].
      * intros i r data Hr. rewrite Hsplit.
        destruct (decide (i < length requests)%nat) as [Hi|Hi]; [apply Hearlier, Hr|].
        destruct (decide (i = length requests)) as [->|Hne]; [|discriminate].
        intros [= <-]. rewrite Hlast in Hr. injection Hr as <-.
        destruct (Hcache d t eq_refl) as (j & fill & s & n & H1 & H2 & H3 & H4 & H5).
        exists j, fill, s, n.
        split; [apply lookup_lt_Some in H1; lia|]. split; [apply Hold, H1|].
        split; [exact H3|]. split; [exact H4|]. split; [exact H5|].
        right. rewrite H2. exact Hfresh.
    + split; [rewrite !length_app, Hlen; reflexivity|]. split.
      * intros data timestamp [= <- <-].
        exists (length requests), request, s, n. auto.
      * intros i r data Hr. rewrite Hsplit.
        destruct (decide (i < length requests)%nat) as [Hi|Hi]; [apply Hearlier, Hr|].
        destruct (decide (i = length requests)) as [->|Hne]; [|discriminate].
        intros [= <-]. exists (length requests), request, s, n.
        split; [lia|]. split; [exact Hlast|]. auto.
    + split; [rewrite !length_app, Hlen; reflexivity|]. split.
      * intros data timestamp Hc.
        destruct (Hcache data timestamp Hc) as (j & fill & s & n & H1 & H2).
        exists j, fill, s, n. split; [apply Hold, H1 | exact H2].
      * intros i r data Hr. rewrite Hsplit.
        destruct (decide (i < length requests)%nat) as [Hi|Hi]; [apply Hearlier, Hr|].
        destruct (decide (i = length requests)) as [->|Hne]; discriminate.
Qed.

(** X28: the alliance endpoint never answers with stale data.  In any
    sequence of requests starting with an empty cache, a successful
    answer is the overlay computed from a remote fetch that succeeded
    during this request or during an earlier one less than
    [CACHE_DURATION] (one hour) before it; when the cache is older and
    the remote calls fail, the answer is the error, not the old data. *)
Theorem alliance_answers_are_fresh (requests : list AllianceSovereignty.Request)
        (i : nat) (request : AllianceSovereignty.Request)
        (data : gmap N MapView.AllianceInfo) :
  requests !! i = Some request ->
  fst (AllianceSovereignty.serve None requests) !! i = Some (AllianceSovereignty.Ok data) ->
  AllianceSovereignty.CACHE_DURATION = 3600000%Z
  /\ exists j fill sovMap allianceNames,
      (j <= i)%nat
      /\ requests !! j = Some fill
      /\ AllianceSovereignty.req_getSovereigntyMap fill = Some sovMap
      /\ AllianceSovereignty.req_getNames fill (AllianceSovereignty.allianceIds sovMap)
         = Some allianceNames
      /\ data = AllianceSovereignty.result sovMap allianceNames
      /\ (j = i
          \/ (AllianceSovereignty.req_now request - AllianceSovereignty.req_now fill
              < AllianceSovereignty.CACHE_DURATION)%Z).
Proof.
  intros Hr Hd. split; [reflexivity|].
  destruct (serve_spec requests) as (_ & _ & H). exact (H i request data Hr Hd).
Qed.

Lemma alliance_answers_are_fresh_witness :
  AllianceSovereignty.CACHE_DURATION = 3600000%Z
  /\ exists j fill sovMap allianceNames,
      (j <= 1)%nat
      /\ Examples.two_requests !! j = Some fill
      /\ AllianceSovereignty.req_getSovereigntyMap fill = Some sovMap
      /\ AllianceSovereignty.req_getNames fill (AllianceSovereignty.allianceIds sovMap)
         = Some allianceNames
      /\ AllianceSovereignty.result Examples.sov_map Examples.sov_names
         = AllianceSovereignty.result sovMap allianceNames
      /\ (j = 1%nat
          \/ (1762100001000 - AllianceSovereignty.req_now fill
              < AllianceSovereignty.CACHE_DURATION)%Z).
Proof.
  apply (alliance_answers_are_fresh Examples.two_requests 1
           {| AllianceSovereignty.req_now := 1762100001000;
              AllianceSovereignty.req_getSovereigntyMap := None;
              AllianceSovereignty.req_getNames := fun _ => None |}
           (AllianceSovereignty.result Examples.sov_map Examples.sov_names)).
  - reflexivity.
  - vm_compute. reflexivity.
Defined.

(** ** The padded projection of the local view *)







(** ** The search box *)

Lemma scan_spec (toLowerCase : string -> string) (includes : string -> string -> bool)
      {A : Type} (name : A -> string) (key : A -> N) (type : MapView.ResultType)
      (lowerQuery : string) (xs : list A) (results : list Search.Result) :
  (length results < 10)%nat ->
  Search.scan toLowerCase includes name key type lowerQuery xs results
  = take 10 (results
             ++ List.map (fun x => {| Search.res_type := type; Search.res_name := name x;
                                      Search.res_id := key x |})
                         (List.filter (fun x => includes (toLowerCase (name x)) lowerQuery)
                                      xs)).
Proof.
  revert results. induction xs as [|x rest IH]; intros results Hlen.
  - simpl. rewrite app_nil_r, take_ge by lia. reflexivity.
  - cbn [Search.scan List.filter].
    destruct (includes (toLowerCase (name x)) lowerQuery); [|apply IH, Hlen].
    cbn [List.map].
    replace (results ++ {| Search.res_type := type; Search.res_name := name x;
                           Search.res_id := key x |} :: List.map _ (List.filter _ rest))
      with ((results ++ [{| Search.res_type := type; Search.res_name := name x;
                            Search.res_id := key x |}])
            ++ List.map (fun x => {| Search.res_type := type; Search.res_name := name x;
                                     Search.res_id := key x |})
                        (List.filter (fun x => includes (toLowerCase (name x)) lowerQuery)
                                     rest))
      by (rewrite <- app_assoc; reflexivity).
    destruct (Nat.leb_spec 10 (length (results ++ [{| Search.res_type := type;
                                                      Search.res_name := name x;
                                                      Search.res_id := key x |}])))
      as [Hfull|Hroom].
    + rewrite take_app_length'; [reflexivity|]. rewrite length_app in *. simpl in *. lia.
    + apply IH, Hroom.
Qed.

(** X30: the autocomplete list.  The debounced callback of
    [handleSearchChange] yields the first 10 entries of the matching
    systems, in array order, followed by the matching regions, in array
    order; and selecting any system entry of the list finds the system
    in [systemMap] and sets the camera to zoom 8 on it. *)
Theorem search_results_are_selectable (toLowerCase : string -> string)
        (includes : string -> string -> bool)
        (R : Type) (systemName : MapView.SolarSystem -> string)
        (regionName : R -> string) (regionKey : R -> N)
        (query : string) (systems : list MapView.SolarSystem) (regions : list R)
        (st : MapView.State) :
  let results :=
    Search.filteredResults toLowerCase includes systemName MapView._key
                           regionName regionKey query systems regions in
  let matching {A : Type} (name : A -> string) (x : A) :=
    includes (toLowerCase (name x)) (toLowerCase query) in
  results
  = take 10
      (List.map (fun s => {| Search.res_type := MapView.RSystem;
                             Search.res_name := systemName s;
                             Search.res_id := MapView._key s |})
                (List.filter (matching systemName) systems)
       ++ List.map (fun r => {| Search.res_type := MapView.RRegion;
                                Search.res_name := regionName r;
                                Search.res_id := regionKey r |})
                   (List.filter (matching regionName) regions))
  /\ (length results <= 10)%nat
  /\ forall r,
      r ∈ results -> Search.res_type r = MapView.RSystem ->
      (exists system, MapView.systemMap systems (Search.res_id r) = Some system)
      /\ cam_zoom (MapView.camera
                     (MapView.handleSelectResult systems MapView.RSystem
                                                 (Search.res_id r) st)) = 8.
Proof.
  intros results matching.
  set (A := List.map (fun s => {| Search.res_type := MapView.RSystem;
                                  Search.res_name := systemName s;
                                  Search.res_id := MapView._key s |})
                     (List.filter (matching _ systemName) systems)).
  set (B := List.map (fun r => {| Search.res_type := MapView.RRegion;
                                  Search.res_name := regionName r;
                                  Search.res_id := regionKey r |})
                     (List.filter (matching _ regionName) regions)).
  assert (Hres : results = take 10 (A ++ B)).
  { subst results. unfold Search.filteredResults. cbv zeta.
    assert (H1 : Search.scan toLowerCase includes systemName MapView._key MapView.RSystem
                             (toLowerCase query) systems [] = take 10 A).
    { rewrite scan_spec by (simpl; lia). reflexivity. }
    rewrite H1. clear H1.
    destruct (Nat.ltb_spec (length (take 10 A)) 10) as [Hlt|Hge].
    - assert (HA : take 10 A = A).
      { apply take_ge. rewrite length_take in Hlt. lia. }
      rewrite HA in Hlt. rewrite HA.
      rewrite (scan_spec toLowerCase includes regionName regionKey MapView.RRegion
                         (toLowerCase query) regions A Hlt).
      reflexivity.
    - rewrite length_take in Hge. rewrite take_app_le by lia. reflexivity. }
  split; [exact Hres|]. split; [rewrite Hres, length_take; lia|].
  intros r Hr Htype. rewrite Hres in Hr.
  pose proof (elem_of_sublist _ _ _ Hr (sublist_take (A ++ B) 10)) as Hr'. clear Hr.
  apply elem_of_app in Hr' as [Hr|Hr].
  - subst A. apply list_elem_of_In, in_map_iff in Hr as (s & <- & Hs).
    apply filter_In in Hs as [Hs _]. cbn [Search.res_id].
    assert (Hfind : exists system,
               MapView.systemMap systems (MapView._key s) = Some system).
    { unfold MapView.systemMap.
      destruct (List.find _ (rev systems)) as [system|] eqn:E; [eauto|].
      exfalso. pose proof (List.find_none _ _ E s) as Hnone. cbv beta in Hnone.
      rewrite N.eqb_refl in Hnone. apply in_rev in Hs. specialize (Hnone Hs).
      discriminate Hnone. }
    split; [exact Hfind|]. destruct Hfind as [system Hsys].
    unfold MapView.handleSelectResult. rewrite Hsys. reflexivity.
  - subst B. apply list_elem_of_In, in_map_iff in Hr as (x & <- & _). discriminate Htype.
Qed.
